(** * Grid Escape: the game-state engine

    A shallow embedding of [game_logic/board.py], [game_logic/pawn.py],
    [game_logic/player.py] and [game_logic/game_state.py], of the click
    handling of [input/input_handler.py] with the part of
    [rendering/renderer.py] it uses, and of the event loop of [main.py],
    followed by the properties of the engine that the specification
    states and by further properties of the code.

    Conventions of the embedding.

    - Python objects that are mutated in place become values that are
      threaded through: a method that mutates [self] and returns [r] becomes
      a function returning [r] together with the new value of [self].
    - [GameState.players] is built once as [[Player(1, _), Player(2, _)]] and
      never resized, so an index into it is a [PlayerIndex]; the expression
      [(i + 1) % len(self.players)] is [next_index].
    - [Player._pawns] is built once as seven pawns and never resized: it is
      a [vec Pawn 7].  A pawn object is identified by its owner and its slot
      in that roster ([PawnRef]); [Pawn._player] and [Pawn._pawn_id] are
      never assigned after construction and are read off the reference.
    - [Board._intersections] is a dict whose keys are the 49 cells, filled
      with [None] at construction; every later write is guarded by
      [is_valid_position].  It is a [gmap] from cells to pawn references in
      which an absent key stands for the value [None].
    - The display colour of a player takes no part in the rules and is left
      out.
    - Of the renderer only what the input layer relies on is kept: the
      geometry of the board on the screen and the two message slots.
      Drawing is left out. *)

From Stdlib Require Import ZArith Lia.
From stdpp Require Import base decidable option list fin vector gmap.
From stdpp Require Import finite strings pretty.

Local Open Scope Z_scope.

(** ** Shared data *)

Inductive PlayerIndex : Set := Idx0 | Idx1.

#[global] Instance PlayerIndex_eq_dec : EqDecision PlayerIndex.
Proof. solve_decision. Defined.

(** [Player(1, ...)] sits at index 0 and [Player(2, ...)] at index 1. *)
Definition player_id (i : PlayerIndex) : Z :=
  match i with Idx0 => 1 | Idx1 => 2 end.

(** [(i + 1) % len(self.players)] with two players. *)
Definition next_index (i : PlayerIndex) : PlayerIndex :=
  match i with Idx0 => Idx1 | Idx1 => Idx0 end.

Record PawnRef : Set := mkPawnRef {
  ref_player : PlayerIndex;
  ref_pawn_id : fin 7
}.

#[global] Instance PawnRef_eq_dec : EqDecision PawnRef.
Proof. solve_decision. Defined.

Abbreviation Cell := (Z * Z)%type.
Abbreviation Intersections := (gmap (Z * Z) PawnRef).

(** ** board.py *)

Module Board.

Definition GRID_SIZE : Z := 7.

Definition is_valid_position (x y : Z) : bool :=
  (0 <=? x) && (x <? GRID_SIZE) && (0 <=? y) && (y <? GRID_SIZE).

Definition is_intersection_empty (b : Intersections) (x y : Z) : bool :=
  if negb (is_valid_position x y) then false
  else bool_decide (b !! (x, y) = None).

Definition get_pawn_at_intersection (b : Intersections) (x y : Z)
  : option PawnRef :=
  if negb (is_valid_position x y) then None else b !! (x, y).

Definition place_pawn (b : Intersections) (pawn : PawnRef) (x y : Z)
  : bool * Intersections :=
  if negb (is_valid_position x y) || negb (is_intersection_empty b x y)
  then (false, b)
  else (true, <[(x, y) := pawn]> b).

Definition remove_pawn (b : Intersections) (x y : Z)
  : option PawnRef * Intersections :=
  if negb (is_valid_position x y) then (None, b)
  else (b !! (x, y), delete (x, y) b).

Definition move_pawn (b : Intersections) (from_x from_y to_x to_y : Z)
  : bool * Intersections :=
  if negb (is_valid_position from_x from_y)
     || negb (is_valid_position to_x to_y)
     || bool_decide (b !! (from_x, from_y) = None)
     || negb (is_intersection_empty b to_x to_y)
  then (false, b)
  else
    match b !! (from_x, from_y) with
    | Some pawn => (true, <[(to_x, to_y) := pawn]> (delete (from_x, from_y) b))
    | None => (false, b)
    end.

Definition is_starting_position (x y : Z) (player : PlayerIndex) : bool :=
  if negb (is_valid_position x y) then false
  else if player_id player =? 1 then (y =? 6) && (1 <=? x) && (x <=? 5)
  else if player_id player =? 2 then (x =? 6) && (1 <=? y) && (y <=? 5)
  else false.

Definition is_escape_position (x y : Z) (player : PlayerIndex) : bool :=
  if negb (is_valid_position x y) then false
  else if player_id player =? 1 then (y =? 0) && (1 <=? x) && (x <=? 5)
  else if player_id player =? 2 then (x =? 0) && (1 <=? y) && (y <=? 5)
  else false.

(** Up, down, left, right, in the order of the source. *)
Definition directions : list (Z * Z) := [(0, -1); (0, 1); (-1, 0); (1, 0)].

Definition get_adjacent_intersections (x y : Z) : list Cell :=
  if negb (is_valid_position x y) then []
  else
    filter (λ c : Cell, is_valid_position c.1 c.2 = true)
           (map (λ d : Z * Z, (x + d.1, y + d.2)) directions).

Definition get_valid_moves_from_position (b : Intersections) (x y : Z)
  : list Cell :=
  filter (λ c : Cell, is_intersection_empty b c.1 c.2 = true)
         (get_adjacent_intersections x y).

(** The cells in the order of the two nested [range(self._grid_size)]
    loops. *)
Definition all_cells : list Cell :=
  x ← seqZ 0 GRID_SIZE; y ← seqZ 0 GRID_SIZE; [(x, y)].

Definition get_all_starting_positions (player : PlayerIndex) : list Cell :=
  filter (λ c : Cell, is_starting_position c.1 c.2 player = true) all_cells.

Definition get_all_escape_positions (player : PlayerIndex) : list Cell :=
  filter (λ c : Cell, is_escape_position c.1 c.2 player = true) all_cells.

Definition clear_board (b : Intersections) : Intersections :=
  foldl (λ acc c, delete c acc) b all_cells.

End Board.

(** ** pawn.py *)

Record Pawn : Set := mkPawn {
  _position : option Cell;
  _escaped : bool
}.

Module Pawn.

Definition get_position (self : Pawn) : option Cell := _position self.

Definition set_position (self : Pawn) (x y : Z) : Pawn :=
  {| _position := Some (x, y); _escaped := false |}.

Definition is_on_board (self : Pawn) : bool :=
  bool_decide (_position self ≠ None) && negb (_escaped self).

Definition escape (self : Pawn) : Pawn :=
  {| _position := None; _escaped := true |}.

Definition is_escaped (self : Pawn) : bool := _escaped self.

(** [player] is [self._player]. *)
Definition get_valid_moves (player : PlayerIndex) (self : Pawn)
    (board : Intersections) : list Cell :=
  if negb (is_on_board self) then []
  else
    match _position self with
    | None => []
    | Some (x, y) =>
        filter
          (λ c : Cell,
             ((player_id player =? 1) && (c.2 <? y))
             || ((player_id player =? 2) && (c.1 <? x)) = true)
          (Board.get_valid_moves_from_position board x y)
    end.

Definition get_adjacent_positions (self : Pawn) : list Cell :=
  if negb (is_on_board self) then []
  else
    match _position self with
    | None => []
    | Some (x, y) => Board.get_adjacent_intersections x y
    end.

Definition is_blocked (player : PlayerIndex) (self : Pawn)
    (board : Intersections) : bool :=
  (length (get_valid_moves player self board) =? 0)%nat.

Definition can_move_to (player : PlayerIndex) (self : Pawn)
    (board : Intersections) (to_x to_y : Z) : bool :=
  if negb (is_on_board self) then false
  else bool_decide ((to_x, to_y) ∈ get_valid_moves player self board).

Definition is_adjacent_to (self : Pawn) (x y : Z) : bool :=
  if negb (is_on_board self) then false
  else
    match _position self with
    | None => false
    | Some (current_x, current_y) =>
        let x_diff := Z.abs (current_x - x) in
        let y_diff := Z.abs (current_y - y) in
        ((x_diff =? 1) && (y_diff =? 0)) || ((x_diff =? 0) && (y_diff =? 1))
    end.

Definition would_escape_at (player : PlayerIndex) (x y : Z) : bool :=
  Board.is_escape_position x y player.

(** Returns the success flag with the new pawn and the new board. *)
Definition move_to (player : PlayerIndex) (self : Pawn)
    (board : Intersections) (to_x to_y : Z) : bool * Pawn * Intersections :=
  if negb (can_move_to player self board to_x to_y) then (false, self, board)
  else
    match _position self with
    | None => (false, self, board)
    | Some (current_x, current_y) =>
        match Board.move_pawn board current_x current_y to_x to_y with
        | (true, board1) =>
            let self1 := set_position self to_x to_y in
            if Board.is_escape_position to_x to_y player
            then (true, escape self1, (Board.remove_pawn board1 to_x to_y).2)
            else (true, self1, board1)
        | (false, _) => (false, self, board)
        end
    end.

End Pawn.

(** ** player.py *)

Record Player : Set := mkPlayer {
  _pawns : vec Pawn 7
}.

(** Truth value of a Python list: a list is true when it is not empty. *)
Definition truthy {A} (l : list A) : bool :=
  match l with [] => false | _ :: _ => true end.

Module Player.

Definition get_pawns (self : Player) : list Pawn := vec_to_list (_pawns self).

Definition get_pawns_on_board (self : Player) : list Pawn :=
  filter (λ pawn, Pawn.is_on_board pawn = true) (get_pawns self).

Definition get_escaped_pawns (self : Player) : list Pawn :=
  filter (λ pawn, Pawn.is_escaped pawn = true) (get_pawns self).

Definition get_unplaced_pawns (self : Player) : list Pawn :=
  filter
    (λ pawn, negb (Pawn.is_on_board pawn) && negb (Pawn.is_escaped pawn) = true)
    (get_pawns self).

Definition has_won (self : Player) : bool :=
  (length (get_escaped_pawns self) =? 7)%nat.

(** [me] is the index of [self] in [GameState.players]; it gives
    [pawn._player.player_id] for the pawns of the roster. *)
Definition can_move_any_pawn (me : PlayerIndex) (self : Player)
    (board : Intersections) : bool :=
  existsb (λ pawn, truthy (Pawn.get_valid_moves me pawn board))
          (get_pawns_on_board self).

Definition get_pawn_at_position (self : Player) (x y : Z) : option Pawn :=
  List.find (λ pawn, bool_decide (Pawn.get_position pawn = Some (x, y)))
            (get_pawns_on_board self).

End Player.

(** ** game_state.py *)

Inductive Phase : Set := PLAYING | GAME_OVER.

#[global] Instance Phase_eq_dec : EqDecision Phase.
Proof. solve_decision. Defined.

Record GameState : Type := mkGameState {
  players_0 : Player;                     (* self.players[0], player_id 1 *)
  players_1 : Player;                     (* self.players[1], player_id 2 *)
  board : Intersections;
  phase : Phase;
  current_player_index : PlayerIndex;
  selected_pawn : option PawnRef;
  winner : option PlayerIndex;
  turn_skipped : bool;
  skipped_player_id : option Z;
  stalemate : bool
}.

Module GameState.

(** *** Field access and assignment *)

Definition players (self : GameState) (i : PlayerIndex) : Player :=
  match i with Idx0 => players_0 self | Idx1 => players_1 self end.

Definition set_player (i : PlayerIndex) (p : Player) (self : GameState)
  : GameState :=
  match i with
  | Idx0 =>
      mkGameState p (players_1 self) (board self) (phase self)
        (current_player_index self) (selected_pawn self) (winner self)
        (turn_skipped self) (skipped_player_id self) (stalemate self)
  | Idx1 =>
      mkGameState (players_0 self) p (board self) (phase self)
        (current_player_index self) (selected_pawn self) (winner self)
        (turn_skipped self) (skipped_player_id self) (stalemate self)
  end.

Definition set_board (b : Intersections) (self : GameState) : GameState :=
  mkGameState (players_0 self) (players_1 self) b (phase self)
    (current_player_index self) (selected_pawn self) (winner self)
    (turn_skipped self) (skipped_player_id self) (stalemate self).

Definition set_phase (ph : Phase) (self : GameState) : GameState :=
  mkGameState (players_0 self) (players_1 self) (board self) ph
    (current_player_index self) (selected_pawn self) (winner self)
    (turn_skipped self) (skipped_player_id self) (stalemate self).

Definition set_current_player_index (i : PlayerIndex) (self : GameState)
  : GameState :=
  mkGameState (players_0 self) (players_1 self) (board self) (phase self)
    i (selected_pawn self) (winner self)
    (turn_skipped self) (skipped_player_id self) (stalemate self).

Definition set_selected_pawn (r : option PawnRef) (self : GameState)
  : GameState :=
  mkGameState (players_0 self) (players_1 self) (board self) (phase self)
    (current_player_index self) r (winner self)
    (turn_skipped self) (skipped_player_id self) (stalemate self).

Definition set_winner (w : option PlayerIndex) (self : GameState)
  : GameState :=
  mkGameState (players_0 self) (players_1 self) (board self) (phase self)
    (current_player_index self) (selected_pawn self) w
    (turn_skipped self) (skipped_player_id self) (stalemate self).

Definition set_turn_skipped (f : bool) (self : GameState) : GameState :=
  mkGameState (players_0 self) (players_1 self) (board self) (phase self)
    (current_player_index self) (selected_pawn self) (winner self)
    f (skipped_player_id self) (stalemate self).

Definition set_skipped_player_id (i : option Z) (self : GameState)
  : GameState :=
  mkGameState (players_0 self) (players_1 self) (board self) (phase self)
    (current_player_index self) (selected_pawn self) (winner self)
    (turn_skipped self) i (stalemate self).

Definition set_stalemate (f : bool) (self : GameState) : GameState :=
  mkGameState (players_0 self) (players_1 self) (board self) (phase self)
    (current_player_index self) (selected_pawn self) (winner self)
    (turn_skipped self) (skipped_player_id self) f.

(** The pawn object behind a reference, and assignment to it. *)
Definition get_pawn (self : GameState) (r : PawnRef) : Pawn :=
  _pawns (players self (ref_player r)) !!! ref_pawn_id r.

Definition set_pawn (r : PawnRef) (p : Pawn) (self : GameState) : GameState :=
  set_player (ref_player r)
    (mkPlayer (vinsert (ref_pawn_id r) p (_pawns (players self (ref_player r)))))
    self.

(** *** [__init__] *)

Definition new_player : Player :=
  mkPlayer (vreplicate 7 (mkPawn None false)).

Definition init : GameState :=
  mkGameState new_player new_player ∅ PLAYING Idx0 None None false None false.

(** *** Queries *)

Definition len_players : nat := 2.

Definition get_current_player (self : GameState) : PlayerIndex :=
  current_player_index self.

Definition get_other_player (self : GameState) : PlayerIndex :=
  next_index (current_player_index self).

Definition is_setup_phase (self : GameState) : bool := false.

Definition is_movement_phase (self : GameState) : bool :=
  bool_decide (phase self = PLAYING).

Definition is_game_over (self : GameState) : bool :=
  bool_decide (phase self = GAME_OVER).

Definition check_victory (self : GameState) : option PlayerIndex :=
  if Player.has_won (players self Idx0) then Some Idx0
  else if Player.has_won (players self Idx1) then Some Idx1
  else None.

Definition can_player_move (self : GameState) (player : PlayerIndex) : bool :=
  Player.can_move_any_pawn player (players self player) (board self).

Definition is_setup_complete (self : GameState) : bool :=
  forallb
    (λ i, negb (0 <? length (Player.get_unplaced_pawns (players self i)))%nat)
    [Idx0; Idx1].

Definition get_winner (self : GameState) : option PlayerIndex := winner self.

(** [transition_to_playing_phase] reads [self.SETUP], an attribute the
    class does not define, so a call raises; no entry point calls it and
    it is left out. *)

(** *** [switch_turn] *)

Inductive ScanExit : Set :=
| ScanBreak     (* [break]: the current player can move *)
| ScanReturn    (* [return False, None] from inside the loop *)
| ScanEnd.      (* the loop condition became false *)

(** The [while players_checked < len(self.players)] loop.  Every
    iteration that comes back to the loop test has increased
    [players_checked], so [len(self.players) - players_checked]
    iterations are enough; [fuel] bounds their number
    (see [skip_scan_fuel]). *)
Fixpoint skip_scan (fuel : nat) (players_checked : nat)
    (checked_players : gset Z) (self : GameState)
  : ScanExit * nat * GameState :=
  match fuel with
  | O => (ScanEnd, players_checked, self)
  | S fuel' =>
      if (players_checked <? len_players)%nat then
        let current_player := get_current_player self in
        let current_id := player_id current_player in
        if bool_decide (current_id ∈ checked_players) then
          (ScanReturn, players_checked,
           set_phase GAME_OVER (set_stalemate true self))
        else
          let checked_players := checked_players ∪ {[current_id]} in
          if can_player_move self current_player then
            (ScanBreak, players_checked, self)
          else
            let self := set_turn_skipped true self in
            let self := set_skipped_player_id (Some current_id) self in
            let self :=
              set_current_player_index
                (next_index (current_player_index self)) self in
            skip_scan fuel' (S players_checked) checked_players self
      else (ScanEnd, players_checked, self)
  end.

Definition switch_turn (self : GameState)
  : (bool * option Z) * GameState :=
  match phase self with
  | GAME_OVER => ((false, None), self)
  | PLAYING =>
      let self := set_turn_skipped false self in
      let self := set_skipped_player_id None self in
      let self := set_selected_pawn None self in
      match check_victory self with
      | Some w =>
          ((false, None), set_phase GAME_OVER (set_winner (Some w) self))
      | None =>
          let self :=
            set_current_player_index
              (next_index (current_player_index self)) self in
          match phase self with
          | PLAYING =>
              match skip_scan len_players 0 ∅ self with
              | (ScanReturn, _, self) => ((false, None), self)
              | (_, players_checked, self) =>
                  if (len_players <=? players_checked)%nat then
                    ((false, None),
                     set_phase GAME_OVER (set_stalemate true self))
                  else ((turn_skipped self, skipped_player_id self), self)
              end
          | GAME_OVER =>
              ((turn_skipped self, skipped_player_id self), self)
          end
      end
  end.

(** *** [reset_game] *)

Definition reset_player (p : Player) : Player :=
  mkPlayer (vmap (λ _ : Pawn, mkPawn None false) (_pawns p)).

Definition reset_game (self : GameState) : GameState :=
  mkGameState
    (reset_player (players_0 self)) (reset_player (players_1 self))
    (Board.clear_board (board self))
    PLAYING Idx0 None None false None false.

(** *** The three actions *)

(** The lines that end [place_pawn], [move_pawn] and [escape_pawn] alike:
    [self.current_player_index = (self.current_player_index + 1) %
    len(self.players)], then [winner = self.check_victory()] and, if there
    is one, [self.winner = winner; self.phase = self.GAME_OVER]. *)
Definition flip_and_check (self : GameState) : GameState :=
  let self :=
    set_current_player_index (next_index (current_player_index self)) self in
  match check_victory self with
  | Some w => set_phase GAME_OVER (set_winner (Some w) self)
  | None => self
  end.

Definition place_pawn (self : GameState) (pawn : PawnRef) (x y : Z)
  : bool * GameState :=
  let current_player := get_current_player self in
  if bool_decide (ref_player pawn ≠ current_player) then (false, self)
  else if negb (Board.is_starting_position x y (ref_player pawn))
  then (false, self)
  else
    match Board.place_pawn (board self) pawn x y with
    | (true, b) =>
        let self := set_board b self in
        let self :=
          set_pawn pawn (Pawn.set_position (get_pawn self pawn) x y) self in
        (true, flip_and_check self)
    | (false, _) => (false, self)
    end.

Definition move_pawn (self : GameState) (pawn : PawnRef) (to_x to_y : Z)
  : bool * GameState :=
  if bool_decide (phase self ≠ PLAYING) then (false, self)
  else if bool_decide (ref_player pawn ≠ get_current_player self)
  then (false, self)
  else
    match Pawn.get_position (get_pawn self pawn) with
    | None => (false, self)
    | Some (from_x, from_y) =>
        let valid_moves :=
          Pawn.get_valid_moves (ref_player pawn) (get_pawn self pawn)
            (board self) in
        if bool_decide ((to_x, to_y) ∉ valid_moves) then (false, self)
        else
          match Board.move_pawn (board self) from_x from_y to_x to_y with
          | (true, b) =>
              let self := set_board b self in
              let self :=
                set_pawn pawn
                  (Pawn.set_position (get_pawn self pawn) to_x to_y) self in
              (true, flip_and_check self)
          | (false, _) => (false, self)
          end
    end.

Definition escape_pawn (self : GameState) (pawn : PawnRef)
  : bool * GameState :=
  if bool_decide (phase self ≠ PLAYING) then (false, self)
  else if bool_decide (ref_player pawn ≠ get_current_player self)
  then (false, self)
  else
    match Pawn.get_position (get_pawn self pawn) with
    | None => (false, self)
    | Some (x, y) =>
        if negb (Board.is_escape_position x y (ref_player pawn))
        then (false, self)
        else
          let self := set_board (Board.remove_pawn (board self) x y).2 self in
          let self := set_pawn pawn (Pawn.escape (get_pawn self pawn)) self in
          (true, flip_and_check self)
    end.

End GameState.

(** ** Driving the engine *)

(** The mutating entry points of [GameState], as the input layer calls
    them. *)
Inductive Call : Set :=
| CallPlace (pawn : PawnRef) (x y : Z)     (* place_pawn(pawn, x, y) *)
| CallMove (pawn : PawnRef) (x y : Z)      (* move_pawn(pawn, x, y) *)
| CallEscape (pawn : PawnRef)              (* escape_pawn(pawn) *)
| CallSwitchTurn                           (* switch_turn() *)
| CallReset.                               (* reset_game() *)

(** The state after a call; the returned flag is dropped. *)
Definition call (s : GameState) (c : Call) : GameState :=
  match c with
  | CallPlace pawn x y => (GameState.place_pawn s pawn x y).2
  | CallMove pawn x y => (GameState.move_pawn s pawn x y).2
  | CallEscape pawn => (GameState.escape_pawn s pawn).2
  | CallSwitchTurn => (GameState.switch_turn s).2
  | CallReset => GameState.reset_game s
  end.

Definition run (s : GameState) (cs : list Call) : GameState := foldl call s cs.

(** The states of a game that started fresh. *)
Definition reachable (s : GameState) : Prop := ∃ cs, s = run GameState.init cs.

(** ** rendering/renderer.py: geometry and message slots *)

(** Of the renderer, the input layer uses the window and board geometry,
    the conversion between pixels and grid cells, and the two message
    slots.  [show_error_message] and [show_notification] also store
    [time.time()], which only the drawing code reads; the time stamps are
    left out. *)
Record Renderer : Set := mkRenderer {
  error_message : option string;
  notification_message : option string
}.

Module Renderer.

Definition WINDOW_WIDTH : Z := 800.
Definition WINDOW_HEIGHT : Z := 600.
Definition BOARD_SIZE : Z := 400.
Definition GRID_LINES : Z := 7.
Definition PAWN_RADIUS : Z := 15.

(** [__init__]: [//] is [Z.div] (both round down). *)
Definition board_x : Z := (WINDOW_WIDTH - BOARD_SIZE) / 2.
Definition board_y : Z := (WINDOW_HEIGHT - BOARD_SIZE) / 2.
Definition cell_size : Z := BOARD_SIZE / (GRID_LINES - 1).

Definition init : Renderer := mkRenderer None None.

(** [round(n / d)] for integers [n] and [d > 0]: Python's [/] gives the
    float nearest to the quotient and [round] takes it to the nearest
    integer, a tie to the even one.  [pixel_to_grid_position] uses it with
    [d = 66] and [-15 <= n <= 415]: there a quotient that is no tie is at
    least [1/66] away from one, far more than the float's error, and a tie
    [k + 1/2] is a float, so rounding the float is rounding the
    quotient. *)
Definition round_div (n d : Z) : Z :=
  let q := n / d in
  let r := n mod d in
  if 2 * r <? d then q
  else if d <? 2 * r then q + 1
  else if Z.even q then q else q + 1.

Definition pixel_to_grid_position (pixel_pos : Z * Z) : option Cell :=
  let '(x, y) := pixel_pos in
  if (x <? board_x - PAWN_RADIUS)
     || (board_x + BOARD_SIZE + PAWN_RADIUS <? x)
     || (y <? board_y - PAWN_RADIUS)
     || (board_y + BOARD_SIZE + PAWN_RADIUS <? y)
  then None
  else
    let grid_x := round_div (x - board_x) cell_size in
    let grid_y := round_div (y - board_y) cell_size in
    if (0 <=? grid_x) && (grid_x <? 7) && (0 <=? grid_y) && (grid_y <? 7)
    then Some (grid_x, grid_y)
    else None.

Definition grid_to_pixel_position (grid_x grid_y : Z) : Z * Z :=
  (board_x + grid_x * cell_size, board_y + grid_y * cell_size).

Definition show_error_message (self : Renderer) (message : string)
  : Renderer :=
  mkRenderer (Some message) (notification_message self).

Definition show_notification (self : Renderer) (message : string)
  : Renderer :=
  mkRenderer (error_message self) (Some message).

End Renderer.

(** ** input/input_handler.py *)

Module InputHandler.

Import GameState.

(** [player.get_pawn_at_position(x, y)] as the object it returns: the
    first pawn of the roster that is on the board with position [(x, y)]
    (see [get_pawn_at_position_ref]). *)
Definition get_pawn_at_position (game_state : GameState)
    (player : PlayerIndex) (x y : Z) : option PawnRef :=
  mkPawnRef player <$>
    List.find
      (λ k, let pawn := _pawns (players game_state player) !!! k in
            Pawn.is_on_board pawn
            && bool_decide (Pawn.get_position pawn = Some (x, y)))
      (fin_enum 7).

(** [player.get_unplaced_pawns()[0]] as an object, [None] when the list
    is empty (see [first_unplaced_pawn_ref]). *)
Definition first_unplaced_pawn (game_state : GameState)
    (player : PlayerIndex) : option PawnRef :=
  mkPawnRef player <$>
    List.find
      (λ k, let pawn := _pawns (players game_state player) !!! k in
            negb (Pawn.is_on_board pawn) && negb (Pawn.is_escaped pawn))
      (fin_enum 7).

(** [f"Player {player.player_id}"]. *)
Definition player_label (player : PlayerIndex) : string :=
  "Player " +:+ pretty (player_id player).

(** Lines 291-298 and 314-321: the pawn is selected and the notification
    tells whether it stands on an escape cell of the current player. *)
Definition select_pawn (renderer : Renderer) (game_state : GameState)
    (current_player : PlayerIndex) (pawn_at_pos : PawnRef)
  : GameState * Renderer :=
  let game_state := set_selected_pawn (Some pawn_at_pos) game_state in
  let at_exit :=
    match Pawn.get_position (get_pawn game_state pawn_at_pos) with
    | Some (px, py) => Board.is_escape_position px py current_player
    | None => false
    end in
  if at_exit
  then (game_state,
        Renderer.show_notification renderer
          "Selected pawn at exit point. Click again to escape.")
  else (game_state,
        Renderer.show_notification renderer
          ("Selected " +:+ player_label current_player +:+ "'s pawn")).

(** Lines 264-305: with the pawn [sel] selected, the click is tried as a
    move of that pawn, then as the selection of another pawn of the
    current player, and otherwise deselects. *)
Definition move_or_reselect (renderer : Renderer) (x y : Z)
    (game_state : GameState) (current_player : PlayerIndex) (sel : PawnRef)
  : bool * GameState * Renderer :=
  let valid_moves :=
    Pawn.get_valid_moves (ref_player sel) (get_pawn game_state sel)
      (board game_state) in
  if bool_decide ((x, y) ∈ valid_moves) then
    match move_pawn game_state sel x y with
    | (true, game_state) =>
        let game_state := set_selected_pawn None game_state in
        let renderer := Renderer.show_notification renderer "Pawn moved" in
        let renderer :=
          if Board.is_escape_position x y current_player
          then Renderer.show_notification renderer
                 "Pawn at exit point! Click again to escape."
          else renderer in
        let next_player := get_current_player game_state in
        (true, game_state,
         Renderer.show_notification renderer
           (player_label next_player +:+ "'s turn"))
    | (false, game_state) => (false, game_state, renderer)
    end
  else
    match get_pawn_at_position game_state current_player x y with
    | Some pawn_at_pos =>
        let '(game_state, renderer) :=
          select_pawn renderer game_state current_player pawn_at_pos in
        (true, game_state, renderer)
    | None =>
        (true, set_selected_pawn None game_state,
         Renderer.show_notification renderer "Pawn deselected")
    end.

(** Lines 308-355: nothing is selected; the click selects a pawn of the
    current player, or places that player's first unplaced pawn. *)
Definition select_or_place (renderer : Renderer) (x y : Z)
    (game_state : GameState) (current_player : PlayerIndex)
  : bool * GameState * Renderer :=
  match get_pawn_at_position game_state current_player x y with
  | Some pawn_at_pos =>
      let '(game_state, renderer) :=
        select_pawn renderer game_state current_player pawn_at_pos in
      (true, game_state, renderer)
  | None =>
      if Board.is_starting_position x y current_player then
        if Board.is_intersection_empty (board game_state) x y then
          match first_unplaced_pawn game_state current_player with
          | Some pawn =>
              match place_pawn game_state pawn x y with
              | (true, game_state) =>
                  let next_player := get_current_player game_state in
                  (true, game_state,
                   Renderer.show_notification renderer
                     ("Pawn placed. " +:+ player_label next_player
                      +:+ "'s turn"))
              | (false, game_state) => (false, game_state, renderer)
              end
          | None =>
              (false, game_state,
               Renderer.show_error_message renderer "No pawns left to place")
          end
        else
          (false, game_state,
           Renderer.show_error_message renderer "Position already occupied")
      else
        let opponent := get_other_player game_state in
        match get_pawn_at_position game_state opponent x y with
        | Some _ =>
            (false, game_state,
             Renderer.show_error_message renderer
               ("That's " +:+ player_label opponent +:+ "'s pawn"))
        | None =>
            (false, game_state,
             Renderer.show_error_message renderer
               ("Invalid position - " +:+ player_label current_player
                +:+ " must place pawns on their starting row"))
        end
  end.

(** [self.renderer] is the renderer that [handle_click] was given.
    Returns the flag with the new game state and the new renderer. *)
Definition _handle_game_click (renderer : Renderer) (x y : Z)
    (game_state : GameState) : bool * GameState * Renderer :=
  let current_player := get_current_player game_state in
  match selected_pawn game_state with
  | Some sel =>
      match Pawn.get_position (get_pawn game_state sel) with
      | Some (current_x, current_y) =>
          if Board.is_escape_position current_x current_y current_player
             && (x =? current_x) && (y =? current_y)
          then
            match escape_pawn game_state sel with
            | (true, game_state) =>
                let game_state := set_selected_pawn None game_state in
                let renderer :=
                  Renderer.show_notification renderer "Pawn escaped!" in
                let next_player := get_current_player game_state in
                (true, game_state,
                 Renderer.show_notification renderer
                   (player_label next_player +:+ "'s turn"))
            | (false, game_state) =>
                move_or_reselect renderer x y game_state current_player sel
            end
          else move_or_reselect renderer x y game_state current_player sel
      | None => (false, game_state, renderer)
      end
  | None => select_or_place renderer x y game_state current_player
  end.

Definition handle_click (pos : Z * Z) (game_state : GameState)
    (renderer : Renderer) : bool * GameState * Renderer :=
  let grid_pos := Renderer.pixel_to_grid_position pos in
  if is_game_over game_state then
    let center_x := Renderer.WINDOW_WIDTH / 2 in
    let center_y := Renderer.WINDOW_HEIGHT / 2 in
    let restart_area_size := 100 in
    if (Z.abs (pos.1 - center_x) <? restart_area_size)
       && (Z.abs (pos.2 - (center_y + 40)) <? 20)
    then (true, reset_game game_state,
          Renderer.show_notification renderer "Game restarted")
    else (false, game_state,
          Renderer.show_notification renderer
            "Game is over. Press R to restart.")
  else
    match grid_pos with
    | None => (false, set_selected_pawn None game_state, renderer)
    | Some (x, y) => _handle_game_click renderer x y game_state
    end.

End InputHandler.

(** ** main.py: the event loop *)

(** The events the loop of [main] acts on: a press of the left mouse
    button at a pixel, the key R and the key ESC.  ([QUIT] ends the loop;
    other events are ignored.) *)
Inductive Event : Set :=
| LeftClick (pos : Z * Z)
| KeyR
| KeyEscape.

Definition handle_event (game_state : GameState) (renderer : Renderer)
    (event : Event) : GameState * Renderer :=
  match event with
  | LeftClick pos =>
      let '(_, game_state, renderer) :=
        InputHandler.handle_click pos game_state renderer in
      (game_state, renderer)
  | KeyR =>
      (GameState.reset_game game_state,
       Renderer.show_notification renderer "Game restarted")
  | KeyEscape =>
      match selected_pawn game_state with
      | Some _ =>
          (GameState.set_selected_pawn None game_state,
           Renderer.show_notification renderer "Pawn deselected")
      | None => (game_state, renderer)
      end
  end.

(** The game states of a session of [main]: it starts from [GameState()]
    and handles one event after the other.  Between two events the loop
    draws; drawing reads the game state and lets the messages of the
    renderer expire, so each event meets the game state the previous one
    left and some renderer. *)
Inductive session : GameState → Prop :=
| session_start : session GameState.init
| session_event s renderer event :
    session s → session (handle_event s renderer event).1.

(** ** Notions used by the statements *)

(** The pawn [r] stands on the board at the cell [c]. *)
Definition stands_at (s : GameState) (r : PawnRef) (c : Cell) : Prop :=
  Pawn.is_on_board (GameState.get_pawn s r) = true
  ∧ Pawn.get_position (GameState.get_pawn s r) = Some c.

(** Board occupancy and pawn positions agree: a cell holds a pawn exactly
    when that pawn is on the board with this cell as its position.  Since
    a cell holds one reference, no two pawns share a cell. *)
Definition board_matches_pawns (s : GameState) : Prop :=
  ∀ c r, board s !! c = Some r ↔ stands_at s r c.

(** No player has a pawn on the board. *)
Definition no_pawn_on_board (s : GameState) : Prop :=
  ∀ i, Player.get_pawns_on_board (GameState.players s i) = [].

(** [p] is the one player whose seven pawns have all escaped. *)
Definition only_winner (s : GameState) (p : PlayerIndex) : Prop :=
  Player.has_won (GameState.players s p) = true
  ∧ Player.has_won (GameState.players s (next_index p)) = false.

(** A roster of seven pawns, each with the escaped flag set. *)
Definition escaped_player : Player := mkPlayer (vreplicate 7 (mkPawn None true)).

(** A pawn that escaped has no position: [escape] clears it and
    [set_position] clears the flag. *)
Definition pawn_states_ok (s : GameState) : Prop :=
  ∀ r, _escaped (GameState.get_pawn s r) = true →
       _position (GameState.get_pawn s r) = None.

(** The board holds pawns at cells of the grid only. *)
Definition board_keys_valid (s : GameState) : Prop :=
  ∀ c r, board s !! c = Some r → Board.is_valid_position c.1 c.2 = true.

Definition consistent (s : GameState) : Prop :=
  board_matches_pawns s ∧ pawn_states_ok s ∧ board_keys_valid s.

(** A call that does not place a pawn which is on the board already; the
    input layer only ever places [get_unplaced_pawns()[0]]. *)
Definition disciplined (s : GameState) (c : Call) : Prop :=
  match c with
  | CallPlace pawn _ _ =>
      Pawn.is_on_board (GameState.get_pawn s pawn) = false
  | _ => True
  end.

Fixpoint disciplined_script (s : GameState) (cs : list Call) : Prop :=
  match cs with
  | [] => True
  | c :: cs => disciplined s c ∧ disciplined_script (call s c) cs
  end.

(** While the game is on, no victory is pending and no winner is set. *)
Definition no_victory_pending (s : GameState) : Prop :=
  phase s = PLAYING → GameState.check_victory s = None ∧ winner s = None.

(** The cells a pawn of the player can ever stand on: player 1 keeps the
    column it entered on, player 2 the row. *)
Definition in_lane (p : PlayerIndex) (c : Cell) : Prop :=
  Board.is_valid_position c.1 c.2 = true
  ∧ match p with Idx0 => 1 ≤ c.1 ≤ 5 | Idx1 => 1 ≤ c.2 ≤ 5 end.

Definition pawns_in_lane (s : GameState) : Prop :=
  ∀ r c, Pawn.get_position (GameState.get_pawn s r) = Some c →
         in_lane (ref_player r) c.

(** The stalemate flag is only set together with the phase [GAME_OVER]. *)
Definition flags_need_game_over (s : GameState) : Prop :=
  phase s = PLAYING → stalemate s = false.

Definition tidy (s : GameState) : Prop :=
  pawn_states_ok s ∧ board_keys_valid s ∧ pawns_in_lane s
  ∧ flags_need_game_over s.

(** What every game state of a session satisfies, the selection apart:
    board and pawns agree, no skip and no stalemate is recorded, and a game
    that is over has a winner with seven escaped pawns. *)
Definition session_base (s : GameState) : Prop :=
  consistent s
  ∧ turn_skipped s = false ∧ skipped_player_id s = None ∧ stalemate s = false
  ∧ (phase s = GAME_OVER →
     ∃ w, winner s = Some w
          ∧ Player.has_won (GameState.players s w) = true).

(** The selected pawn, if any, is a pawn of the player to act that stands
    on the board, and the game is on. *)
Definition selection_ok (s : GameState) : Prop :=
  ∀ r, selected_pawn s = Some r →
       phase s = PLAYING
       ∧ ref_player r = current_player_index s
       ∧ Pawn.is_on_board (GameState.get_pawn s r) = true.

Definition session_ok (s : GameState) : Prop := session_base s ∧ selection_ok s.

(** What keeps the player to act from acting: no pawn of theirs can move,
    none stands on one of their escape cells, and none can be placed,
    for want of an unplaced pawn or of an empty starting cell. *)
Definition cannot_act (s : GameState) : Prop :=
  let me := current_player_index s in
  GameState.can_player_move s me = false
  ∧ (∀ r x y, ref_player r = me → stands_at s r (x, y) →
              Board.is_escape_position x y me = false)
  ∧ (Player.get_unplaced_pawns (GameState.players s me) = []
     ∨ ∀ x y, Board.is_starting_position x y me = true →
              Board.is_intersection_empty (board s) x y = false).

(** ** States and scripts used as examples *)

Definition unplaced_pawn : Pawn := mkPawn None false.
Definition escaped_pawn : Pawn := mkPawn None true.
Definition pawn_at (x y : Z) : Pawn := mkPawn (Some (x, y)) false.

Definition pawn_a : PawnRef := mkPawnRef Idx0 0%fin.   (* players[0]._pawns[0] *)
Definition pawn_g : PawnRef := mkPawnRef Idx0 6%fin.   (* players[0]._pawns[6] *)
Definition pawn_b : PawnRef := mkPawnRef Idx1 0%fin.   (* players[1]._pawns[0] *)
Definition pawn_c : PawnRef := mkPawnRef Idx1 1%fin.   (* players[1]._pawns[1] *)

(** A pawn of player 1 at (0,1) behind a pawn of player 2 in the corner
    (0,0): neither can advance, and neither stands on an escape cell of
    its owner. *)
Definition corner_block : GameState :=
  mkGameState
    (mkPlayer [# pawn_at 0 1; unplaced_pawn; unplaced_pawn; unplaced_pawn;
                 unplaced_pawn; unplaced_pawn; unplaced_pawn])
    (mkPlayer [# pawn_at 0 0; unplaced_pawn; unplaced_pawn; unplaced_pawn;
                 unplaced_pawn; unplaced_pawn; unplaced_pawn])
    (<[(0, 1) := pawn_a]> (<[(0, 0) := pawn_b]> ∅))
    PLAYING Idx0 None None false None false.

Definition corner_block_over : GameState :=
  GameState.set_phase GAME_OVER corner_block.

(** A game state built directly, as the victory tests do with
    [pawn.escape()]: the seven pawns of player 1 are marked escaped,
    player 2 is to act and has a pawn at (3,3). *)
Definition pending_win_other_turn : GameState :=
  mkGameState escaped_player
    (mkPlayer [# pawn_at 3 3; unplaced_pawn; unplaced_pawn; unplaced_pawn;
                 unplaced_pawn; unplaced_pawn; unplaced_pawn])
    (<[(3, 3) := pawn_b]> ∅)
    PLAYING Idx1 None None false None false.

(** Both players enter one pawn and advance it, turn by turn, until the
    pawn of player 1 is at (1,2) and the pawn of player 2 at (2,1). *)
Definition approach : list Call :=
  [CallPlace pawn_a 1 6; CallPlace pawn_b 6 1;
   CallMove pawn_a 1 5; CallMove pawn_b 5 1;
   CallMove pawn_a 1 4; CallMove pawn_b 4 1;
   CallMove pawn_a 1 3; CallMove pawn_b 3 1;
   CallMove pawn_a 1 2; CallMove pawn_b 2 1].

Definition before_block : GameState := run GameState.init approach.

(** Player 1 steps to (1,1), in front of the pawn of player 2; player 2
    enters a second pawn; player 1 is to act, one step from (1,0). *)
Definition before_exit : GameState :=
  run before_block [CallMove pawn_a 1 1; CallPlace pawn_c 6 2].

(** Both players enter one pawn, in column 5 and in row 1, and advance
    them without meeting; at the end the pawn of player 1 stands on its
    escape row at (5,0), the pawn of player 2 at (1,1), and player 2 is to
    act. *)
Definition race : list Call :=
  [CallPlace pawn_a 5 6; CallPlace pawn_b 6 1;
   CallMove pawn_a 5 5; CallMove pawn_b 5 1;
   CallMove pawn_a 5 4; CallMove pawn_b 4 1;
   CallMove pawn_a 5 3; CallMove pawn_b 3 1;
   CallMove pawn_a 5 2; CallMove pawn_b 2 1;
   CallMove pawn_a 5 1; CallMove pawn_b 1 1;
   CallMove pawn_a 5 0].

Definition before_standstill : GameState := run GameState.init race.

(** The pawns in slot [k] of both rosters make their way across the
    board, turn by turn: the pawn of player 1 enters at (1,6), goes up
    column 1 and escapes from (1,0); the pawn of player 2 enters at (6,2),
    goes along row 2 and escapes from (0,2). *)
Definition lap (k : fin 7) : list Call :=
  let a := mkPawnRef Idx0 k in
  let b := mkPawnRef Idx1 k in
  [CallPlace a 1 6; CallPlace b 6 2;
   CallMove a 1 5; CallMove b 5 2;
   CallMove a 1 4; CallMove b 4 2;
   CallMove a 1 3; CallMove b 3 2;
   CallMove a 1 2; CallMove b 2 2;
   CallMove a 1 1; CallMove b 1 2;
   CallMove a 1 0; CallMove b 0 2;
   CallEscape a; CallEscape b].

(** The laps of the slots 0 to 5, then the lap of slot 6 up to the two
    escapes: 110 calls, after which player 1 is to act with six pawns
    escaped and the seventh on its escape cell (1,0). *)
Definition last_exit_script : list Call :=
  concat (lap <$> take 6 (fin_enum 7)) ++ take 14 (lap 6%fin).

Definition before_last_exit : GameState := run GameState.init last_exit_script.

(** The game state and the renderer after a list of events, from
    [GameState()] and a new renderer. *)
Definition play (events : list Event) : GameState * Renderer :=
  foldl (λ st event, handle_event st.1 st.2 event)
        (GameState.init, Renderer.init) events.

(** A left click on the pixel of the intersection [(x, y)]. *)
Definition click_cell (x y : Z) : Event :=
  LeftClick (Renderer.grid_to_pixel_position x y).

(** Two clicks: on the pawn at [(x, y)], then on [(x', y')]. *)
Definition click_from_to (x y x' y' : Z) : list Event :=
  [click_cell x y; click_cell x' y'].

(** Both players enter a pawn and player 1 selects its own, at (1,6). *)
Definition first_selection : GameState :=
  (play [click_cell 1 6; click_cell 6 1; click_cell 1 6]).1.

(** Ten turns of each player and one more of player 1.  Player 1 enters
    pawns at (1,6) and (2,6) and takes two pawns up column 5; player 2
    takes one pawn along row 1 to its escape cell (0,1) and another along
    row 2 to (4,2).  Player 2 is to act. *)
Definition opening : list Event :=
  (* turns 1 and 2 *)
  [click_cell 1 6; click_cell 6 1; click_cell 2 6]
  ++ click_from_to 6 1 5 1
  (* turn 3 *)
  ++ [click_cell 5 6; click_cell 6 2]
  (* turn 4 *)
  ++ click_from_to 5 6 5 5 ++ click_from_to 6 2 5 2
  (* turn 5 *)
  ++ click_from_to 5 5 5 4 ++ click_from_to 5 1 4 1
  (* turn 6 *)
  ++ click_from_to 5 4 5 3 ++ click_from_to 5 2 4 2
  (* turn 7 *)
  ++ click_from_to 5 3 5 2 ++ click_from_to 4 1 3 1
  (* turn 8 *)
  ++ click_from_to 5 2 5 1 ++ click_from_to 3 1 2 1
  (* turn 9 *)
  ++ [click_cell 5 6] ++ click_from_to 2 1 1 1
  (* turn 10 *)
  ++ click_from_to 5 6 5 5 ++ click_from_to 1 1 0 1
  (* turn 11, player 1 *)
  ++ click_from_to 5 5 5 4.

(** After the opening player 2 selects its pawn on the escape cell
    (0,1). *)
Definition exit_selection : GameState :=
  (play (opening ++ [click_cell 0 1])).1.

(** A session that ends with player 2 to act and unable to: two of its
    pawns went along the rows 1 and 2 and escaped, the other five stand on
    its starting cells, each behind a pawn of player 1 in column 5. *)
Definition standstill_session : list Event :=
  opening
  (* turn 11, player 2 *)
  ++ click_from_to 0 1 0 1
  (* turn 12 *)
  ++ click_from_to 5 4 5 3 ++ click_from_to 4 2 3 2
  (* turn 13 *)
  ++ click_from_to 5 3 5 2 ++ click_from_to 3 2 2 2
  (* turn 14 *)
  ++ [click_cell 5 6] ++ click_from_to 2 2 1 2
  (* turn 15 *)
  ++ click_from_to 5 6 5 5 ++ click_from_to 1 2 0 2
  (* turn 16 *)
  ++ click_from_to 5 5 5 4 ++ click_from_to 0 2 0 2
  (* turn 17 *)
  ++ click_from_to 5 4 5 3 ++ [click_cell 6 1]
  (* turn 18 *)
  ++ [click_cell 5 6; click_cell 6 2]
  (* turn 19 *)
  ++ click_from_to 5 6 5 5 ++ [click_cell 6 3]
  (* turn 20 *)
  ++ click_from_to 5 5 5 4 ++ [click_cell 6 4]
  (* turn 21 *)
  ++ [click_cell 5 6; click_cell 6 5]
  (* turn 22 *)
  ++ click_from_to 5 6 5 5.

Definition standstill : GameState := (play standstill_session).1.

(** ** Proof automation *)

Ltac simpl_fields :=
  cbn [players_0 players_1 board phase current_player_index selected_pawn
       winner turn_skipped skipped_player_id stalemate
       GameState.set_board GameState.set_phase
       GameState.set_current_player_index GameState.set_selected_pawn
       GameState.set_winner GameState.set_turn_skipped
       GameState.set_skipped_player_id GameState.set_stalemate].

(** The direction filter of [get_valid_moves] on a concrete neighbour. *)
Ltac direction_filter :=
  repeat match goal with
    | |- context [bool_decide (?c = true)] =>
        first
          [ replace (bool_decide (c = true)) with true
              by (symmetry; apply bool_decide_eq_true; cbn; lia)
          | replace (bool_decide (c = true)) with false
              by (symmetry; apply bool_decide_eq_false; cbn; lia) ]
    end.

(** * Properties *)

(** ** The board *)

Section board_facts.

Implicit Types (b : Intersections) (x y : Z).

Lemma is_valid_position_spec x y :
  Board.is_valid_position x y = true ↔ 0 ≤ x < 7 ∧ 0 ≤ y < 7.
Proof. unfold Board.is_valid_position, Board.GRID_SIZE. lia. Qed.

Lemma is_intersection_empty_valid b x y :
  Board.is_intersection_empty b x y = true →
  Board.is_valid_position x y = true.
Proof.
  unfold Board.is_intersection_empty.
  destruct (Board.is_valid_position x y); cbn; congruence.
Qed.

Lemma is_intersection_empty_lookup b x y :
  Board.is_intersection_empty b x y = true → b !! (x, y) = None.
Proof.
  unfold Board.is_intersection_empty.
  destruct (Board.is_valid_position x y); cbn; [|congruence].
  apply bool_decide_eq_true.
Qed.

(** The neighbours of a valid cell, in the order up, down, left, right. *)
Lemma get_adjacent_intersections_valid x y :
  Board.is_valid_position x y = true →
  Board.get_adjacent_intersections x y =
    (if Board.is_valid_position x (y - 1) then [(x, y - 1)] else [])
    ++ (if Board.is_valid_position x (y + 1) then [(x, y + 1)] else [])
    ++ (if Board.is_valid_position (x - 1) y then [(x - 1, y)] else [])
    ++ (if Board.is_valid_position (x + 1) y then [(x + 1, y)] else []).
Proof.
  intros Hv. unfold Board.get_adjacent_intersections, Board.directions.
  rewrite Hv. cbn [negb map fst snd].
  rewrite !Z.add_0_r.
  replace (y + -1) with (y - 1) by lia.
  replace (x + -1) with (x - 1) by lia.
  rewrite !filter_cons, filter_nil. cbn [fst snd].
  repeat case_decide;
    repeat match goal with
      | H : _ = true |- _ => rewrite H
      | H : ¬ (_ = true) |- _ => apply not_true_is_false in H; rewrite H
      end; reflexivity.
Qed.

Lemma filter_if_singleton {A} (P : A → Prop) `{∀ a, Decision (P a)}
    (c : bool) (a : A) :
  filter P (if c then [a] else []) =
    if c && bool_decide (P a) then [a] else [].
Proof.
  destruct c; cbv beta iota; [|reflexivity].
  rewrite filter_cons, filter_nil. cbn [andb].
  case_bool_decide; case_decide; tauto || reflexivity.
Qed.

Lemma foldl_delete_lookup b (l : list Cell) (c : Cell) :
  foldl (λ acc k, delete k acc) b l !! c =
    if decide (c ∈ l) then None else b !! c.
Proof.
  revert b. induction l as [|k l IH]; intros b; cbn [foldl].
  - rewrite decide_False by apply not_elem_of_nil. reflexivity.
  - rewrite IH. destruct (decide (c ∈ l)) as [Hin|Hnin].
    + rewrite decide_True by (right; exact Hin). reflexivity.
    + destruct (decide (c = k)) as [->|Hne].
      * rewrite decide_True by left. apply lookup_delete_eq.
      * rewrite decide_False by (rewrite elem_of_cons; tauto).
        apply lookup_delete_ne. congruence.
Qed.

Lemma all_cells_valid x y :
  Board.is_valid_position x y = true → (x, y) ∈ Board.all_cells.
Proof.
  rewrite is_valid_position_spec. intros [Hx Hy].
  unfold Board.all_cells, Board.GRID_SIZE.
  apply list_elem_of_bind. exists x. split; [|apply elem_of_seqZ; lia].
  apply list_elem_of_bind. exists y. split; [|apply elem_of_seqZ; lia].
  apply list_elem_of_singleton. reflexivity.
Qed.

Lemma clear_board_empty b x y :
  Board.is_valid_position x y = true →
  Board.clear_board b !! (x, y) = None.
Proof.
  intros Hv. unfold Board.clear_board. rewrite foldl_delete_lookup.
  rewrite decide_True by (apply all_cells_valid; exact Hv). reflexivity.
Qed.

End board_facts.

(** ** Pawns *)

Section pawn_facts.

Implicit Types (self : Pawn) (b : Intersections) (x y : Z).

Lemma is_on_board_spec self :
  Pawn.is_on_board self = true ↔
  (∃ c, _position self = Some c) ∧ _escaped self = false.
Proof.
  unfold Pawn.is_on_board. rewrite andb_true_iff, negb_true_iff.
  rewrite bool_decide_eq_true.
  destruct (_position self) as [c|]; split; intros [H1 H2]; split;
    eauto; try congruence.
  destruct H1 as [c Hc]. discriminate.
Qed.

Lemma get_valid_moves_off_board (player : PlayerIndex) self b :
  Pawn.is_on_board self = false → Pawn.get_valid_moves player self b = [].
Proof. intros H. unfold Pawn.get_valid_moves. rewrite H. reflexivity. Qed.

Lemma get_valid_moves_player_1 self b x y :
  Pawn.is_on_board self = true →
  _position self = Some (x, y) →
  Board.is_valid_position x y = true →
  Pawn.get_valid_moves Idx0 self b =
    if Board.is_intersection_empty b x (y - 1) then [(x, y - 1)] else [].
Proof.
  intros Hon Hp Hv. unfold Pawn.get_valid_moves.
  rewrite Hon, Hp. cbn [negb].
  unfold Board.get_valid_moves_from_position.
  rewrite (get_adjacent_intersections_valid _ _ Hv).
  rewrite !filter_app, !filter_if_singleton. cbn [fst snd player_id].
  destruct (Board.is_intersection_empty b x (y - 1)) eqn:E.
  - rewrite (is_intersection_empty_valid _ _ _ E).
    direction_filter. rewrite !andb_false_r. reflexivity.
  - direction_filter. rewrite !andb_false_r. reflexivity.
Qed.

Lemma get_valid_moves_player_2 self b x y :
  Pawn.is_on_board self = true →
  _position self = Some (x, y) →
  Board.is_valid_position x y = true →
  Pawn.get_valid_moves Idx1 self b =
    if Board.is_intersection_empty b (x - 1) y then [(x - 1, y)] else [].
Proof.
  intros Hon Hp Hv. unfold Pawn.get_valid_moves.
  rewrite Hon, Hp. cbn [negb].
  unfold Board.get_valid_moves_from_position.
  rewrite (get_adjacent_intersections_valid _ _ Hv).
  rewrite !filter_app, !filter_if_singleton. cbn [fst snd player_id].
  destruct (Board.is_intersection_empty b (x - 1) y) eqn:E.
  - rewrite (is_intersection_empty_valid _ _ _ E).
    direction_filter. rewrite !andb_false_r. reflexivity.
  - direction_filter. rewrite !andb_false_r. reflexivity.
Qed.

End pawn_facts.

(** ** The game state *)

Import GameState.

(** *** Rejected calls *)

Section rejection.
Implicit Types (s : GameState) (pawn : PawnRef).

Lemma place_pawn_rejected s pawn x y :
  (place_pawn s pawn x y).1 = false → (place_pawn s pawn x y).2 = s.
Proof.
  unfold place_pawn.
  repeat (case_bool_decide || case_match); cbn; congruence.
Qed.

Lemma move_pawn_rejected s pawn x y :
  (move_pawn s pawn x y).1 = false → (move_pawn s pawn x y).2 = s.
Proof.
  unfold move_pawn.
  repeat (case_bool_decide || case_match); cbn; congruence.
Qed.

Lemma escape_pawn_rejected s pawn :
  (escape_pawn s pawn).1 = false → (escape_pawn s pawn).2 = s.
Proof.
  unfold escape_pawn.
  repeat (case_bool_decide || case_match); cbn; congruence.
Qed.

Lemma switch_turn_game_over s :
  phase s = GAME_OVER → switch_turn s = ((false, None), s).
Proof. intros H. unfold switch_turn. rewrite H. reflexivity. Qed.
End rejection.

(** *** The skip scan *)

Section stalemate.
Implicit Types (s : GameState).

Lemma switch_turn_stalemate s :
  phase s = PLAYING → check_victory s = None →
  can_player_move s Idx0 = false → can_player_move s Idx1 = false →
  switch_turn s =
    ((false, None),
     mkGameState (players_0 s) (players_1 s) (board s) GAME_OVER
       (next_index (current_player_index s)) None (winner s) true
       (Some (player_id (current_player_index s))) true).
Proof.
  destruct s as [p0 p1 b ph i sel w ts sk stl]. cbn.
  intros -> Hv H0 H1. unfold switch_turn, check_victory in *. cbn in *.
  rewrite Hv. unfold can_player_move in *. cbn in *.
  destruct i; cbn; rewrite ?H0, ?H1; cbn; rewrite ?H0, ?H1; reflexivity.
Qed.
End stalemate.

(** *** Counting escaped pawns *)

Section roster.
Implicit Types (v : vec Pawn 7) (i : fin 7) (p : Pawn).

Lemma filter_length_insert {A} (P : A → Prop) `{∀ a, Decision (P a)}
    (l : list A) (n : nat) (a c : A) :
  l !! n = Some a →
  (length (filter P (<[n:=c]> l)) + (if decide (P a) then 1 else 0)
   = length (filter P l) + (if decide (P c) then 1 else 0))%nat.
Proof.
  revert n. induction l as [|h l IH]; intros [|n] Hl; try discriminate.
  - injection Hl as ->. clear IH.
    change (<[0%nat:=c]> (a :: l)) with (c :: l). rewrite !filter_cons.
    repeat case_decide; cbn [length]; lia.
  - change (<[S n:=c]> (h :: l)) with (h :: <[n:=c]> l).
    cbn in Hl. specialize (IH n Hl).
    rewrite !filter_cons. repeat case_decide; cbn [length]; lia.
Qed.

Lemma escaped_count_vinsert v i p :
  (length (Player.get_escaped_pawns (mkPlayer (vinsert i p v)))
   + (if _escaped (v !!! i) then 1 else 0)
   = length (Player.get_escaped_pawns (mkPlayer v))
     + (if _escaped p then 1 else 0))%nat.
Proof.
  unfold Player.get_escaped_pawns, Player.get_pawns, Pawn.is_escaped.
  cbn [_pawns]. rewrite vec_to_list_insert.
  pose proof (filter_length_insert (λ pawn, _escaped pawn = true)
                (vec_to_list v) (fin_to_nat i) (v !!! i) p) as E.
  rewrite <- vlookup_lookup in E. specialize (E eq_refl).
  destruct (_escaped (v !!! i)), (_escaped p);
    repeat (rewrite decide_True in E by done);
    repeat (rewrite decide_False in E by done); exact E.
Qed.

Lemma escaped_count_le (pl : Player) :
  (length (Player.get_escaped_pawns pl) ≤ 7)%nat.
Proof.
  unfold Player.get_escaped_pawns, Player.get_pawns.
  etransitivity; [apply length_filter|]. rewrite length_vec_to_list. done.
Qed.
End roster.

(** *** What each assignment leaves alone *)

Section frames.
Implicit Types (s : GameState) (r : PawnRef) (p : Pawn) (i : PlayerIndex).

Lemma players_set_pawn_same r p s :
  players (set_pawn r p s) (ref_player r) =
    mkPlayer (vinsert (ref_pawn_id r) p (_pawns (players s (ref_player r)))).
Proof. unfold set_pawn. destruct (ref_player r); reflexivity. Qed.

Lemma players_set_pawn_other r p s i :
  i ≠ ref_player r → players (set_pawn r p s) i = players s i.
Proof. unfold set_pawn. destruct i, (ref_player r); done. Qed.

Lemma players_set_board b s i : players (set_board b s) i = players s i.
Proof. destruct i; reflexivity. Qed.

Lemma get_pawn_set_board b s r : get_pawn (set_board b s) r = get_pawn s r.
Proof. unfold get_pawn. rewrite players_set_board. reflexivity. Qed.

Lemma player_eta (pl : Player) : mkPlayer (_pawns pl) = pl.
Proof. destruct pl; reflexivity. Qed.

Lemma escaped_count_set_pawn r p s :
  (length (Player.get_escaped_pawns (players (set_pawn r p s) (ref_player r)))
   + (if _escaped (get_pawn s r) then 1 else 0)
   = length (Player.get_escaped_pawns (players s (ref_player r)))
     + (if _escaped p then 1 else 0))%nat.
Proof.
  rewrite players_set_pawn_same. unfold get_pawn.
  rewrite escaped_count_vinsert, player_eta. reflexivity.
Qed.

Lemma has_won_set_pawn_same_flag r p s i :
  _escaped p = _escaped (get_pawn s r) →
  Player.has_won (players (set_pawn r p s) i) = Player.has_won (players s i).
Proof.
  intros E. destruct (decide (i = ref_player r)) as [->|Hne].
  - unfold Player.has_won. pose proof (escaped_count_set_pawn r p s) as C.
    rewrite E in C. f_equal. lia.
  - rewrite players_set_pawn_other by done. reflexivity.
Qed.

Lemma has_won_set_pawn_cleared r p s i :
  _escaped p = false →
  Player.has_won (players s i) = false →
  Player.has_won (players (set_pawn r p s) i) = false.
Proof.
  intros E Hw. destruct (decide (i = ref_player r)) as [->|Hne].
  - unfold Player.has_won in *. pose proof (escaped_count_set_pawn r p s) as C.
    rewrite E in C. apply Nat.eqb_neq in Hw. apply Nat.eqb_neq.
    pose proof (escaped_count_le (players s (ref_player r))).
    destruct (_escaped (get_pawn s r)); lia.
  - rewrite players_set_pawn_other by done. exact Hw.
Qed.

Lemma check_victory_players s t :
  (∀ i, Player.has_won (players t i) = Player.has_won (players s i)) →
  check_victory t = check_victory s.
Proof. intros H. unfold check_victory. rewrite !H. reflexivity. Qed.

Lemma check_victory_only_winner s i :
  Player.has_won (players s i) = true →
  Player.has_won (players s (next_index i)) = false →
  check_victory s = Some i.
Proof.
  unfold check_victory. destruct i; cbn [next_index]; intros -> ?; [done|].
  intros. by rewrite H.
Qed.

Lemma players_flip_and_check s i : players (flip_and_check s) i = players s i.
Proof.
  unfold flip_and_check. destruct (check_victory _); destruct i; reflexivity.
Qed.

Lemma flip_and_check_victory s w :
  check_victory s = Some w →
  flip_and_check s =
    mkGameState (players_0 s) (players_1 s) (board s) GAME_OVER
      (next_index (current_player_index s)) (selected_pawn s) (Some w)
      (turn_skipped s) (skipped_player_id s) (stalemate s).
Proof.
  intros H. unfold flip_and_check.
  replace (check_victory (set_current_player_index _ s)) with (check_victory s)
    by reflexivity.
  rewrite H. reflexivity.
Qed.

Lemma flip_and_check_no_victory s :
  check_victory s = None →
  flip_and_check s =
    set_current_player_index (next_index (current_player_index s)) s.
Proof.
  intros H. unfold flip_and_check.
  replace (check_victory (set_current_player_index _ s)) with (check_victory s)
    by reflexivity.
  rewrite H. reflexivity.
Qed.

Lemma switch_turn_victory s w :
  phase s = PLAYING → check_victory s = Some w →
  switch_turn s =
    ((false, None),
     mkGameState (players_0 s) (players_1 s) (board s) GAME_OVER
       (current_player_index s) None (Some w) false None (stalemate s)).
Proof.
  intros Hp Hv. unfold switch_turn. rewrite Hp.
  cbv zeta.
  replace (check_victory (set_selected_pawn None
             (set_skipped_player_id None (set_turn_skipped false s))))
    with (check_victory s) by reflexivity.
  rewrite Hv. reflexivity.
Qed.
End frames.

(** *** The shape of a successful action *)

Section actions.
Implicit Types (s : GameState) (pawn : PawnRef) (x y : Z).

Lemma place_pawn_success s pawn x y :
  (place_pawn s pawn x y).1 = true →
  ref_player pawn = current_player_index s
  ∧ Board.is_starting_position x y (ref_player pawn) = true
  ∧ Board.is_intersection_empty (board s) x y = true
  ∧ (place_pawn s pawn x y).2 =
      flip_and_check
        (set_pawn pawn (mkPawn (Some (x, y)) false)
           (set_board (<[(x, y) := pawn]> (board s)) s)).
Proof.
  unfold place_pawn, get_current_player, Board.place_pawn.
  case_bool_decide as Ho; [discriminate|].
  destruct (Board.is_starting_position x y (ref_player pawn)) eqn:Hs;
    [|discriminate]. cbn [negb].
  destruct (Board.is_valid_position x y) eqn:Hv; [|discriminate].
  destruct (Board.is_intersection_empty (board s) x y) eqn:He;
    [|discriminate]. cbn. intros _.
  done.
Qed.

Lemma move_pawn_success s pawn x y :
  (move_pawn s pawn x y).1 = true →
  phase s = PLAYING
  ∧ ref_player pawn = current_player_index s
  ∧ (x, y) ∈ Pawn.get_valid_moves (ref_player pawn) (get_pawn s pawn) (board s)
  ∧ ∃ fx fy b,
      _position (get_pawn s pawn) = Some (fx, fy)
      ∧ Board.move_pawn (board s) fx fy x y = (true, b)
      ∧ (move_pawn s pawn x y).2 =
          flip_and_check
            (set_pawn pawn (mkPawn (Some (x, y)) false) (set_board b s)).
Proof.
  unfold move_pawn, get_current_player, Pawn.get_position.
  case_bool_decide as Hp; [discriminate|].
  case_bool_decide as Ho; [discriminate|].
  destruct (_position (get_pawn s pawn)) as [[fx fy]|] eqn:Hpos; [|discriminate].
  case_bool_decide as Hm; [discriminate|].
  destruct (Board.move_pawn (board s) fx fy x y) as [[] b] eqn:Hb; [|discriminate].
  cbn. intros _.
  split; [done|].
  split; [done|].
  split; [done|].
  exists fx, fy, b. done.
Qed.

Lemma escape_pawn_success s pawn :
  (escape_pawn s pawn).1 = true →
  phase s = PLAYING
  ∧ ref_player pawn = current_player_index s
  ∧ ∃ x y,
      _position (get_pawn s pawn) = Some (x, y)
      ∧ Board.is_escape_position x y (ref_player pawn) = true
      ∧ (escape_pawn s pawn).2 =
          flip_and_check
            (set_pawn pawn (mkPawn None true)
               (set_board (delete (x, y) (board s)) s)).
Proof.
  unfold escape_pawn, get_current_player, Pawn.get_position.
  case_bool_decide as Hp; [discriminate|].
  case_bool_decide as Ho; [discriminate|].
  destruct (_position (get_pawn s pawn)) as [[x y]|] eqn:Hpos; [|discriminate].
  destruct (Board.is_escape_position x y (ref_player pawn)) eqn:He; [|discriminate].
  cbn [negb fst snd]. intros _.
  split; [done|].
  split; [done|].
  exists x, y. split; [done|]. split; [done|].
  unfold Board.remove_pawn.
  assert (Board.is_valid_position x y = true) as ->; [|reflexivity].
  unfold Board.is_escape_position in He.
  destruct (Board.is_valid_position x y); [done|discriminate].
Qed.
End actions.

(** *** Further facts *)

Section more.
Implicit Types (s : GameState) (pawn : PawnRef) (x y : Z).

Lemma get_valid_moves_on_board (player : PlayerIndex) (self : Pawn) b c :
  c ∈ Pawn.get_valid_moves player self b → Pawn.is_on_board self = true.
Proof.
  unfold Pawn.get_valid_moves. destruct (Pawn.is_on_board self); [done|].
  cbn. intros H. by apply elem_of_nil in H.
Qed.

Lemma skip_scan_done fuel pc checked s :
  (len_players ≤ pc)%nat → skip_scan fuel pc checked s = (ScanEnd, pc, s).
Proof.
  intros H. destruct fuel; cbn [skip_scan]; [done|].
  apply Nat.ltb_ge in H. rewrite H. done.
Qed.

Lemma skip_scan_fuel fuel pc checked s :
  (len_players - pc ≤ fuel)%nat →
  skip_scan fuel pc checked s = skip_scan (len_players - pc) pc checked s.
Proof.
  revert pc checked s. induction fuel as [|fuel IH]; intros pc checked s H.
  - replace (len_players - pc)%nat with 0%nat by lia. done.
  - destruct (decide (len_players ≤ pc)%nat) as [Hge|Hlt].
    + rewrite !skip_scan_done by done. done.
    + replace (len_players - pc)%nat with (S (len_players - S pc)) by lia.
      cbn [skip_scan]. destruct (pc <? len_players)%nat; [|done].
      case_bool_decide; [done|].
      destruct (can_player_move s (get_current_player s)); [done|].
      apply IH. lia.
Qed.

Lemma reset_player_pawns (pl : Player) :
  reset_player pl = new_player.
Proof.
  destruct pl as [v]. unfold reset_player, new_player. cbn [_pawns].
  f_equal. inv_vec v. intros. reflexivity.
Qed.

Lemma can_move_any_pawn_none_on_board me (pl : Player) b :
  Player.get_pawns_on_board pl = [] → Player.can_move_any_pawn me pl b = false.
Proof. unfold Player.can_move_any_pawn. intros ->. reflexivity. Qed.
End more.

(** *** What [switch_turn] leaves alone *)

Section switch_frames.

Implicit Types (s : GameState).

Lemma skip_scan_frame fuel pc checked s :
  let r := (skip_scan fuel pc checked s).2 in
  players_0 r = players_0 s ∧ players_1 r = players_1 s
  ∧ board r = board s ∧ winner r = winner s
  ∧ selected_pawn r = selected_pawn s
  ∧ (phase r = PLAYING → phase s = PLAYING).
Proof.
  revert pc checked s. induction fuel as [|fuel IH]; intros pc checked s;
    cbn [skip_scan]; [done|].
  destruct (pc <? len_players)%nat; [|done].
  case_bool_decide; [cbn; done|].
  destruct (can_player_move s (get_current_player s)); [done|].
  cbv zeta. edestruct IH as (-> & -> & -> & -> & -> & Hp). split_and!; try done.
Qed.

Lemma switch_turn_frame s :
  let r := (switch_turn s).2 in
  players_0 r = players_0 s ∧ players_1 r = players_1 s ∧ board r = board s.
Proof.
  unfold switch_turn. destruct (phase s) eqn:Hp; [|done].
  cbv zeta. destruct (check_victory _); [done|]. simpl_fields.
  rewrite Hp.
  match goal with |- context [skip_scan ?f ?pc ?c ?t] =>
    pose proof (skip_scan_frame f pc c t) as F;
    destruct (skip_scan f pc c t) as [[e n] r] end.
  cbn in F. destruct F as (F0 & F1 & Fb & _).
  destruct e; try destruct (len_players <=? n)%nat; cbn; done.
Qed.

Lemma switch_turn_playing s :
  phase (switch_turn s).2 = PLAYING →
  phase s = PLAYING ∧ check_victory s = None
  ∧ winner (switch_turn s).2 = winner s.
Proof.
  unfold switch_turn. destruct (phase s) eqn:Hp; [|cbn; congruence].
  cbv zeta.
  replace (check_victory (set_selected_pawn None
             (set_skipped_player_id None (set_turn_skipped false s))))
    with (check_victory s) by reflexivity.
  destruct (check_victory s); [done|]. simpl_fields.
  rewrite Hp.
  match goal with |- context [skip_scan ?f ?pc ?c ?t] =>
    pose proof (skip_scan_frame f pc c t) as F;
    destruct (skip_scan f pc c t) as [[e n] r] end.
  cbn in F. destruct F as (_ & _ & _ & Fw & _).
  destruct e; try destruct (len_players <=? n)%nat; cbn; done.
Qed.

End switch_frames.

(** *** States of a game that started fresh *)

Section reachable_states.

Implicit Types (s : GameState).

Lemma check_victory_flip_and_check s :
  check_victory (flip_and_check s) = check_victory s.
Proof.
  apply check_victory_players. intros i. by rewrite players_flip_and_check.
Qed.

Lemma flip_and_check_pending s :
  (phase s = PLAYING → winner s = None) →
  no_victory_pending (flip_and_check s).
Proof.
  intros Hs Hp. rewrite check_victory_flip_and_check.
  destruct (check_victory s) as [w|] eqn:Hv.
  - rewrite (flip_and_check_victory s w Hv) in Hp. discriminate.
  - rewrite (flip_and_check_no_victory s Hv) in *. cbn in *. auto.
Qed.

Lemma place_pawn_pending s pawn x y :
  no_victory_pending s → no_victory_pending (place_pawn s pawn x y).2.
Proof.
  intros Hs. destruct (place_pawn s pawn x y).1 eqn:E.
  - destruct (place_pawn_success s pawn x y E) as (_ & _ & _ & ->).
    apply flip_and_check_pending.
    destruct pawn as [[] n]; cbn; intros; by apply Hs.
  - by rewrite place_pawn_rejected.
Qed.

Lemma move_pawn_pending s pawn x y :
  no_victory_pending s → no_victory_pending (move_pawn s pawn x y).2.
Proof.
  intros Hs. destruct (move_pawn s pawn x y).1 eqn:E.
  - destruct (move_pawn_success s pawn x y E)
      as (_ & _ & _ & fx & fy & b & _ & _ & ->).
    apply flip_and_check_pending.
    destruct pawn as [[] n]; cbn; intros; by apply Hs.
  - by rewrite move_pawn_rejected.
Qed.

Lemma escape_pawn_pending s pawn :
  no_victory_pending s → no_victory_pending (escape_pawn s pawn).2.
Proof.
  intros Hs. destruct (escape_pawn s pawn).1 eqn:E.
  - destruct (escape_pawn_success s pawn E) as (_ & _ & x & y & _ & _ & ->).
    apply flip_and_check_pending.
    destruct pawn as [[] n]; cbn; intros; by apply Hs.
  - by rewrite escape_pawn_rejected.
Qed.

Lemma switch_turn_pending s :
  no_victory_pending s → no_victory_pending (switch_turn s).2.
Proof.
  intros Hs Hp. destruct (switch_turn_playing s Hp) as (Hp' & Hv & Hw).
  rewrite Hw. split; [|by apply Hs].
  rewrite <- Hv. apply check_victory_players.
  destruct (switch_turn_frame s) as (F0 & F1 & _).
  intros []; cbn [players]; by rewrite ?F0, ?F1.
Qed.

Lemma reset_game_eq s :
  reset_game s =
    mkGameState new_player new_player (Board.clear_board (board s))
      PLAYING Idx0 None None false None false.
Proof. unfold reset_game. by rewrite !reset_player_pawns. Qed.

Lemma reset_game_pending s : no_victory_pending (reset_game s).
Proof. intros _. rewrite reset_game_eq. done. Qed.

Lemma call_pending s c : no_victory_pending s → no_victory_pending (call s c).
Proof.
  destruct c; cbn [call].
  - apply place_pawn_pending.
  - apply move_pawn_pending.
  - apply escape_pawn_pending.
  - apply switch_turn_pending.
  - intros _. apply reset_game_pending.
Qed.

Lemma run_pending cs s : no_victory_pending s → no_victory_pending (run s cs).
Proof.
  revert s. induction cs as [|c cs IH]; intros s Hs; [done|].
  cbn [run foldl]. apply IH, call_pending, Hs.
Qed.

Lemma reachable_pending s : reachable s → no_victory_pending s.
Proof. intros [cs ->]. apply run_pending. intros _. done. Qed.

End reachable_states.

(** *** Board occupancy and pawn positions *)

Section consistency.

Implicit Types (s t : GameState) (r : PawnRef) (p : Pawn) (c : Cell).

Lemma get_pawn_set_pawn_same r p s : get_pawn (set_pawn r p s) r = p.
Proof.
  unfold get_pawn. rewrite players_set_pawn_same. cbn [_pawns].
  apply vlookup_insert.
Qed.

Lemma get_pawn_set_pawn_other r r' p s :
  r' ≠ r → get_pawn (set_pawn r p s) r' = get_pawn s r'.
Proof.
  intros Hne. unfold get_pawn.
  destruct (decide (ref_player r' = ref_player r)) as [E|E].
  - rewrite E, players_set_pawn_same. cbn [_pawns].
    apply vlookup_insert_ne. intros E'. apply Hne.
    destruct r, r'; cbn in *; congruence.
  - by rewrite players_set_pawn_other.
Qed.

Lemma board_set_pawn r p s : board (set_pawn r p s) = board s.
Proof. unfold set_pawn. by destruct (ref_player r). Qed.

Lemma board_flip_and_check s : board (flip_and_check s) = board s.
Proof. unfold flip_and_check. by destruct (check_victory _). Qed.

Lemma get_pawn_flip_and_check s r : get_pawn (flip_and_check s) r = get_pawn s r.
Proof. unfold get_pawn. by rewrite players_flip_and_check. Qed.

Lemma consistent_ext s t :
  board t = board s → (∀ r, get_pawn t r = get_pawn s r) →
  consistent s → consistent t.
Proof.
  intros Hb Hg (Hm & Hp & Hk). unfold consistent, board_matches_pawns,
    pawn_states_ok, board_keys_valid, stands_at in *.
  rewrite Hb. setoid_rewrite Hg. done.
Qed.

End consistency.

Section consistency_steps.

Implicit Types (s t : GameState) (r : PawnRef) (p : Pawn) (c : Cell).

Lemma stands_at_set_pawn_same r p s b c :
  stands_at (set_pawn r p (set_board b s)) r c ↔
  Pawn.is_on_board p = true ∧ _position p = Some c.
Proof. unfold stands_at, Pawn.get_position. by rewrite get_pawn_set_pawn_same. Qed.

Lemma stands_at_set_pawn_other r r' p s b c :
  r' ≠ r → stands_at (set_pawn r p (set_board b s)) r' c ↔ stands_at s r' c.
Proof.
  intros Hne. unfold stands_at.
  by rewrite get_pawn_set_pawn_other, get_pawn_set_board.
Qed.

Lemma consistent_place s r c :
  consistent s →
  board s !! c = None →
  Board.is_valid_position c.1 c.2 = true →
  Pawn.is_on_board (get_pawn s r) = false →
  consistent (set_pawn r (mkPawn (Some c) false)
                (set_board (<[c := r]> (board s)) s)).
Proof.
  intros (Hm & Hp & Hk) Hfree Hv Hoff. split; [|split].
  - intros c' r'. rewrite board_set_pawn. cbn [board set_board].
    destruct (decide (r' = r)) as [->|Hr].
    + rewrite stands_at_set_pawn_same. cbn.
      destruct (decide (c' = c)) as [->|Hc].
      * rewrite lookup_insert_eq. naive_solver.
      * rewrite lookup_insert_ne by done. split.
        -- intros H. apply Hm in H as [H _]. congruence.
        -- intros [_ H]. congruence.
    + rewrite stands_at_set_pawn_other by done. rewrite <- (Hm c' r').
      destruct (decide (c' = c)) as [->|Hc].
      * rewrite lookup_insert_eq, Hfree. naive_solver.
      * by rewrite lookup_insert_ne.
  - intros r'. destruct (decide (r' = r)) as [->|Hr].
    + rewrite get_pawn_set_pawn_same. done.
    + rewrite get_pawn_set_pawn_other, get_pawn_set_board by done. apply Hp.
  - intros c' r'. rewrite board_set_pawn. cbn [board set_board].
    destruct (decide (c' = c)) as [->|Hc].
    + done.
    + rewrite lookup_insert_ne by done. apply Hk.
Qed.

Lemma consistent_move s r c0 c1 :
  consistent s →
  stands_at s r c0 →
  board s !! c1 = None →
  Board.is_valid_position c1.1 c1.2 = true →
  consistent (set_pawn r (mkPawn (Some c1) false)
                (set_board (<[c1 := r]> (delete c0 (board s))) s)).
Proof.
  intros (Hm & Hp & Hk) Hat Hfree Hv.
  assert (board s !! c0 = Some r) as Hb0 by (by apply Hm).
  assert (c1 ≠ c0) as Hne by congruence.
  split; [|split].
  - intros c' r'. rewrite board_set_pawn. cbn [board set_board].
    destruct (decide (r' = r)) as [->|Hr].
    + rewrite stands_at_set_pawn_same. cbn.
      destruct (decide (c' = c1)) as [->|Hc].
      * rewrite lookup_insert_eq. naive_solver.
      * rewrite lookup_insert_ne by done. split; [|intros [_ H]; congruence].
        destruct (decide (c' = c0)) as [->|Hc0].
        -- by rewrite lookup_delete_eq.
        -- rewrite lookup_delete_ne by done. intros H.
           apply Hm in H as [_ H]. destruct Hat as [_ Hat].
           unfold Pawn.get_position in *. congruence.
    + rewrite stands_at_set_pawn_other by done. rewrite <- (Hm c' r').
      destruct (decide (c' = c1)) as [->|Hc].
      * rewrite lookup_insert_eq, Hfree. naive_solver.
      * rewrite lookup_insert_ne by done.
        destruct (decide (c' = c0)) as [->|Hc0].
        -- rewrite lookup_delete_eq, Hb0. naive_solver.
        -- by rewrite lookup_delete_ne.
  - intros r'. destruct (decide (r' = r)) as [->|Hr].
    + rewrite get_pawn_set_pawn_same. done.
    + rewrite get_pawn_set_pawn_other, get_pawn_set_board by done. apply Hp.
  - intros c' r'. rewrite board_set_pawn. cbn [board set_board].
    destruct (decide (c' = c1)) as [->|Hc]; [done|].
    rewrite lookup_insert_ne by done.
    destruct (decide (c' = c0)) as [->|Hc0].
    + by rewrite lookup_delete_eq.
    + rewrite lookup_delete_ne by done. apply Hk.
Qed.

Lemma consistent_escape s r c0 :
  consistent s →
  _position (get_pawn s r) = Some c0 →
  consistent (set_pawn r (mkPawn None true)
                (set_board (delete c0 (board s)) s)).
Proof.
  intros (Hm & Hp & Hk) Hpos.
  assert (stands_at s r c0) as Hat.
  { split; [|done]. apply is_on_board_spec. split; [eauto|].
    destruct (_escaped (get_pawn s r)) eqn:E; [|done].
    rewrite (Hp r E) in Hpos. discriminate. }
  assert (board s !! c0 = Some r) as Hb0 by (by apply Hm).
  split; [|split].
  - intros c' r'. rewrite board_set_pawn. cbn [board set_board].
    destruct (decide (r' = r)) as [->|Hr].
    + rewrite stands_at_set_pawn_same. cbn.
      split; [|intros [H _]; discriminate].
      destruct (decide (c' = c0)) as [->|Hc0].
      * by rewrite lookup_delete_eq.
      * rewrite lookup_delete_ne by done. intros H.
        apply Hm in H as [_ H]. unfold Pawn.get_position in *. congruence.
    + rewrite stands_at_set_pawn_other by done. rewrite <- (Hm c' r').
      destruct (decide (c' = c0)) as [->|Hc0].
      * rewrite lookup_delete_eq, Hb0. naive_solver.
      * by rewrite lookup_delete_ne.
  - intros r'. destruct (decide (r' = r)) as [->|Hr].
    + rewrite get_pawn_set_pawn_same. done.
    + rewrite get_pawn_set_pawn_other, get_pawn_set_board by done. apply Hp.
  - intros c' r'. rewrite board_set_pawn. cbn [board set_board].
    destruct (decide (c' = c0)) as [->|Hc0].
    + by rewrite lookup_delete_eq.
    + rewrite lookup_delete_ne by done. apply Hk.
Qed.

End consistency_steps.

Section consistency_calls.

Implicit Types (s t : GameState) (r pawn : PawnRef) (p : Pawn) (c : Cell).

Lemma board_move_pawn_true (b b' : Intersections) fx fy tx ty :
  Board.move_pawn b fx fy tx ty = (true, b') →
  ∃ r, b !! (fx, fy) = Some r
       ∧ Board.is_intersection_empty b tx ty = true
       ∧ b' = <[(tx, ty) := r]> (delete (fx, fy) b).
Proof.
  unfold Board.move_pawn.
  destruct (Board.is_valid_position fx fy); cbn [negb orb]; [|discriminate].
  destruct (Board.is_valid_position tx ty); cbn [negb orb]; [|discriminate].
  case_bool_decide as Hb; cbn [orb]; [discriminate|].
  destruct (Board.is_intersection_empty b tx ty) eqn:He; cbn [negb];
    [|discriminate].
  destruct (b !! (fx, fy)) as [r|]; [|done].
  intros [= <-]. eauto.
Qed.

Lemma flip_and_check_consistent s :
  consistent s → consistent (flip_and_check s).
Proof.
  apply consistent_ext; [apply board_flip_and_check|].
  intros r. apply get_pawn_flip_and_check.
Qed.

Lemma place_pawn_consistent s pawn x y :
  consistent s → Pawn.is_on_board (get_pawn s pawn) = false →
  consistent (place_pawn s pawn x y).2.
Proof.
  intros Hs Hoff. destruct (place_pawn s pawn x y).1 eqn:E.
  - destruct (place_pawn_success s pawn x y E) as (_ & _ & He & ->).
    apply flip_and_check_consistent, consistent_place; try done.
    + by apply is_intersection_empty_lookup.
    + by apply is_intersection_empty_valid in He.
  - by rewrite place_pawn_rejected.
Qed.

Lemma move_pawn_consistent s pawn x y :
  consistent s → consistent (move_pawn s pawn x y).2.
Proof.
  intros Hs. destruct (move_pawn s pawn x y).1 eqn:E.
  - destruct (move_pawn_success s pawn x y E)
      as (_ & _ & Hm & fx & fy & b & Hpos & Hb & ->).
    apply board_move_pawn_true in Hb as (r & Hr & He & ->).
    assert (stands_at s pawn (fx, fy)) as Hat.
    { split; [|done]. by apply get_valid_moves_on_board in Hm. }
    assert (r = pawn) as ->.
    { destruct Hs as (Hs & _). apply Hs in Hat. congruence. }
    apply flip_and_check_consistent, consistent_move; try done.
    + by apply is_intersection_empty_lookup.
    + by apply is_intersection_empty_valid in He.
  - by rewrite move_pawn_rejected.
Qed.

Lemma escape_pawn_consistent s pawn :
  consistent s → consistent (escape_pawn s pawn).2.
Proof.
  intros Hs. destruct (escape_pawn s pawn).1 eqn:E.
  - destruct (escape_pawn_success s pawn E)
      as (_ & _ & x & y & Hpos & _ & ->).
    by apply flip_and_check_consistent, consistent_escape.
  - by rewrite escape_pawn_rejected.
Qed.

Lemma switch_turn_consistent s :
  consistent s → consistent (switch_turn s).2.
Proof.
  destruct (switch_turn_frame s) as (F0 & F1 & Fb).
  apply consistent_ext; [done|].
  intros [[] n]; unfold get_pawn; cbn [players ref_player]; by rewrite ?F0, ?F1.
Qed.

Lemma new_player_lookup (n : fin 7) : _pawns new_player !!! n = mkPawn None false.
Proof. unfold new_player. cbn [_pawns]. apply vlookup_replicate. Qed.

Lemma fresh_rosters_consistent (b : Intersections) ph i sel w ts sk st :
  (∀ c, b !! c = None) →
  consistent (mkGameState new_player new_player b ph i sel w ts sk st).
Proof.
  intros Hempty.
  assert (∀ r, get_pawn (mkGameState new_player new_player b ph i sel w ts sk st) r
               = mkPawn None false) as Hg.
  { intros [[] n]; unfold get_pawn; cbn [players players_0 players_1 ref_player
      ref_pawn_id]; apply new_player_lookup. }
  split; [|split].
  - intros c r. cbn [board]. rewrite Hempty. split; [done|].
    intros [Hon _]. rewrite Hg in Hon. discriminate.
  - intros r. by rewrite Hg.
  - intros c r. cbn [board]. by rewrite Hempty.
Qed.

Lemma reset_game_consistent s :
  board_keys_valid s → consistent (reset_game s).
Proof.
  intros Hk. rewrite reset_game_eq.
  assert (∀ c, Board.clear_board (board s) !! c = None) as Hempty.
  { intros c. unfold Board.clear_board. rewrite foldl_delete_lookup.
    case_decide as Hin; [done|].
    destruct (board s !! c) as [r|] eqn:Hc; [|done].
    exfalso. apply Hin. destruct c as [x y]. apply all_cells_valid.
    apply (Hk _ _ Hc). }
  by apply fresh_rosters_consistent.
Qed.

Lemma init_consistent : consistent init.
Proof. apply fresh_rosters_consistent. intros c. apply lookup_empty. Qed.

Lemma call_consistent s (k : Call) :
  consistent s → disciplined s k → consistent (call s k).
Proof.
  intros Hs Hd. destruct k; cbn [call].
  - by apply place_pawn_consistent.
  - by apply move_pawn_consistent.
  - by apply escape_pawn_consistent.
  - by apply switch_turn_consistent.
  - apply reset_game_consistent, Hs.
Qed.

Lemma run_consistent cs s :
  consistent s → disciplined_script s cs → consistent (run s cs).
Proof.
  revert s. induction cs as [|k cs IH]; intros s Hs Hd; [done|].
  destruct Hd as [Hk Hd]. cbn [run foldl]. apply IH; [|done].
  by apply call_consistent.
Qed.

(** In a consistent state no two pawns stand on the same cell. *)
Lemma consistent_no_shared_cell s r r' c :
  consistent s → stands_at s r c → stands_at s r' c → r = r'.
Proof.
  intros (Hm & _) H H'. apply Hm in H, H'. congruence.
Qed.

(** Board occupancy, as the board reports it, is the set of positions of
    the pawns on the board. *)
Lemma consistent_occupancy s x y :
  consistent s →
  Board.is_valid_position x y = true →
  (Board.is_intersection_empty (board s) x y = false ↔
   ∃ r, stands_at s r (x, y)).
Proof.
  intros (Hm & _) Hv. unfold Board.is_intersection_empty. rewrite Hv.
  cbn [negb]. rewrite bool_decide_eq_false. split.
  - intros H. destruct (board s !! (x, y)) as [r|] eqn:E; [|done].
    exists r. by apply Hm.
  - intros [r H]. apply Hm in H. congruence.
Qed.

End consistency_calls.

(** X20.  From a fresh game, as long as no call places a pawn that is on
    the board already, board occupancy and pawn positions agree and no two
    pawns share a cell. *)
Theorem board_matches_pawns_when_disciplined (cs : list Call) :
  disciplined_script init cs →
  board_matches_pawns (run init cs)
  ∧ (∀ r r' c, stands_at (run init cs) r c → stands_at (run init cs) r' c → r = r').
Proof.
  intros Hd. pose proof (run_consistent cs init init_consistent Hd) as Hc.
  split; [apply Hc|]. intros r r' c. by apply consistent_no_shared_cell.
Qed.

(** ** The claims of the specification *)

(** C1.  In the game reached by the script [approach] followed by a step of
    player 1 to (1,1) and an entry of player 2, player 1 is to act, its pawn
    stands at (1,1) and its escape cell (1,0) is empty.
    [GameState.move_pawn] of that pawn to (1,0) returns [True], yet the pawn
    is not escaped afterwards and the cell (1,0) is not empty: the pawn
    stands on it.  [Pawn.move_to] on the same pawn and board does mark the
    pawn escaped and leaves the cell empty. *)
Theorem move_pawn_onto_escape_cell_does_not_escape :
  let s := before_exit in
  reachable s
  ∧ phase s = PLAYING
  ∧ current_player_index s = Idx0
  ∧ Pawn.get_position (get_pawn s pawn_a) = Some (1, 1)
  ∧ Board.is_escape_position 1 0 Idx0 = true
  ∧ Board.is_intersection_empty (board s) 1 0 = true
  ∧ (move_pawn s pawn_a 1 0).1 = true
  ∧ Pawn.is_escaped (get_pawn (move_pawn s pawn_a 1 0).2 pawn_a) = false
  ∧ Pawn.get_position (get_pawn (move_pawn s pawn_a 1 0).2 pawn_a) = Some (1, 0)
  ∧ Board.is_intersection_empty (board (move_pawn s pawn_a 1 0).2) 1 0 = false
  ∧ (let '(ok, pawn, b) :=
       Pawn.move_to Idx0 (get_pawn s pawn_a) (board s) 1 0 in
     ok = true ∧ Pawn.is_escaped pawn = true
     ∧ Board.is_intersection_empty b 1 0 = true).
Proof.
  cbv zeta. split.
  - exists (approach ++ [CallMove pawn_a 1 1; CallPlace pawn_c 6 2]).
    vm_compute. reflexivity.
  - vm_compute. repeat split.
Qed.

(** C2.  In the game reached by the script [approach], player 1 is to act.
    Its move to (1,1) succeeds and leaves player 2 without a legal move
    while player 1 still has one; nevertheless the turn stays with
    player 2, [turn_skipped] is false and [skipped_player_id] is [None]:
    [move_pawn] only passes the turn and checks for victory.  [switch_turn]
    applied to the same position with player 1 as the player who acted
    does skip player 2 and records it.  Likewise, in the game reached by
    the script [race] the move of player 2 to (0,1) succeeds and leaves
    neither player with a legal move, yet the phase stays [PLAYING] and
    the stalemate flag false, where [switch_turn] declares the
    stalemate. *)
Theorem move_pawn_runs_no_skip_scan :
  (let s := before_block in
   let s' := (move_pawn s pawn_a 1 1).2 in
   reachable s
   ∧ current_player_index s = Idx0
   ∧ (move_pawn s pawn_a 1 1).1 = true
   ∧ can_player_move s' Idx1 = false
   ∧ can_player_move s' Idx0 = true
   ∧ phase s' = PLAYING
   ∧ current_player_index s' = Idx1
   ∧ turn_skipped s' = false
   ∧ skipped_player_id s' = None
   ∧ (let t := (switch_turn (set_current_player_index Idx0 s')).2 in
      current_player_index t = Idx0 ∧ turn_skipped t = true
      ∧ skipped_player_id t = Some 2))
  ∧ (let s := before_standstill in
     let s' := (move_pawn s pawn_b 0 1).2 in
     reachable s
     ∧ current_player_index s = Idx1
     ∧ (move_pawn s pawn_b 0 1).1 = true
     ∧ can_player_move s' Idx0 = false
     ∧ can_player_move s' Idx1 = false
     ∧ phase s' = PLAYING
     ∧ stalemate s' = false
     ∧ (let t := (switch_turn (set_current_player_index Idx1 s')).2 in
        phase t = GAME_OVER ∧ stalemate t = true)).
Proof.
  cbv zeta. split; split.
  - exists approach. reflexivity.
  - vm_compute. repeat split.
  - exists race. reflexivity.
  - vm_compute. repeat split.
Qed.

(** C3.  From a fresh game, player 1 places its first pawn at (1,6),
    player 2 places a pawn at (6,1), and player 1 places the same first
    pawn again, at (2,6).  All three calls return [True].  Afterwards the
    board still holds that pawn at (1,6) although its position is (2,6)
    and no pawn of either player has the position (1,6): board occupancy
    and pawn positions disagree. *)
Theorem place_pawn_twice_breaks_board_invariant :
  let s1 := place_pawn init pawn_a 1 6 in
  let s2 := place_pawn s1.2 pawn_b 6 1 in
  let s3 := place_pawn s2.2 pawn_a 2 6 in
  s1.1 = true ∧ s2.1 = true ∧ s3.1 = true
  ∧ reachable s3.2
  ∧ Board.get_pawn_at_intersection (board s3.2) 1 6 = Some pawn_a
  ∧ Pawn.get_position (get_pawn s3.2 pawn_a) = Some (2, 6)
  ∧ Player.get_pawn_at_position (players s3.2 Idx0) 1 6 = None
  ∧ Player.get_pawn_at_position (players s3.2 Idx1) 1 6 = None
  ∧ ¬ board_matches_pawns s3.2.
Proof.
  cbv zeta. split_and!; try (vm_compute; reflexivity).
  - exists [CallPlace pawn_a 1 6; CallPlace pawn_b 6 1; CallPlace pawn_a 2 6].
    reflexivity.
  - intros H. specialize (H (1, 6) pawn_a). destruct H as [H _].
    assert (stands_at
              (place_pawn
                 (place_pawn (place_pawn init pawn_a 1 6).2 pawn_b 6 1).2
                 pawn_a 2 6).2 pawn_a (1, 6)) as [_ Hpos].
    { apply H. vm_compute. reflexivity. }
    vm_compute in Hpos. discriminate.
Qed.

(** C4.  A [place_pawn], [move_pawn] or [escape_pawn] call that returns
    [False] returns the state it was given, and so does a [switch_turn]
    call made when the phase is [GAME_OVER], which answers
    [(False, None)]: board, both rosters, phase, winner, stalemate flag,
    skip fields, selected pawn and turn index are all unchanged. *)
Theorem rejected_call_changes_nothing (s : GameState) (pawn : PawnRef)
    (x y : Z) :
  ((place_pawn s pawn x y).1 = false → (place_pawn s pawn x y).2 = s)
  ∧ ((move_pawn s pawn x y).1 = false → (move_pawn s pawn x y).2 = s)
  ∧ ((escape_pawn s pawn).1 = false → (escape_pawn s pawn).2 = s)
  ∧ (phase s = GAME_OVER → switch_turn s = ((false, None), s)).
Proof.
  split; [apply place_pawn_rejected|].
  split; [apply move_pawn_rejected|].
  split; [apply escape_pawn_rejected|].
  apply switch_turn_game_over.
Qed.

Lemma rejected_call_changes_nothing_witness :
  let s := corner_block_over in
  (move_pawn s pawn_a 0 0).1 = false ∧ (move_pawn s pawn_a 0 0).2 = s
  ∧ (escape_pawn s pawn_a).1 = false ∧ (escape_pawn s pawn_a).2 = s
  ∧ (place_pawn s pawn_a 0 0).1 = false ∧ (place_pawn s pawn_a 0 0).2 = s
  ∧ phase s = GAME_OVER ∧ switch_turn s = ((false, None), s).
Proof.
  cbv zeta.
  destruct (rejected_call_changes_nothing corner_block_over pawn_a 0 0)
    as (Hplace & Hmove & Hescape & Hswitch).
  split; [reflexivity|]. split; [apply Hmove; reflexivity|].
  split; [reflexivity|]. split; [apply Hescape; reflexivity|].
  split; [reflexivity|]. split; [apply Hplace; reflexivity|].
  split; [reflexivity|]. apply Hswitch. reflexivity.
Defined.

(** C5.  [switch_turn] on a fresh game ends it ([GAME_OVER]) with player 2
    at the turn index.  In that state [place_pawn] of a pawn of player 2 on
    its starting cell (6,1) returns [True], records the pawn on the board
    and in the pawn, and passes the turn, although the game is over;
    [move_pawn] of the pawn just placed is rejected there. *)
Theorem place_pawn_succeeds_after_game_over :
  let s := (switch_turn init).2 in
  reachable s
  ∧ phase s = GAME_OVER
  ∧ current_player_index s = Idx1
  ∧ (place_pawn s pawn_b 6 1).1 = true
  ∧ Pawn.get_position (get_pawn (place_pawn s pawn_b 6 1).2 pawn_b) = Some (6, 1)
  ∧ Board.get_pawn_at_intersection (board (place_pawn s pawn_b 6 1).2) 6 1
    = Some pawn_b
  ∧ current_player_index (place_pawn s pawn_b 6 1).2 = Idx0
  ∧ (move_pawn (set_current_player_index Idx1 (place_pawn s pawn_b 6 1).2)
       pawn_b 5 1).1 = false.
Proof.
  cbv zeta. split.
  - exists [CallSwitchTurn]. reflexivity.
  - vm_compute. repeat split.
Qed.

(** C6.  A pawn that is not on the board (unplaced or escaped) has no valid
    move.  For a pawn on the board at a valid cell (x, y), the list of
    valid moves is the one-element list holding the forward neighbour,
    (x, y-1) for a pawn of player 1 and (x-1, y) for a pawn of player 2,
    when that neighbour is a valid and empty cell, and the empty list
    otherwise; no lateral or backward neighbour ever occurs in it. *)
Theorem get_valid_moves_forward_only (player : PlayerIndex) (self : Pawn)
    (b : Intersections) :
  (Pawn.is_on_board self = false → Pawn.get_valid_moves player self b = [])
  ∧ (∀ x y,
       Pawn.is_on_board self = true →
       Pawn.get_position self = Some (x, y) →
       Board.is_valid_position x y = true →
       let forward :=
         match player with Idx0 => (x, y - 1) | Idx1 => (x - 1, y) end in
       Pawn.get_valid_moves player self b =
         if Board.is_intersection_empty b forward.1 forward.2
         then [forward] else []).
Proof.
  split; [apply get_valid_moves_off_board|].
  intros x y Hon Hp Hv. destruct player; cbv zeta; cbn [fst snd].
  - by apply get_valid_moves_player_1.
  - by apply get_valid_moves_player_2.
Qed.

Lemma get_valid_moves_forward_only_witness :
  Pawn.is_on_board (pawn_at 3 3) = true
  ∧ Board.is_valid_position 3 3 = true
  ∧ Pawn.get_valid_moves Idx1 (pawn_at 3 3) ∅ = [(2, 3)]
  ∧ Pawn.get_valid_moves Idx0 escaped_pawn ∅ = [].
Proof.
  split; [reflexivity|]. split; [reflexivity|]. split.
  - exact (proj2 (get_valid_moves_forward_only Idx1 (pawn_at 3 3) ∅)
             3 3 eq_refl eq_refl eq_refl).
  - exact (proj1 (get_valid_moves_forward_only Idx0 escaped_pawn ∅) eq_refl).
Defined.

(** C7.  In a state whose phase is [PLAYING], with no winner set, no player
    having seven escaped pawns, and neither player able to move any pawn,
    [switch_turn] sets the stalemate flag, sets the phase to [GAME_OVER]
    and leaves the winner [None]. *)
Theorem switch_turn_declares_stalemate (s : GameState) :
  phase s = PLAYING →
  winner s = None →
  check_victory s = None →
  can_player_move s Idx0 = false →
  can_player_move s Idx1 = false →
  stalemate (switch_turn s).2 = true
  ∧ phase (switch_turn s).2 = GAME_OVER
  ∧ winner (switch_turn s).2 = None.
Proof.
  intros Hp Hw Hv H0 H1. rewrite (switch_turn_stalemate s Hp Hv H0 H1).
  cbn. done.
Qed.

Lemma switch_turn_declares_stalemate_witness :
  phase corner_block = PLAYING
  ∧ can_player_move corner_block Idx0 = false
  ∧ can_player_move corner_block Idx1 = false
  ∧ stalemate (switch_turn corner_block).2 = true
  ∧ phase (switch_turn corner_block).2 = GAME_OVER
  ∧ winner (switch_turn corner_block).2 = None.
Proof.
  split; [reflexivity|]. split; [reflexivity|]. split; [reflexivity|].
  apply (switch_turn_declares_stalemate corner_block); reflexivity.
Defined.

(** C8.  After the 110 calls of [last_exit_script], all of which return
    [True], player 1 is to act, six of its pawns have escaped, the seventh
    stands on its escape cell (1,0) and nobody has won.  [escape_pawn] of
    that pawn returns [True]; afterwards [check_victory] returns player 1,
    the winner is player 1 and the phase is [GAME_OVER], but the turn
    index is with player 2: the call passes the turn on before it checks
    for victory.  [switch_turn], applied to the state the call has built
    when it comes to these lines (the pawn escaped, its cell emptied),
    checks for victory first: it sets the same winner and phase and leaves
    the turn index with player 1.  Likewise in a state built directly
    with the seven pawns of player 1 escaped and player 2 to act:
    [check_victory] returns player 1; [switch_turn] sets player 1 as
    winner, the phase to [GAME_OVER] and leaves the turn index with
    player 2, while a successful [move_pawn] of player 2 sets the same
    winner and phase and moves the turn index to player 1. *)
Theorem victory_commit_passes_the_turn :
  (let s := before_last_exit in
   let s' := (escape_pawn s pawn_g).2 in
   let mid :=
     set_pawn pawn_g (Pawn.escape (get_pawn s pawn_g))
       (set_board (Board.remove_pawn (board s) 1 0).2 s) in
   reachable s
   ∧ phase s = PLAYING
   ∧ current_player_index s = Idx0
   ∧ length (Player.get_escaped_pawns (players s Idx0)) = 6%nat
   ∧ Pawn.get_position (get_pawn s pawn_g) = Some (1, 0)
   ∧ check_victory s = None
   ∧ (escape_pawn s pawn_g).1 = true
   ∧ s' = flip_and_check mid
   ∧ Player.has_won (players s' Idx0) = true
   ∧ check_victory s' = Some Idx0
   ∧ winner s' = Some Idx0
   ∧ phase s' = GAME_OVER
   ∧ current_player_index s' = Idx1
   ∧ check_victory mid = Some Idx0
   ∧ (switch_turn mid).1 = (false, None)
   ∧ winner (switch_turn mid).2 = Some Idx0
   ∧ phase (switch_turn mid).2 = GAME_OVER
   ∧ current_player_index (switch_turn mid).2 = Idx0)
  ∧ (let s := pending_win_other_turn in
     Player.has_won (players s Idx0) = true
     ∧ phase s = PLAYING
     ∧ current_player_index s = Idx1
     ∧ check_victory s = Some Idx0
     ∧ winner (switch_turn s).2 = Some Idx0
     ∧ phase (switch_turn s).2 = GAME_OVER
     ∧ current_player_index (switch_turn s).2 = Idx1
     ∧ (move_pawn s pawn_b 2 3).1 = true
     ∧ winner (move_pawn s pawn_b 2 3).2 = Some Idx0
     ∧ phase (move_pawn s pawn_b 2 3).2 = GAME_OVER
     ∧ current_player_index (move_pawn s pawn_b 2 3).2 = Idx0).
Proof.
  cbv zeta. split; [split|].
  - exists last_exit_script. reflexivity.
  - vm_compute. repeat split.
  - vm_compute. repeat split.
Qed.

(** C9.  Whatever the state before, after [reset_game] every cell of the
    board is empty, each player has seven pawns, all of them unplaced (no
    position, escaped flag cleared), the phase is [PLAYING], the current
    player is player 1, the winner is [None], the stalemate flag is false,
    and the two skip fields and the selected pawn are cleared. *)
Theorem reset_game_restores_initial_state (s : GameState) :
  let s' := reset_game s in
  (∀ x y, Board.get_pawn_at_intersection (board s') x y = None)
  ∧ (∀ x y, Board.is_valid_position x y = true →
            Board.is_intersection_empty (board s') x y = true)
  ∧ (∀ i, Player.get_pawns (players s' i) = replicate 7 (mkPawn None false)
          ∧ Player.get_unplaced_pawns (players s' i)
            = Player.get_pawns (players s' i)
          ∧ Player.get_pawns_on_board (players s' i) = []
          ∧ Player.get_escaped_pawns (players s' i) = [])
  ∧ phase s' = PLAYING
  ∧ current_player_index s' = Idx0
  ∧ player_id (get_current_player s') = 1
  ∧ winner s' = None
  ∧ stalemate s' = false
  ∧ turn_skipped s' = false
  ∧ skipped_player_id s' = None
  ∧ selected_pawn s' = None.
Proof.
  cbv zeta. rewrite reset_game_eq.
  cbn [board phase current_player_index winner stalemate turn_skipped
       skipped_player_id selected_pawn get_current_player].
  split_and!; try reflexivity.
  - intros x y. unfold Board.get_pawn_at_intersection.
    destruct (Board.is_valid_position x y) eqn:Hv; cbn [negb]; [|done].
    by apply clear_board_empty.
  - intros x y Hv. unfold Board.is_intersection_empty. rewrite Hv. cbn [negb].
    apply bool_decide_eq_true. by apply clear_board_empty.
  - intros []; done.
Qed.

(** C10.  [switch_turn] on a state whose phase is [PLAYING] and in which
    neither player has a pawn on the board declares a stalemate: the
    stalemate flag becomes true, the phase [GAME_OVER], and the winner is
    not touched.  This holds for every such state in which no player has
    seven escaped pawns, hence for every such state of a game that started
    fresh, where the winner is [None]; in particular right after
    construction and right after [reset_game], when both players hold seven
    unplaced pawns. *)
Theorem switch_turn_without_pawns_on_board :
  (∀ s, phase s = PLAYING → check_victory s = None → no_pawn_on_board s →
        stalemate (switch_turn s).2 = true
        ∧ phase (switch_turn s).2 = GAME_OVER
        ∧ winner (switch_turn s).2 = winner s)
  ∧ (∀ s, reachable s → phase s = PLAYING → no_pawn_on_board s →
          stalemate (switch_turn s).2 = true
          ∧ phase (switch_turn s).2 = GAME_OVER
          ∧ winner (switch_turn s).2 = None)
  ∧ (stalemate (switch_turn init).2 = true
     ∧ phase (switch_turn init).2 = GAME_OVER
     ∧ winner (switch_turn init).2 = None)
  ∧ (∀ s, stalemate (switch_turn (reset_game s)).2 = true
          ∧ phase (switch_turn (reset_game s)).2 = GAME_OVER
          ∧ winner (switch_turn (reset_game s)).2 = None).
Proof.
  assert (∀ s, phase s = PLAYING → check_victory s = None →
               no_pawn_on_board s →
               stalemate (switch_turn s).2 = true
               ∧ phase (switch_turn s).2 = GAME_OVER
               ∧ winner (switch_turn s).2 = winner s) as General.
  { intros s Hp Hv Hn.
    rewrite (switch_turn_stalemate s Hp Hv);
      [done| apply can_move_any_pawn_none_on_board, Hn
           | apply can_move_any_pawn_none_on_board, Hn]. }
  split; [exact General|]. split; [|split].
  - intros s Hr Hp Hn. destruct (reachable_pending s Hr Hp) as [Hv Hw].
    rewrite <- Hw. by apply General.
  - apply (General init); [done|done|]. intros []; reflexivity.
  - intros s. rewrite reset_game_eq.
    match goal with |- context [switch_turn ?t] =>
      apply (General t); [done|done|intros []; reflexivity] end.
Qed.

Lemma switch_turn_without_pawns_on_board_witness :
  phase init = PLAYING
  ∧ reachable init
  ∧ Player.get_unplaced_pawns (players init Idx0) = replicate 7 unplaced_pawn
  ∧ Player.get_unplaced_pawns (players init Idx1) = replicate 7 unplaced_pawn
  ∧ stalemate (switch_turn init).2 = true
  ∧ phase (switch_turn init).2 = GAME_OVER
  ∧ winner (switch_turn init).2 = None.
Proof.
  split; [reflexivity|]. split; [exists []; reflexivity|].
  split; [reflexivity|]. split; [reflexivity|].
  apply (proj1 (proj2 switch_turn_without_pawns_on_board) init);
    [exists []; reflexivity|reflexivity|].
  intros []; reflexivity.
Defined.

(** * Further properties of the code *)

(** ** The board, cell by cell *)

Section board_extras.
Implicit Types (b : Intersections) (x y : Z) (pawn : PawnRef).

Lemma get_pawn_at_intersection_lookup b x y :
  Board.is_valid_position x y = true →
  Board.get_pawn_at_intersection b x y = b !! (x, y).
Proof. intros H. unfold Board.get_pawn_at_intersection. by rewrite H. Qed.

Lemma is_intersection_empty_spec b x y :
  Board.is_intersection_empty b x y = true ↔
  Board.is_valid_position x y = true ∧ b !! (x, y) = None.
Proof.
  unfold Board.is_intersection_empty.
  destruct (Board.is_valid_position x y); cbn [negb].
  - rewrite bool_decide_eq_true. tauto.
  - split; [discriminate|intros [? _]; discriminate].
Qed.

Lemma board_place_pawn_effect b pawn x y :
  (Board.place_pawn b pawn x y).1 = Board.is_intersection_empty b x y
  ∧ (Board.is_intersection_empty b x y = true →
       let b' := (Board.place_pawn b pawn x y).2 in
       Board.get_pawn_at_intersection b' x y = Some pawn
       ∧ Board.is_intersection_empty b' x y = false
       ∧ ∀ x' y', (x', y') ≠ (x, y) →
           Board.get_pawn_at_intersection b' x' y'
           = Board.get_pawn_at_intersection b x' y')
  ∧ (Board.is_intersection_empty b x y = false →
       (Board.place_pawn b pawn x y).2 = b).
Proof.
  unfold Board.place_pawn.
  destruct (Board.is_intersection_empty b x y) eqn:He.
  - apply is_intersection_empty_spec in He as He'. destruct He' as [Hv Hn].
    rewrite Hv. cbn [negb orb fst snd]. split; [done|]. split; [|done].
    intros _. cbv zeta. split; [|split].
    + rewrite get_pawn_at_intersection_lookup by done. apply lookup_insert_eq.
    + unfold Board.is_intersection_empty. rewrite Hv. cbn [negb].
      apply bool_decide_eq_false. by rewrite lookup_insert_eq.
    + intros x' y' Hne. unfold Board.get_pawn_at_intersection.
      destruct (Board.is_valid_position x' y'); cbn [negb]; [|done].
      by rewrite lookup_insert_ne.
  - rewrite orb_true_r. cbn. done.
Qed.

Lemma board_place_then_remove b pawn x y b' :
  Board.place_pawn b pawn x y = (true, b') →
  Board.remove_pawn b' x y = (Some pawn, b).
Proof.
  unfold Board.place_pawn, Board.remove_pawn.
  destruct (Board.is_intersection_empty b x y) eqn:He;
    [|rewrite orb_true_r; discriminate].
  apply is_intersection_empty_spec in He as [Hv Hn]. rewrite Hv.
  cbn [negb orb]. intros [= <-].
  rewrite lookup_insert_eq, delete_insert_eq. f_equal. by apply delete_id.
Qed.

Lemma board_move_pawn_ok b fx fy tx ty :
  (Board.move_pawn b fx fy tx ty).1 =
    Board.is_valid_position fx fy
    && bool_decide (b !! (fx, fy) ≠ None)
    && Board.is_intersection_empty b tx ty.
Proof.
  unfold Board.move_pawn.
  destruct (Board.is_valid_position fx fy); cbn [negb orb andb]; [|done].
  destruct (Board.is_intersection_empty b tx ty) eqn:He.
  - apply is_intersection_empty_spec in He as [-> _]. cbn [negb orb].
    destruct (b !! (fx, fy)) eqn:Hf.
    + rewrite bool_decide_false by done. by rewrite bool_decide_true.
    + rewrite bool_decide_true by done. by rewrite bool_decide_false by tauto.
  - rewrite !orb_true_r, andb_false_r. done.
Qed.

Lemma board_move_pawn_effect b fx fy tx ty :
  let ok := (Board.move_pawn b fx fy tx ty).1 in
  let b' := (Board.move_pawn b fx fy tx ty).2 in
  (ok = true ↔
     Board.is_valid_position fx fy = true
     ∧ Board.get_pawn_at_intersection b fx fy ≠ None
     ∧ Board.is_intersection_empty b tx ty = true)
  ∧ (ok = true →
       Board.get_pawn_at_intersection b' tx ty
       = Board.get_pawn_at_intersection b fx fy
       ∧ Board.is_intersection_empty b' fx fy = true
       ∧ (∀ x y, (x, y) ≠ (fx, fy) → (x, y) ≠ (tx, ty) →
            Board.get_pawn_at_intersection b' x y
            = Board.get_pawn_at_intersection b x y)
       ∧ size b' = size b)
  ∧ (ok = false → b' = b).
Proof.
  cbv zeta. rewrite board_move_pawn_ok. split; [|split].
  - rewrite !andb_true_iff, bool_decide_eq_true. split.
    + intros [[Hv Ho] He]. by rewrite get_pawn_at_intersection_lookup.
    + intros (Hv & Ho & He). by rewrite get_pawn_at_intersection_lookup in Ho.
  - rewrite !andb_true_iff, bool_decide_eq_true. intros [[Hv Ho] He].
    apply is_intersection_empty_spec in He as He'. destruct He' as [Hvt Hn].
    destruct (b !! (fx, fy)) as [r|] eqn:Hf; [|done].
    assert ((tx, ty) ≠ (fx, fy)) as Hne by congruence.
    assert (Board.move_pawn b fx fy tx ty
            = (true, <[(tx, ty) := r]> (delete (fx, fy) b))) as ->.
    { unfold Board.move_pawn. rewrite Hv, Hvt, He, Hf. cbn [negb orb].
      by rewrite bool_decide_false. }
    cbn [snd]. split_and!.
    + rewrite !get_pawn_at_intersection_lookup by done.
      by rewrite lookup_insert_eq.
    + apply is_intersection_empty_spec. split; [done|].
      rewrite lookup_insert_ne by done. apply lookup_delete_eq.
    + intros x y H1 H2. unfold Board.get_pawn_at_intersection.
      destruct (Board.is_valid_position x y); cbn [negb]; [|done].
      by rewrite lookup_insert_ne, lookup_delete_ne.
    + rewrite map_size_insert_None by (by rewrite lookup_delete_ne).
      rewrite map_size_delete_Some by (by rewrite Hf).
      assert (size b ≠ 0%nat); [|lia].
      intros H0. apply map_size_empty_inv in H0. subst b.
      by rewrite lookup_empty in Hf.
  - intros Hok. unfold Board.move_pawn.
    destruct (Board.is_valid_position fx fy); cbn [negb orb]; [|done].
    destruct (Board.is_valid_position tx ty); cbn [negb orb]; [|done].
    destruct (b !! (fx, fy)) eqn:Hf.
    + rewrite bool_decide_false by done. cbn [orb].
      destruct (Board.is_intersection_empty b tx ty); [|done].
      rewrite bool_decide_true in Hok by done. done.
    + by rewrite bool_decide_true.
Qed.

Lemma board_move_there_and_back b fx fy tx ty b' :
  Board.move_pawn b fx fy tx ty = (true, b') →
  Board.move_pawn b' tx ty fx fy = (true, b).
Proof.
  intros H.
  assert ((Board.move_pawn b fx fy tx ty).1 = true) as Hok by (by rewrite H).
  rewrite board_move_pawn_ok, !andb_true_iff in Hok. destruct Hok as [[Hvf _] _].
  apply board_move_pawn_true in H as (r & Hf & He & ->).
  apply is_intersection_empty_spec in He as He'. destruct He' as [Hvt Hn].
  assert ((tx, ty) ≠ (fx, fy)) as Hne by congruence.
  unfold Board.move_pawn. rewrite Hvt, Hvf. cbn [negb orb].
  rewrite lookup_insert_eq. rewrite bool_decide_false by done. cbn [orb].
  assert (Board.is_intersection_empty
            (<[(tx, ty):=r]> (delete (fx, fy) b)) fx fy = true) as ->.
  { apply is_intersection_empty_spec. split; [done|].
    rewrite lookup_insert_ne by done. apply lookup_delete_eq. }
  cbn [negb]. f_equal. apply map_eq. intros c.
  destruct (decide (c = (fx, fy))) as [->|H1].
  - by rewrite lookup_insert_eq.
  - rewrite lookup_insert_ne by done.
    destruct (decide (c = (tx, ty))) as [->|H2].
    + by rewrite lookup_delete_eq.
    + by rewrite lookup_delete_ne, lookup_insert_ne, lookup_delete_ne.
Qed.
(** X1.  [Board.place_pawn] succeeds exactly on a cell of the grid that is
    empty.  After a success the cell holds the pawn and is no longer
    empty, every other cell reads as before, and [remove_pawn] on the cell
    hands the pawn back and restores the board.  A failed call leaves the
    board as it was. *)
Theorem board_place_pawn_spec b pawn x y :
  let ok := (Board.place_pawn b pawn x y).1 in
  let b' := (Board.place_pawn b pawn x y).2 in
  ok = Board.is_intersection_empty b x y
  ∧ (ok = true →
     Board.get_pawn_at_intersection b' x y = Some pawn
     ∧ Board.is_intersection_empty b' x y = false
     ∧ (∀ x' y', (x', y') ≠ (x, y) →
          Board.get_pawn_at_intersection b' x' y'
          = Board.get_pawn_at_intersection b x' y')
     ∧ Board.remove_pawn b' x y = (Some pawn, b))
  ∧ (ok = false → b' = b).
Proof.
  cbv zeta.
  destruct (board_place_pawn_effect b pawn x y) as (Hok & Hyes & Hno).
  split; [done|]. split.
  - intros E. pose proof E as E'. rewrite Hok in E'.
    destruct (Hyes E') as (H1 & H2 & H3).
    split; [done|]. split; [done|]. split; [done|].
    apply (board_place_then_remove b pawn).
    destruct (Board.place_pawn b pawn x y) as [ok b']. cbn [fst snd] in *.
    by rewrite E.
  - intros E. rewrite Hok in E. by apply Hno.
Qed.

(** X2.  [Board.move_pawn] succeeds exactly when the source is a cell of
    the grid that holds a pawn and the destination is an empty cell of
    the grid.  After a success the destination holds what the source
    held, the source is empty, every other cell reads as before, the
    number of pawns on the board is the same, and the move back restores
    the board.  A failed call leaves the board as it was. *)
Theorem board_move_pawn_spec b fx fy tx ty :
  let ok := (Board.move_pawn b fx fy tx ty).1 in
  let b' := (Board.move_pawn b fx fy tx ty).2 in
  (ok = true ↔
     Board.is_valid_position fx fy = true
     ∧ Board.get_pawn_at_intersection b fx fy ≠ None
     ∧ Board.is_intersection_empty b tx ty = true)
  ∧ (ok = true →
       Board.get_pawn_at_intersection b' tx ty
       = Board.get_pawn_at_intersection b fx fy
       ∧ Board.is_intersection_empty b' fx fy = true
       ∧ (∀ x y, (x, y) ≠ (fx, fy) → (x, y) ≠ (tx, ty) →
            Board.get_pawn_at_intersection b' x y
            = Board.get_pawn_at_intersection b x y)
       ∧ size b' = size b
       ∧ Board.move_pawn b' tx ty fx fy = (true, b))
  ∧ (ok = false → b' = b).
Proof.
  cbv zeta.
  destruct (board_move_pawn_effect b fx fy tx ty) as (Hiff & Hyes & Hno).
  cbv zeta in *. split; [done|]. split; [|done].
  intros E. destruct (Hyes E) as (H1 & H2 & H3 & H4).
  split; [done|]. split; [done|]. split; [done|]. split; [done|].
  apply board_move_there_and_back.
  destruct (Board.move_pawn b fx fy tx ty) as [ok b']. cbn [fst snd] in *.
  by rewrite E.
Qed.

End board_extras.

(** ** Adjacent intersections *)

Section adjacency.
Implicit Types (b : Intersections) (x y : Z) (c : Cell).

Lemma elem_of_if_singleton {A} (g : bool) (a c : A) :
  c ∈ (if g then [a] else []) ↔ g = true ∧ c = a.
Proof.
  destruct g.
  - rewrite list_elem_of_singleton. tauto.
  - rewrite elem_of_nil. split; [tauto|intros [? _]; discriminate].
Qed.

Lemma get_adjacent_intersections_invalid x y :
  Board.is_valid_position x y = false →
  Board.get_adjacent_intersections x y = [].
Proof. intros H. unfold Board.get_adjacent_intersections. by rewrite H. Qed.

Lemma elem_of_get_adjacent_intersections x y c :
  c ∈ Board.get_adjacent_intersections x y ↔
  Board.is_valid_position x y = true
  ∧ Board.is_valid_position c.1 c.2 = true
  ∧ Z.abs (c.1 - x) + Z.abs (c.2 - y) = 1.
Proof.
  destruct (Board.is_valid_position x y) eqn:Hv.
  - rewrite (get_adjacent_intersections_valid _ _ Hv).
    rewrite !elem_of_app, !elem_of_if_singleton. destruct c as [a d].
    cbn [fst snd]. split.
    + intros [[H E]|[[H E]|[[H E]|[H E]]]]; injection E as -> ->;
        (split; [done|split; [done|lia]]).
    + intros (_ & Hc & Hd).
      assert ((a = x ∧ d = y - 1) ∨ (a = x ∧ d = y + 1)
              ∨ (a = x - 1 ∧ d = y) ∨ (a = x + 1 ∧ d = y))
        as [[-> ->]|[[-> ->]|[[-> ->]|[-> ->]]]] by lia; tauto.
  - rewrite get_adjacent_intersections_invalid by done. rewrite elem_of_nil.
    split; [tauto|intros [? _]; discriminate].
Qed.

Lemma valid_up x y :
  Board.is_valid_position x y = true →
  Board.is_valid_position x (y - 1) = negb (y =? 0).
Proof. unfold Board.is_valid_position, Board.GRID_SIZE. lia. Qed.

Lemma valid_down x y :
  Board.is_valid_position x y = true →
  Board.is_valid_position x (y + 1) = negb (y =? 6).
Proof. unfold Board.is_valid_position, Board.GRID_SIZE. lia. Qed.

Lemma valid_left x y :
  Board.is_valid_position x y = true →
  Board.is_valid_position (x - 1) y = negb (x =? 0).
Proof. unfold Board.is_valid_position, Board.GRID_SIZE. lia. Qed.

Lemma valid_right x y :
  Board.is_valid_position x y = true →
  Board.is_valid_position (x + 1) y = negb (x =? 6).
Proof. unfold Board.is_valid_position, Board.GRID_SIZE. lia. Qed.

(** X3.  The adjacent intersections of a cell are the cells of the grid
    one step away in its row or column, and there are none for a cell
    off the grid; adjacency is symmetric, and the list holds no cell
    twice. *)
Theorem get_adjacent_intersections_spec x y :
  (∀ c, c ∈ Board.get_adjacent_intersections x y ↔
        Board.is_valid_position x y = true
        ∧ Board.is_valid_position c.1 c.2 = true
        ∧ Z.abs (c.1 - x) + Z.abs (c.2 - y) = 1)
  ∧ (∀ a d, (a, d) ∈ Board.get_adjacent_intersections x y ↔
            (x, y) ∈ Board.get_adjacent_intersections a d)
  ∧ NoDup (Board.get_adjacent_intersections x y).
Proof.
  split; [apply elem_of_get_adjacent_intersections|]. split.
  - intros a d. rewrite !elem_of_get_adjacent_intersections. cbn [fst snd].
    split; intros (? & ? & ?); (split; [done|split; [done|lia]]).
  - destruct (Board.is_valid_position x y) eqn:Hv.
    + rewrite (get_adjacent_intersections_valid _ _ Hv).
      destruct (Board.is_valid_position x (y - 1)),
        (Board.is_valid_position x (y + 1)),
        (Board.is_valid_position (x - 1) y),
        (Board.is_valid_position (x + 1) y); cbn [app];
        repeat (apply NoDup_cons; split;
                [rewrite ?elem_of_cons, ?elem_of_nil;
                 intros H; repeat destruct H as [H|H];
                 try (injection H; lia); done|]);
        apply NoDup_nil; done.
    + rewrite get_adjacent_intersections_invalid by done. apply NoDup_nil. done.
Qed.

(** X4.  A cell of the grid has four adjacent intersections, one less for
    each edge of the grid it lies on: two in a corner, three on an edge,
    four inside. *)
Theorem get_adjacent_intersections_count x y :
  Board.is_valid_position x y = true →
  length (Board.get_adjacent_intersections x y) =
    (4 - (if (x =? 0)%Z || (x =? 6)%Z then 1 else 0)
       - (if (y =? 0)%Z || (y =? 6)%Z then 1 else 0))%nat.
Proof.
  intros Hv. rewrite (get_adjacent_intersections_valid _ _ Hv).
  rewrite (valid_up _ _ Hv), (valid_down _ _ Hv), (valid_left _ _ Hv),
    (valid_right _ _ Hv).
  destruct (x =? 0) eqn:X0, (x =? 6) eqn:X6, (y =? 0) eqn:Y0, (y =? 6) eqn:Y6;
    cbn; try reflexivity; lia.
Qed.

Lemma get_adjacent_intersections_count_witness :
  Board.is_valid_position 0 3 = true
  ∧ length (Board.get_adjacent_intersections 0 3) = 3%nat.
Proof.
  split; [reflexivity|].
  exact (get_adjacent_intersections_count 0 3 eq_refl).
Defined.
End adjacency.

(** ** Starting and escape cells *)

Section edges.
Implicit Types (b : Intersections) (x y : Z) (c : Cell) (p q : PlayerIndex).

Lemma is_starting_position_spec x y p :
  Board.is_starting_position x y p = true ↔
  match p with
  | Idx0 => y = 6 ∧ 1 ≤ x ≤ 5
  | Idx1 => x = 6 ∧ 1 ≤ y ≤ 5
  end.
Proof.
  unfold Board.is_starting_position, Board.is_valid_position, Board.GRID_SIZE.
  destruct p; cbn [player_id];
    destruct (0 <=? x) eqn:?, (x <? 7) eqn:?, (0 <=? y) eqn:?, (y <? 7) eqn:?;
    cbn; lia.
Qed.

Lemma is_escape_position_spec x y p :
  Board.is_escape_position x y p = true ↔
  match p with
  | Idx0 => y = 0 ∧ 1 ≤ x ≤ 5
  | Idx1 => x = 0 ∧ 1 ≤ y ≤ 5
  end.
Proof.
  unfold Board.is_escape_position, Board.is_valid_position, Board.GRID_SIZE.
  destruct p; cbn [player_id];
    destruct (0 <=? x) eqn:?, (x <? 7) eqn:?, (0 <=? y) eqn:?, (y <? 7) eqn:?;
    cbn; lia.
Qed.

(** X5.  [get_all_starting_positions] and [get_all_escape_positions] list
    exactly the cells that [is_starting_position] and
    [is_escape_position] accept: for player 1 the five middle cells of the
    bottom row and of the top row, for player 2 the five middle cells of
    the right column and of the left column. *)
Theorem starting_and_escape_positions_enumerated p :
  (∀ c, c ∈ Board.get_all_starting_positions p ↔
        Board.is_starting_position c.1 c.2 p = true)
  ∧ (∀ c, c ∈ Board.get_all_escape_positions p ↔
          Board.is_escape_position c.1 c.2 p = true)
  ∧ Board.get_all_starting_positions p =
      match p with
      | Idx0 => [(1, 6); (2, 6); (3, 6); (4, 6); (5, 6)]
      | Idx1 => [(6, 1); (6, 2); (6, 3); (6, 4); (6, 5)]
      end
  ∧ Board.get_all_escape_positions p =
      match p with
      | Idx0 => [(1, 0); (2, 0); (3, 0); (4, 0); (5, 0)]
      | Idx1 => [(0, 1); (0, 2); (0, 3); (0, 4); (0, 5)]
      end.
Proof.
  split_and!.
  - intros [x y]. unfold Board.get_all_starting_positions.
    rewrite list_elem_of_filter. cbn [fst snd]. split; [tauto|].
    intros H. split; [done|]. apply all_cells_valid.
    unfold Board.is_starting_position in H.
    destruct (Board.is_valid_position x y); [done|discriminate].
  - intros [x y]. unfold Board.get_all_escape_positions.
    rewrite list_elem_of_filter. cbn [fst snd]. split; [tauto|].
    intros H. split; [done|]. apply all_cells_valid.
    unfold Board.is_escape_position in H.
    destruct (Board.is_valid_position x y); [done|discriminate].
  - destruct p; vm_compute; reflexivity.
  - destruct p; vm_compute; reflexivity.
Qed.

(** X6.  A starting cell of a player is an escape cell of no player; the
    two players share no starting cell and no escape cell; the escape
    cells of a player are its starting cells moved to the opposite edge;
    and the four corners are neither starting nor escape cells. *)
Theorem edges_are_disjoint_and_opposite x y p q :
  (Board.is_starting_position x y p = true →
   Board.is_escape_position x y q = false)
  ∧ (Board.is_starting_position x y p = true → p ≠ q →
     Board.is_starting_position x y q = false)
  ∧ (Board.is_escape_position x y p = true → p ≠ q →
     Board.is_escape_position x y q = false)
  ∧ Board.is_starting_position x 6 Idx0 = Board.is_escape_position x 0 Idx0
  ∧ Board.is_starting_position 6 y Idx1 = Board.is_escape_position 0 y Idx1
  ∧ (Board.is_starting_position x y p = true ∨
     Board.is_escape_position x y p = true →
     (x, y) ∉ [(0, 0); (0, 6); (6, 0); (6, 6)]).
Proof.
  split_and!.
  - intros H. apply not_true_is_false. intros H'.
    apply is_starting_position_spec in H. apply is_escape_position_spec in H'.
    destruct p, q; lia.
  - intros H Hne. apply not_true_is_false. intros H'.
    apply is_starting_position_spec in H, H'. destruct p, q; try done; lia.
  - intros H Hne. apply not_true_is_false. intros H'.
    apply is_escape_position_spec in H, H'. destruct p, q; try done; lia.
  - apply eq_true_iff_eq.
    rewrite is_starting_position_spec, is_escape_position_spec. lia.
  - apply eq_true_iff_eq.
    rewrite is_starting_position_spec, is_escape_position_spec. lia.
  - rewrite is_starting_position_spec, is_escape_position_spec.
    rewrite !elem_of_cons, elem_of_nil.
    intros H [E|[E|[E|[E|[]]]]]; injection E as -> ->; destruct p; lia.
Qed.
End edges.

(** ** Rosters *)

Section roster_extras.
Implicit Types (self : Player) (pawn : Pawn) (b : Intersections).

Lemma pawn_status_exclusive pawn :
  (Pawn.is_on_board pawn = true ∧ Pawn.is_escaped pawn = false
   ∧ negb (Pawn.is_on_board pawn) && negb (Pawn.is_escaped pawn) = false)
  ∨ (Pawn.is_on_board pawn = false ∧ Pawn.is_escaped pawn = true
     ∧ negb (Pawn.is_on_board pawn) && negb (Pawn.is_escaped pawn) = false)
  ∨ (Pawn.is_on_board pawn = false ∧ Pawn.is_escaped pawn = false
     ∧ negb (Pawn.is_on_board pawn) && negb (Pawn.is_escaped pawn) = true).
Proof.
  unfold Pawn.is_on_board, Pawn.is_escaped.
  destruct pawn as [[c|] []]; cbn; tauto.
Qed.

Lemma three_way_filter_length (l : list Pawn) :
  (length (filter (λ pawn, negb (Pawn.is_on_board pawn)
                           && negb (Pawn.is_escaped pawn) = true) l)
   + length (filter (λ pawn, Pawn.is_on_board pawn = true) l)
   + length (filter (λ pawn, Pawn.is_escaped pawn = true) l)
   = length l)%nat.
Proof.
  induction l as [|pawn l IH]; [done|].
  rewrite !filter_cons.
  destruct (pawn_status_exclusive pawn) as [(H1 & H2 & H3)|[(H1 & H2 & H3)|(H1 & H2 & H3)]];
    rewrite H3, H1, H2;
    repeat (first [rewrite decide_True by done | rewrite decide_False by done]);
    cbn [length]; lia.
Qed.

(** X7.  The unplaced pawns, the pawns on the board and the escaped pawns
    of a player make up the roster of seven, and no pawn is of two
    kinds. *)
Theorem roster_partition self :
  (length (Player.get_unplaced_pawns self)
   + length (Player.get_pawns_on_board self)
   + length (Player.get_escaped_pawns self))%nat = 7%nat
  ∧ (∀ pawn, pawn ∈ Player.get_pawns_on_board self →
             (pawn ∉ Player.get_escaped_pawns self)
             ∧ (pawn ∉ Player.get_unplaced_pawns self))
  ∧ (∀ pawn, pawn ∈ Player.get_escaped_pawns self →
             (pawn ∉ Player.get_unplaced_pawns self)).
Proof.
  unfold Player.get_unplaced_pawns, Player.get_pawns_on_board,
    Player.get_escaped_pawns, Player.get_pawns.
  split; [|split].
  - rewrite three_way_filter_length. apply length_vec_to_list.
  - intros pawn. rewrite !list_elem_of_filter. intros [Hon _].
    destruct (pawn_status_exclusive pawn) as [(H1 & H2 & H3)|[(H1 & H2 & H3)|(H1 & H2 & H3)]];
      split; intros [? _]; congruence.
  - intros pawn. rewrite !list_elem_of_filter. intros [He _].
    destruct (pawn_status_exclusive pawn) as [(H1 & H2 & H3)|[(H1 & H2 & H3)|(H1 & H2 & H3)]];
      intros [? _]; congruence.
Qed.

Lemma filter_length_all {A} (P : A → Prop) `{∀ a, Decision (P a)} (l : list A) :
  length (filter P l) = length l ↔ Forall P l.
Proof.
  induction l as [|a l IH]; [split; [constructor|done]|].
  rewrite filter_cons. pose proof (length_filter P l).
  destruct (decide (P a)); cbn [length].
  - rewrite Forall_cons. split.
    + intros E. split; [done|]. apply IH. lia.
    + intros [_ F]. f_equal. by apply IH.
  - split; [lia|]. intros F. apply Forall_cons in F as [? _]. done.
Qed.

Lemma filter_none {A} (P : A → Prop) `{∀ a, Decision (P a)} (l : list A) :
  Forall (λ a, ¬ P a) l → filter P l = [].
Proof.
  induction 1 as [|a l Ha _ IH]; [done|].
  rewrite filter_cons, decide_False by done. exact IH.
Qed.

(** X8.  [has_won] holds exactly when each of the seven pawns is escaped.
    The player then has no pawn on the board and none left to place, and
    [can_move_any_pawn] is false on every board. *)
Theorem has_won_iff_all_escaped self :
  (Player.has_won self = true ↔
   ∀ i : fin 7, Pawn.is_escaped (_pawns self !!! i) = true)
  ∧ (Player.has_won self = true →
     Player.get_pawns_on_board self = []
     ∧ Player.get_unplaced_pawns self = []
     ∧ ∀ me b, Player.can_move_any_pawn me self b = false).
Proof.
  assert (Player.has_won self = true ↔
          Forall (λ pawn, Pawn.is_escaped pawn = true) (Player.get_pawns self))
    as Hall.
  { unfold Player.has_won, Player.get_escaped_pawns.
    rewrite Nat.eqb_eq, <- filter_length_all.
    unfold Player.get_pawns. by rewrite length_vec_to_list. }
  split.
  - rewrite Hall. unfold Player.get_pawns. rewrite Forall_vlookup. done.
  - intros Hw. apply Hall in Hw.
    assert (Player.get_pawns_on_board self = []) as Hon.
    { unfold Player.get_pawns_on_board. apply filter_none.
      eapply Forall_impl; [exact Hw|]. intros pawn He.
      destruct (pawn_status_exclusive pawn)
        as [(H1 & H2 & H3)|[(H1 & H2 & H3)|(H1 & H2 & H3)]]; congruence. }
    split; [exact Hon|]. split.
    + unfold Player.get_unplaced_pawns. apply filter_none.
      eapply Forall_impl; [exact Hw|]. intros pawn He.
      destruct (pawn_status_exclusive pawn)
        as [(H1 & H2 & H3)|[(H1 & H2 & H3)|(H1 & H2 & H3)]]; congruence.
    + intros me b. by apply can_move_any_pawn_none_on_board.
Qed.

(** X9.  [get_pawn_at_position] returns a pawn of the roster that is on
    the board with the given position, and it returns [None] exactly
    when no pawn of the roster is on the board at that position. *)
Theorem get_pawn_at_position_spec self x y :
  (∀ pawn, Player.get_pawn_at_position self x y = Some pawn →
           pawn ∈ Player.get_pawns self
           ∧ Pawn.is_on_board pawn = true
           ∧ Pawn.get_position pawn = Some (x, y))
  ∧ (Player.get_pawn_at_position self x y = None ↔
     ∀ pawn, pawn ∈ Player.get_pawns self →
             Pawn.is_on_board pawn = true →
             Pawn.get_position pawn ≠ Some (x, y)).
Proof.
  unfold Player.get_pawn_at_position, Player.get_pawns_on_board. split.
  - intros pawn H. apply find_some in H as [Hin Hb].
    apply list_elem_of_In, list_elem_of_filter in Hin as [Hon Hin].
    apply bool_decide_eq_true in Hb. done.
  - split.
    + intros H pawn Hin Hon Hp.
      pose proof (find_none _ _ H pawn) as Hf. cbv beta in Hf.
      rewrite bool_decide_true in Hf by done.
      assert (true = false); [|done]. apply Hf.
      apply list_elem_of_In, list_elem_of_filter. done.
    + intros H.
      destruct (find _ _) as [pawn|] eqn:Hf; [|done].
      apply find_some in Hf as [Hin Hb].
      apply list_elem_of_In, list_elem_of_filter in Hin as [Hon Hin].
      apply bool_decide_eq_true in Hb. by destruct (H pawn Hin Hon).
Qed.

Lemma can_move_any_pawn_iff me self b :
  Player.can_move_any_pawn me self b = true ↔
  ∃ pawn, pawn ∈ Player.get_pawns self
          ∧ Pawn.is_on_board pawn = true
          ∧ Pawn.is_blocked me pawn b = false.
Proof.
  unfold Player.can_move_any_pawn, Player.get_pawns_on_board, Pawn.is_blocked.
  rewrite existsb_exists. split.
  - intros (pawn & Hin & Ht).
    apply list_elem_of_In, list_elem_of_filter in Hin as [Hon Hin].
    exists pawn. split; [done|]. split; [done|].
    destruct (Pawn.get_valid_moves me pawn b); [discriminate|done].
  - intros (pawn & Hin & Hon & Hb). exists pawn. split.
    + apply list_elem_of_In, list_elem_of_filter. done.
    + destruct (Pawn.get_valid_moves me pawn b); [discriminate|done].
Qed.
End roster_extras.

(** ** What a pawn may do *)

Section pawn_extras.
Implicit Types (self : Pawn) (b : Intersections) (x y : Z) (player : PlayerIndex).

Lemma elem_of_get_valid_moves player self b c :
  c ∈ Pawn.get_valid_moves player self b ↔
  ∃ x y, Pawn.is_on_board self = true
         ∧ _position self = Some (x, y)
         ∧ c ∈ Board.get_adjacent_intersections x y
         ∧ Board.is_intersection_empty b c.1 c.2 = true
         ∧ match player with Idx0 => c.2 < y | Idx1 => c.1 < x end.
Proof.
  unfold Pawn.get_valid_moves.
  destruct (Pawn.is_on_board self) eqn:Hon; cbn [negb].
  - destruct (_position self) as [[x y]|] eqn:Hp.
    + unfold Board.get_valid_moves_from_position.
      rewrite !list_elem_of_filter. split.
      * intros (Hd & He & Ha). exists x, y. split_and!; try done.
        destruct player; cbn in Hd; lia.
      * intros (x' & y' & _ & [= <- <-] & Ha & He & Hd). split_and!; try done.
        destruct player; cbn; lia.
    + rewrite elem_of_nil. split; [done|]. intros (? & ? & _ & ? & _). done.
  - rewrite elem_of_nil. split; [done|]. intros (? & ? & ? & _). done.
Qed.

Lemma can_move_to_elem_of player self b x y :
  Pawn.can_move_to player self b x y = true ↔
  (x, y) ∈ Pawn.get_valid_moves player self b.
Proof.
  unfold Pawn.can_move_to. destruct (Pawn.is_on_board self) eqn:Hon; cbn [negb].
  - apply bool_decide_eq_true.
  - rewrite get_valid_moves_off_board by done. rewrite elem_of_nil.
    split; [discriminate|done].
Qed.

Lemma can_move_to_source player self b x y :
  Pawn.can_move_to player self b x y = true →
  Pawn.is_on_board self = true
  ∧ Pawn.is_adjacent_to self x y = true
  ∧ Board.is_intersection_empty b x y = true
  ∧ Pawn.get_position self =
      Some (match player with Idx0 => (x, y + 1) | Idx1 => (x + 1, y) end).
Proof.
  rewrite can_move_to_elem_of, elem_of_get_valid_moves.
  intros (a & d & Hon & Hp & Ha & He & Hd). cbn [fst snd] in *.
  apply elem_of_get_adjacent_intersections in Ha as (_ & _ & Hdist).
  cbn [fst snd] in Hdist. split; [done|]. split; [|split; [done|]].
  - unfold Pawn.is_adjacent_to. rewrite Hon, Hp. cbn [negb]. lia.
  - unfold Pawn.get_position. rewrite Hp. f_equal.
    destruct player; f_equal; lia.
Qed.

(** X10.  [Pawn.can_move_to] holds exactly for the cells of
    [get_valid_moves].  When it holds the pawn is on the board, the cell
    is adjacent to it in the sense of [is_adjacent_to], it is empty, and
    the pawn stands one step behind it: below it for player 1, to its
    right for player 2.  [is_blocked] holds exactly when [can_move_to]
    fails for every cell. *)
Theorem can_move_to_implies player self b x y :
  (Pawn.can_move_to player self b x y = true ↔
   (x, y) ∈ Pawn.get_valid_moves player self b)
  ∧ (Pawn.can_move_to player self b x y = true →
     Pawn.is_on_board self = true
     ∧ Pawn.is_adjacent_to self x y = true
     ∧ Board.is_intersection_empty b x y = true
     ∧ Pawn.get_position self =
         Some (match player with Idx0 => (x, y + 1) | Idx1 => (x + 1, y) end))
  ∧ (Pawn.is_blocked player self b = true ↔
     ∀ x' y', Pawn.can_move_to player self b x' y' = false).
Proof.
  split; [apply can_move_to_elem_of|]. split; [apply can_move_to_source|].
  unfold Pawn.is_blocked. rewrite Nat.eqb_eq. split.
  - intros Hl x' y'. apply not_true_is_false. intros Hc.
    apply can_move_to_elem_of in Hc.
    destruct (Pawn.get_valid_moves player self b); [|discriminate].
    by apply elem_of_nil in Hc.
  - intros H. destruct (Pawn.get_valid_moves player self b) as [|[x' y'] l] eqn:E;
      [done|].
    specialize (H x' y'). exfalso. apply not_true_iff_false in H. apply H.
    apply can_move_to_elem_of. rewrite E. left.
Qed.
End pawn_extras.

Section pawn_move_to.
Implicit Types (self : Pawn) (b : Intersections) (x y : Z) (player : PlayerIndex).

(** X11.  [Pawn.move_to]: a failed call leaves the pawn and the board as
    they were.  A successful call was allowed by [can_move_to] and empties
    the cell the pawn stood on.  If the destination is an escape cell of
    the owner, the pawn ends escaped, without a position, and the
    destination is empty; otherwise the pawn stands at the destination,
    which holds what the source held. *)
Theorem pawn_move_to_spec player self b x y :
  let ok := (Pawn.move_to player self b x y).1.1 in
  let self' := (Pawn.move_to player self b x y).1.2 in
  let b' := (Pawn.move_to player self b x y).2 in
  (ok = false → self' = self ∧ b' = b)
  ∧ (ok = true →
     Pawn.can_move_to player self b x y = true
     ∧ ∃ fx fy,
         Pawn.get_position self = Some (fx, fy)
         ∧ Board.get_pawn_at_intersection b fx fy ≠ None
         ∧ Board.is_intersection_empty b' fx fy = true
         ∧ if Board.is_escape_position x y player
           then self' = mkPawn None true
                ∧ Board.is_intersection_empty b' x y = true
           else self' = mkPawn (Some (x, y)) false
                ∧ Board.get_pawn_at_intersection b' x y
                  = Board.get_pawn_at_intersection b fx fy).
Proof.
  cbv zeta. unfold Pawn.move_to.
  destruct (Pawn.can_move_to player self b x y) eqn:Hc; cbn [negb]; [|done].
  destruct (_position self) as [[fx fy]|] eqn:Hp; [|done].
  pose proof (board_move_pawn_effect b fx fy x y) as Hm. cbv zeta in Hm.
  destruct (Board.move_pawn b fx fy x y) as [[] b1] eqn:Hb; cbn [fst snd] in Hm;
    [|done].
  destruct Hm as (Hok & Hpost & _).
  destruct (proj1 Hok eq_refl) as (Hvf & Hocc & Het).
  destruct (Hpost eq_refl) as (Hto & Hfrom & Hother & _).
  assert ((x, y) ≠ (fx, fy)) as Hne.
  { intros [= -> ->]. apply is_intersection_empty_spec in Het as [_ Hn].
    rewrite get_pawn_at_intersection_lookup in Hocc by done. done. }
  assert (Board.is_valid_position x y = true) as Hvt
    by (by apply is_intersection_empty_valid in Het).
  destruct (Board.is_escape_position x y player) eqn:Hesc; cbn [fst snd].
  - split; [done|]. intros _. split; [done|]. exists fx, fy.
    unfold Board.remove_pawn. rewrite Hvt. cbn [negb snd].
    split; [done|]. split; [done|]. split; [|split; [done|]].
    + apply is_intersection_empty_spec in Hfrom as [_ Hn].
      apply is_intersection_empty_spec. split; [done|].
      rewrite lookup_delete_ne by done. done.
    + apply is_intersection_empty_spec. split; [done|]. apply lookup_delete_eq.
  - split; [done|]. intros _. split; [done|]. exists fx, fy. done.
Qed.
End pawn_move_to.

(** ** More on [switch_turn] *)

Section switch_turn_extras.
Implicit Types (s : GameState).

Lemma switch_turn_passes_turn s :
  phase s = PLAYING →
  check_victory s = None →
  can_player_move s (next_index (current_player_index s)) = true →
  switch_turn s =
    ((false, None),
     mkGameState (players_0 s) (players_1 s) (board s) PLAYING
       (next_index (current_player_index s)) None (winner s) false None
       (stalemate s)).
Proof.
  destruct s as [p0 p1 b ph i sel w ts sk stl]. cbn.
  intros -> Hv Hc. unfold switch_turn, check_victory in *. cbn in *.
  rewrite Hv. unfold can_player_move in *. cbn in *.
  destruct i; cbn in *; rewrite Hc; reflexivity.
Qed.

Lemma switch_turn_skips_blocked_player s :
  phase s = PLAYING →
  check_victory s = None →
  can_player_move s (next_index (current_player_index s)) = false →
  can_player_move s (current_player_index s) = true →
  switch_turn s =
    ((true, Some (player_id (next_index (current_player_index s)))),
     mkGameState (players_0 s) (players_1 s) (board s) PLAYING
       (current_player_index s) None (winner s) true
       (Some (player_id (next_index (current_player_index s))))
       (stalemate s)).
Proof.
  destruct s as [p0 p1 b ph i sel w ts sk stl]. cbn.
  intros -> Hv Hn Hc. unfold switch_turn, check_victory in *. cbn in *.
  rewrite Hv. unfold can_player_move in *. cbn in *.
  destruct i; cbn in *; rewrite Hn; cbn; rewrite Hc; reflexivity.
Qed.

(** X12.  While the game is on and nobody has won, [switch_turn] hands the
    turn to the other player if that player can move: it returns
    [(False, None)], clears the selection and both skip fields and
    changes nothing else.  If the other player cannot move but the
    current one can, the turn stays: it returns [(True, id)] with the id
    of the other player and records the skip in [turn_skipped] and
    [skipped_player_id]. *)
Theorem switch_turn_passes_or_skips s :
  phase s = PLAYING →
  check_victory s = None →
  (can_player_move s (next_index (current_player_index s)) = true →
   switch_turn s =
     ((false, None),
      mkGameState (players_0 s) (players_1 s) (board s) PLAYING
        (next_index (current_player_index s)) None (winner s) false None
        (stalemate s)))
  ∧ (can_player_move s (next_index (current_player_index s)) = false →
     can_player_move s (current_player_index s) = true →
     switch_turn s =
       ((true, Some (player_id (next_index (current_player_index s)))),
        mkGameState (players_0 s) (players_1 s) (board s) PLAYING
          (current_player_index s) None (winner s) true
          (Some (player_id (next_index (current_player_index s))))
          (stalemate s))).
Proof.
  intros Hph Hv. split.
  - by apply switch_turn_passes_turn.
  - by apply switch_turn_skips_blocked_player.
Qed.

Lemma switch_turn_passes_or_skips_witness :
  phase before_block = PLAYING
  ∧ check_victory before_block = None
  ∧ (can_player_move before_block
       (next_index (current_player_index before_block)) = true →
     switch_turn before_block =
       ((false, None),
        mkGameState (players_0 before_block) (players_1 before_block)
          (board before_block) PLAYING
          (next_index (current_player_index before_block)) None
          (winner before_block) false None (stalemate before_block)))
  ∧ (can_player_move before_block
       (next_index (current_player_index before_block)) = false →
     can_player_move before_block (current_player_index before_block) = true →
     switch_turn before_block =
       ((true,
         Some (player_id (next_index (current_player_index before_block)))),
        mkGameState (players_0 before_block) (players_1 before_block)
          (board before_block) PLAYING
          (current_player_index before_block) None (winner before_block) true
          (Some (player_id (next_index (current_player_index before_block))))
          (stalemate before_block))).
Proof.
  split; [vm_compute; reflexivity|]. split; [vm_compute; reflexivity|].
  apply (switch_turn_passes_or_skips before_block); vm_compute; reflexivity.
Defined.

Lemma skip_scan_stalemate fuel pc checked s :
  let r := (skip_scan fuel pc checked s).2 in
  phase r = PLAYING → stalemate r = stalemate s.
Proof.
  revert pc checked s. induction fuel as [|fuel IH]; intros pc checked s;
    cbn [skip_scan]; [done|].
  destruct (pc <? len_players)%nat; [|done].
  case_bool_decide; [cbn; done|].
  destruct (can_player_move s (get_current_player s)); [done|].
  cbv zeta. intros Hr. by rewrite IH.
Qed.

(** X13.  [switch_turn] never touches the board or a roster.  Called while
    the game is on it clears the selection; and if the game is still on
    after the call, the winner and the stalemate flag are as before. *)
Theorem switch_turn_moves_no_pawn s :
  let s' := (switch_turn s).2 in
  board s' = board s
  ∧ players_0 s' = players_0 s
  ∧ players_1 s' = players_1 s
  ∧ (phase s = PLAYING → selected_pawn s' = None)
  ∧ (phase s' = PLAYING →
     phase s = PLAYING ∧ winner s' = winner s ∧ stalemate s' = stalemate s).
Proof.
  cbv zeta. destruct (switch_turn_frame s) as (F0 & F1 & Fb).
  split; [done|]. split; [done|]. split; [done|]. split.
  - intros Hp. unfold switch_turn. rewrite Hp. cbv zeta.
    destruct (check_victory _); [done|]. simpl_fields. rewrite Hp.
    match goal with |- context [skip_scan ?f ?pc ?c ?t] =>
      pose proof (skip_scan_frame f pc c t) as F;
      destruct (skip_scan f pc c t) as [[e n] r] end.
    cbn in F. destruct F as (_ & _ & _ & _ & Fs & _).
    destruct e; try destruct (len_players <=? n)%nat; cbn; done.
  - intros Hp. destruct (switch_turn_playing s Hp) as (Hp' & _ & Hw).
    split; [done|]. split; [done|].
    revert Hp. unfold switch_turn. rewrite Hp'. cbv zeta.
    destruct (check_victory _); [done|]. simpl_fields. rewrite Hp'.
    match goal with |- context [skip_scan ?f ?pc ?c ?t] =>
      pose proof (skip_scan_stalemate f pc c t) as F;
      destruct (skip_scan f pc c t) as [[e n] r] end.
    cbn in F.
    destruct e; try destruct (len_players <=? n)%nat; cbn; try done; auto.
Qed.

(** X14.  Once the phase is [GAME_OVER] only [reset_game] gets the game
    going again: after any other call the phase is still [GAME_OVER], and
    [move_pawn], [escape_pawn] and [switch_turn] change nothing at
    all. *)
Theorem game_over_is_final s (c : Call) :
  phase s = GAME_OVER →
  c ≠ CallReset →
  phase (call s c) = GAME_OVER
  ∧ (match c with CallPlace _ _ _ => True | _ => call s c = s end).
Proof.
  intros Hp Hc. destruct c as [pawn x y|pawn x y|pawn| |]; cbn [call];
    try done.
  - split; [|done]. destruct (place_pawn s pawn x y).1 eqn:E.
    + destruct (place_pawn_success s pawn x y E) as (_ & _ & _ & ->).
      unfold flip_and_check. destruct (check_victory _); [done|].
      simpl_fields. destruct pawn as [[] n]; exact Hp.
    + by rewrite place_pawn_rejected.
  - unfold move_pawn. rewrite Hp. by rewrite bool_decide_true.
  - unfold escape_pawn. rewrite Hp. by rewrite bool_decide_true.
  - by rewrite switch_turn_game_over.
Qed.

Lemma game_over_is_final_witness :
  phase corner_block_over = GAME_OVER
  ∧ CallSwitchTurn ≠ CallReset
  ∧ phase (call corner_block_over CallSwitchTurn) = GAME_OVER
  ∧ call corner_block_over CallSwitchTurn = corner_block_over.
Proof.
  split; [reflexivity|]. split; [discriminate|].
  apply (game_over_is_final corner_block_over CallSwitchTurn);
    [reflexivity|discriminate].
Defined.
End switch_turn_extras.

(** ** The three actions, in full *)

Section action_contracts.
Implicit Types (s t : GameState) (pawn r : PawnRef) (x y : Z).

Lemma flip_and_check_fields t :
  let s' := flip_and_check t in
  current_player_index s' = next_index (current_player_index t)
  ∧ selected_pawn s' = selected_pawn t
  ∧ turn_skipped s' = turn_skipped t
  ∧ skipped_player_id s' = skipped_player_id t
  ∧ stalemate s' = stalemate t
  ∧ (winner s', phase s') =
      match check_victory s' with
      | Some w => (Some w, GAME_OVER)
      | None => (winner t, phase t)
      end.
Proof.
  cbv zeta. rewrite check_victory_flip_and_check.
  destruct (check_victory t) as [w|] eqn:Hv.
  - by rewrite (flip_and_check_victory t w Hv).
  - by rewrite (flip_and_check_no_victory t Hv).
Qed.

Lemma fields_set_pawn r p b s :
  let t := set_pawn r p (set_board b s) in
  current_player_index t = current_player_index s
  ∧ selected_pawn t = selected_pawn s
  ∧ turn_skipped t = turn_skipped s
  ∧ skipped_player_id t = skipped_player_id s
  ∧ stalemate t = stalemate s
  ∧ winner t = winner s ∧ phase t = phase s ∧ board t = b.
Proof. destruct r as [[] n]; done. Qed.

Lemma action_tail s pawn p b :
  let s' := flip_and_check (set_pawn pawn p (set_board b s)) in
  get_pawn s' pawn = p
  ∧ board s' = b
  ∧ (∀ r, r ≠ pawn → get_pawn s' r = get_pawn s r)
  ∧ current_player_index s' = next_index (current_player_index s)
  ∧ selected_pawn s' = selected_pawn s
  ∧ turn_skipped s' = turn_skipped s
  ∧ skipped_player_id s' = skipped_player_id s
  ∧ stalemate s' = stalemate s
  ∧ (winner s', phase s') =
      match check_victory s' with
      | Some w => (Some w, GAME_OVER)
      | None => (winner s, phase s)
      end.
Proof.
  cbv zeta. set (t := set_pawn pawn p (set_board b s)).
  pose proof (flip_and_check_fields t) as (Fi & Fsel & Fts & Fsk & Fst & Fw).
  pose proof (fields_set_pawn pawn p b s)
    as (Gi & Gsel & Gts & Gsk & Gst & Gw & Gp & Gb).
  cbv zeta in *. fold t in Gi, Gsel, Gts, Gsk, Gst, Gw, Gp, Gb.
  split_and!.
  - rewrite get_pawn_flip_and_check. apply get_pawn_set_pawn_same.
  - by rewrite board_flip_and_check.
  - intros r Hr. rewrite get_pawn_flip_and_check.
    unfold t. by rewrite get_pawn_set_pawn_other, get_pawn_set_board.
  - by rewrite Fi, Gi.
  - by rewrite Fsel, Gsel.
  - by rewrite Fts, Gts.
  - by rewrite Fsk, Gsk.
  - by rewrite Fst, Gst.
  - by rewrite Fw, Gw, Gp.
Qed.

(** X15.  [GameState.place_pawn] succeeds exactly when the pawn belongs to
    the player to act and the cell is an empty starting cell of that
    player.  A success puts the pawn on that cell, on the board and in
    the pawn, touches no other cell and no other pawn, passes the turn
    index on, leaves the selection, the skip fields and the stalemate
    flag alone, and ends the game with a winner exactly when
    [check_victory] then finds one. *)
Theorem place_pawn_contract s pawn x y :
  let ok := (place_pawn s pawn x y).1 in
  let s' := (place_pawn s pawn x y).2 in
  (ok = true ↔
     ref_player pawn = current_player_index s
     ∧ Board.is_starting_position x y (ref_player pawn) = true
     ∧ Board.is_intersection_empty (board s) x y = true)
  ∧ (ok = true →
     get_pawn s' pawn = mkPawn (Some (x, y)) false
     ∧ Board.get_pawn_at_intersection (board s') x y = Some pawn
     ∧ (∀ x' y', (x', y') ≠ (x, y) →
          Board.get_pawn_at_intersection (board s') x' y'
          = Board.get_pawn_at_intersection (board s) x' y')
     ∧ (∀ r, r ≠ pawn → get_pawn s' r = get_pawn s r)
     ∧ current_player_index s' = next_index (current_player_index s)
     ∧ selected_pawn s' = selected_pawn s
     ∧ turn_skipped s' = turn_skipped s
     ∧ skipped_player_id s' = skipped_player_id s
     ∧ stalemate s' = stalemate s
     ∧ (winner s', phase s') =
         match check_victory s' with
         | Some w => (Some w, GAME_OVER)
         | None => (winner s, phase s)
         end).
Proof.
  cbv zeta. split.
  - split.
    + intros E. destruct (place_pawn_success s pawn x y E) as (? & ? & ? & _).
      done.
    + intros (Ho & Hs & He). unfold place_pawn, get_current_player.
      rewrite bool_decide_false by (intros H; by apply H).
      rewrite Hs. cbn [negb]. unfold Board.place_pawn.
      rewrite He, (is_intersection_empty_valid _ _ _ He). done.
  - intros E. destruct (place_pawn_success s pawn x y E) as (_ & _ & He & ->).
    destruct (action_tail s pawn (mkPawn (Some (x, y)) false)
                (<[(x, y) := pawn]> (board s))) as (Hg & Hb & Hrest).
    pose proof (is_intersection_empty_valid _ _ _ He) as Hv.
    split; [done|]. rewrite Hb. split; [|split; [|done]].
    + rewrite get_pawn_at_intersection_lookup by done. apply lookup_insert_eq.
    + intros x' y' Hne. unfold Board.get_pawn_at_intersection.
      destruct (Board.is_valid_position x' y'); cbn [negb]; [|done].
      by rewrite lookup_insert_ne.
Qed.

(** X16.  [GameState.move_pawn] succeeds exactly when the game is on, the
    pawn belongs to the player to act, the destination is one of its
    valid moves and the board holds a pawn on the cell one step behind
    the destination.  A success takes the pawn, not escaped, from that
    cell to the destination, on the board and in the pawn, touches no
    other cell and no other pawn, passes the turn index on, leaves the
    selection, the skip fields and the stalemate flag alone, and ends
    the game with a winner exactly when [check_victory] then finds
    one. *)
Theorem move_pawn_contract s pawn x y :
  let ok := (move_pawn s pawn x y).1 in
  let s' := (move_pawn s pawn x y).2 in
  let source :=
    match ref_player pawn with Idx0 => (x, y + 1) | Idx1 => (x + 1, y) end in
  (ok = true ↔
     phase s = PLAYING
     ∧ ref_player pawn = current_player_index s
     ∧ (x, y) ∈ Pawn.get_valid_moves (ref_player pawn) (get_pawn s pawn) (board s)
     ∧ Board.get_pawn_at_intersection (board s) source.1 source.2 ≠ None)
  ∧ (ok = true →
     Pawn.is_on_board (get_pawn s pawn) = true
     ∧ Pawn.get_position (get_pawn s pawn) = Some source
     ∧ get_pawn s' pawn = mkPawn (Some (x, y)) false
     ∧ Board.get_pawn_at_intersection (board s') x y
       = Board.get_pawn_at_intersection (board s) source.1 source.2
     ∧ Board.is_intersection_empty (board s') source.1 source.2 = true
     ∧ (∀ x' y', (x', y') ≠ (x, y) → (x', y') ≠ source →
          Board.get_pawn_at_intersection (board s') x' y'
          = Board.get_pawn_at_intersection (board s) x' y')
     ∧ (∀ r, r ≠ pawn → get_pawn s' r = get_pawn s r)
     ∧ current_player_index s' = next_index (current_player_index s)
     ∧ selected_pawn s' = selected_pawn s
     ∧ turn_skipped s' = turn_skipped s
     ∧ skipped_player_id s' = skipped_player_id s
     ∧ stalemate s' = stalemate s
     ∧ (winner s', phase s') =
         match check_victory s' with
         | Some w => (Some w, GAME_OVER)
         | None => (winner s, phase s)
         end).
Proof.
  cbv zeta.
  assert (∀ fx fy,
            (x, y) ∈ Pawn.get_valid_moves (ref_player pawn) (get_pawn s pawn)
                       (board s) →
            _position (get_pawn s pawn) = Some (fx, fy) →
            (fx, fy) = match ref_player pawn with
                       | Idx0 => (x, y + 1) | Idx1 => (x + 1, y) end
            ∧ Board.is_valid_position fx fy = true
            ∧ Pawn.is_on_board (get_pawn s pawn) = true) as Hsrc.
  { intros fx fy Hm Hp.
    pose proof (can_move_to_elem_of (ref_player pawn) (get_pawn s pawn)
                  (board s) x y) as Hiff.
    pose proof (can_move_to_source (ref_player pawn) (get_pawn s pawn)
                  (board s) x y) as Himp.
    apply Hiff in Hm as Hc. destruct (Himp Hc) as (Hon & _ & _ & Hpos).
    unfold Pawn.get_position in Hpos. rewrite Hp in Hpos.
    injection Hpos as Hpos. split; [done|]. split; [|done].
    apply elem_of_get_valid_moves in Hm as (a & d & _ & Hp' & Ha & _).
    rewrite Hp in Hp'. injection Hp' as <- <-.
    by apply elem_of_get_adjacent_intersections in Ha as (? & _). }
  split.
  - split.
    + intros E. destruct (move_pawn_success s pawn x y E)
        as (Hph & Ho & Hm & fx & fy & b & Hp & Hb & _).
      destruct (Hsrc fx fy Hm Hp) as (<- & Hv & _). cbn [fst snd].
      split; [done|]. split; [done|]. split; [done|].
      apply board_move_pawn_true in Hb as (r & Hr & _).
      rewrite get_pawn_at_intersection_lookup by done. by rewrite Hr.
    + intros (Hph & Ho & Hm & Hocc).
      apply elem_of_get_valid_moves in Hm as Hm'.
      destruct Hm' as (fx & fy & _ & Hp & _ & He & _). cbn [fst snd] in He.
      destruct (Hsrc fx fy Hm Hp) as (Hs & Hv & _). rewrite <- Hs in Hocc.
      cbn [fst snd] in Hocc.
      rewrite get_pawn_at_intersection_lookup in Hocc by done.
      unfold move_pawn, get_current_player, Pawn.get_position.
      rewrite bool_decide_false by (intros H; by apply H).
      rewrite bool_decide_false by (intros H; by apply H).
      rewrite Hp. rewrite bool_decide_false by (intros H; by apply H).
      unfold Board.move_pawn.
      rewrite Hv, (is_intersection_empty_valid _ _ _ He), He. cbn [negb orb].
      rewrite bool_decide_false by done. cbn [orb].
      destruct (board s !! (fx, fy)); done.
  - intros E. destruct (move_pawn_success s pawn x y E)
      as (Hph & Ho & Hm & fx & fy & b & Hp & Hb & ->).
    destruct (Hsrc fx fy Hm Hp) as (<- & Hv & Hon). cbn [fst snd].
    pose proof (board_move_pawn_effect (board s) fx fy x y) as Hspec.
    cbv zeta in Hspec. rewrite Hb in Hspec. cbn [fst snd] in Hspec.
    destruct Hspec as (_ & Hpost & _).
    destruct (Hpost eq_refl) as (Hto & Hfrom & Hother & _).
    destruct (action_tail s pawn (mkPawn (Some (x, y)) false) b)
      as (Hg & Hb' & Hrest).
    rewrite Hb'. split; [done|]. split; [done|]. split; [done|].
    split; [done|]. split; [done|]. split; [|done].
    intros x' y' H1 H2. by apply Hother.
Qed.

(** X17.  [GameState.escape_pawn] succeeds exactly when the game is on, the
    pawn belongs to the player to act and its position is an escape cell
    of its owner.  A success marks the pawn escaped, without a position,
    empties its cell, touches no other cell and no other pawn, passes
    the turn index on, leaves the selection, the skip fields and the
    stalemate flag alone, and ends the game with a winner exactly when
    [check_victory] then finds one. *)
Theorem escape_pawn_contract s pawn :
  let ok := (escape_pawn s pawn).1 in
  let s' := (escape_pawn s pawn).2 in
  (ok = true ↔
     phase s = PLAYING
     ∧ ref_player pawn = current_player_index s
     ∧ ∃ x y, Pawn.get_position (get_pawn s pawn) = Some (x, y)
              ∧ Board.is_escape_position x y (ref_player pawn) = true)
  ∧ (ok = true →
     ∃ x y,
       Pawn.get_position (get_pawn s pawn) = Some (x, y)
       ∧ get_pawn s' pawn = mkPawn None true
       ∧ Board.is_intersection_empty (board s') x y = true
       ∧ (∀ x' y', (x', y') ≠ (x, y) →
            Board.get_pawn_at_intersection (board s') x' y'
            = Board.get_pawn_at_intersection (board s) x' y')
       ∧ (∀ r, r ≠ pawn → get_pawn s' r = get_pawn s r)
       ∧ current_player_index s' = next_index (current_player_index s)
       ∧ selected_pawn s' = selected_pawn s
       ∧ turn_skipped s' = turn_skipped s
       ∧ skipped_player_id s' = skipped_player_id s
       ∧ stalemate s' = stalemate s
       ∧ (winner s', phase s') =
           match check_victory s' with
           | Some w => (Some w, GAME_OVER)
           | None => (winner s, phase s)
           end).
Proof.
  cbv zeta. split.
  - split.
    + intros E. destruct (escape_pawn_success s pawn E)
        as (Hph & Ho & x & y & Hp & He & _). eauto 10.
    + intros (Hph & Ho & x & y & Hp & He).
      unfold escape_pawn, get_current_player.
      rewrite bool_decide_false by (intros H; by apply H).
      rewrite bool_decide_false by (intros H; by apply H).
      rewrite Hp, He. done.
  - intros E. destruct (escape_pawn_success s pawn E)
      as (Hph & Ho & x & y & Hp & He & ->).
    exists x, y.
    destruct (action_tail s pawn (mkPawn None true) (delete (x, y) (board s)))
      as (Hg & Hb' & Hrest).
    assert (Board.is_valid_position x y = true) as Hv.
    { unfold Board.is_escape_position in He.
      destruct (Board.is_valid_position x y); [done|discriminate]. }
    rewrite Hb'. split; [done|]. split; [done|]. split; [|split; [|done]].
    + apply is_intersection_empty_spec. split; [done|]. apply lookup_delete_eq.
    + intros x' y' Hne. unfold Board.get_pawn_at_intersection.
      destruct (Board.is_valid_position x' y'); cbn [negb]; [|done].
      by rewrite lookup_delete_ne.
Qed.
End action_contracts.

(** ** Every reachable state *)

Section tidy_states.
Implicit Types (s t : GameState) (pawn r : PawnRef) (x y : Z).

Lemma tidy_after_action s pawn p b :
  tidy s →
  (_escaped p = true → _position p = None) →
  (∀ c, _position p = Some c → in_lane (ref_player pawn) c) →
  (∀ c r, b !! c = Some r → Board.is_valid_position c.1 c.2 = true) →
  tidy (flip_and_check (set_pawn pawn p (set_board b s))).
Proof.
  intros (Hp & Hk & Hl & Hf) Hp' Hl' Hk'.
  destruct (action_tail s pawn p b)
    as (Hg & Hb & Ho & _ & _ & _ & _ & Hst & Hw). cbv zeta in *.
  split; [|split; [|split]].
  - intros r. destruct (decide (r = pawn)) as [->|Hr].
    + by rewrite Hg.
    + rewrite Ho by done. apply Hp.
  - intros c r. rewrite Hb. apply Hk'.
  - intros r c. destruct (decide (r = pawn)) as [->|Hr].
    + rewrite Hg. apply Hl'.
    + rewrite Ho by done. apply Hl.
  - intros Hph. rewrite Hst. apply Hf.
    destruct (check_victory _); injection Hw as _ Hw; congruence.
Qed.

Lemma place_pawn_tidy s pawn x y : tidy s → tidy (place_pawn s pawn x y).2.
Proof.
  intros Hs. destruct (place_pawn s pawn x y).1 eqn:E.
  - destruct (place_pawn_success s pawn x y E) as (_ & Hst & He & ->).
    apply tidy_after_action; [done|done| |].
    + intros c [= <-]. split; [by apply is_intersection_empty_valid in He|].
      apply is_starting_position_spec in Hst. cbn [fst snd].
      destruct (ref_player pawn); lia.
    + intros c r. destruct (decide (c = (x, y))) as [->|Hc].
      * intros _. by apply is_intersection_empty_valid in He.
      * rewrite lookup_insert_ne by done. apply Hs.
  - by rewrite place_pawn_rejected.
Qed.

Lemma move_pawn_tidy s pawn x y : tidy s → tidy (move_pawn s pawn x y).2.
Proof.
  intros Hs. destruct (move_pawn s pawn x y).1 eqn:E.
  - destruct (move_pawn_success s pawn x y E)
      as (_ & _ & Hm & fx & fy & b & Hp & Hb & ->).
    apply board_move_pawn_true in Hb as (r0 & Hr0 & He & ->).
    apply elem_of_get_valid_moves in Hm as (a & d & _ & Hp' & Ha & _ & Hd).
    rewrite Hp in Hp'. injection Hp' as <- <-.
    apply elem_of_get_adjacent_intersections in Ha as (_ & Hv & Hdist).
    cbn [fst snd] in *.
    destruct Hs as (Hsp & Hsk & Hsl & Hsf).
    apply tidy_after_action; [done|done| |].
    + intros c [= <-]. split; [done|]. cbn [fst snd].
      destruct (Hsl pawn (fx, fy) Hp) as [_ Hlane]. cbn [fst snd] in Hlane.
      destruct (ref_player pawn); lia.
    + intros c r. destruct (decide (c = (x, y))) as [->|Hc]; [done|].
      rewrite lookup_insert_ne by done.
      destruct (decide (c = (fx, fy))) as [->|Hc'].
      * by rewrite lookup_delete_eq.
      * rewrite lookup_delete_ne by done. apply Hsk.
  - by rewrite move_pawn_rejected.
Qed.

Lemma escape_pawn_tidy s pawn : tidy s → tidy (escape_pawn s pawn).2.
Proof.
  intros Hs. destruct (escape_pawn s pawn).1 eqn:E.
  - destruct (escape_pawn_success s pawn E) as (_ & _ & x & y & _ & _ & ->).
    destruct Hs as (Hsp & Hsk & Hsl & Hsf).
    apply tidy_after_action; [done|done|done|].
    intros c r. destruct (decide (c = (x, y))) as [->|Hc].
    + by rewrite lookup_delete_eq.
    + rewrite lookup_delete_ne by done. apply Hsk.
  - by rewrite escape_pawn_rejected.
Qed.

Lemma switch_turn_tidy s : tidy s → tidy (switch_turn s).2.
Proof.
  intros (Hp & Hk & Hl & Hf).
  destruct (switch_turn_frame s) as (F0 & F1 & Fb).
  assert (∀ r, get_pawn (switch_turn s).2 r = get_pawn s r) as Hg.
  { intros [[] n]; unfold get_pawn; cbn [players ref_player];
      by rewrite ?F0, ?F1. }
  split; [|split; [|split]].
  - intros r. rewrite Hg. apply Hp.
  - intros c r. rewrite Fb. apply Hk.
  - intros r c. rewrite Hg. apply Hl.
  - intros Hph.
    destruct (switch_turn_playing s Hph) as (Hph' & _ & _).
    revert Hph. unfold switch_turn. rewrite Hph'. cbv zeta.
    destruct (check_victory _); [done|]. simpl_fields. rewrite Hph'.
    match goal with |- context [skip_scan ?f ?pc ?c ?t] =>
      pose proof (skip_scan_stalemate f pc c t) as F;
      destruct (skip_scan f pc c t) as [[e n] r] end.
    cbn in F.
    destruct e; try destruct (len_players <=? n)%nat; cbn; try done;
      intros Hr; rewrite F by done; by apply Hf.
Qed.

Lemma reset_game_tidy s : tidy s → tidy (reset_game s).
Proof.
  intros (_ & Hk & _). rewrite reset_game_eq.
  assert (∀ r, get_pawn (mkGameState new_player new_player
                 (Board.clear_board (board s)) PLAYING Idx0 None None false
                 None false) r = mkPawn None false) as Hg.
  { intros [[] n]; unfold get_pawn; cbn [players players_0 players_1
      ref_player ref_pawn_id]; apply new_player_lookup. }
  split; [|split; [|split]].
  - intros r. by rewrite Hg.
  - intros c r. cbn [board]. unfold Board.clear_board.
    rewrite foldl_delete_lookup. case_decide; [done|]. apply Hk.
  - intros r c. by rewrite Hg.
  - done.
Qed.

Lemma init_tidy : tidy init.
Proof.
  assert (∀ r, get_pawn init r = mkPawn None false) as Hg.
  { intros [[] n]; unfold get_pawn; cbn [players players_0 players_1 init
      ref_player ref_pawn_id]; apply new_player_lookup. }
  split; [|split; [|split]].
  - intros r. by rewrite Hg.
  - intros c r. cbn [board init]. by rewrite lookup_empty.
  - intros r c. by rewrite Hg.
  - done.
Qed.

Lemma call_tidy s (k : Call) : tidy s → tidy (call s k).
Proof.
  destruct k; cbn [call].
  - apply place_pawn_tidy.
  - apply move_pawn_tidy.
  - apply escape_pawn_tidy.
  - apply switch_turn_tidy.
  - apply reset_game_tidy.
Qed.

Lemma run_tidy cs s : tidy s → tidy (run s cs).
Proof.
  revert s. induction cs as [|k cs IH]; intros s Hs; [done|].
  cbn [run foldl]. apply IH, call_tidy, Hs.
Qed.

Lemma reachable_tidy s : reachable s → tidy s.
Proof. intros [cs ->]. apply run_tidy, init_tidy. Qed.
End tidy_states.

(** X18.  In every state reachable from a fresh game, a pawn that has a
    position stands on a cell of the grid, is not escaped, and is in its
    lane: a pawn of player 1 in one of the columns 1 to 5, a pawn of
    player 2 in one of the rows 1 to 5. *)
Theorem reachable_pawns_keep_their_lane (s : GameState) :
  reachable s →
  ∀ r x y,
    Pawn.get_position (get_pawn s r) = Some (x, y) →
    Board.is_valid_position x y = true
    ∧ Pawn.is_escaped (get_pawn s r) = false
    ∧ match ref_player r with Idx0 => 1 ≤ x ≤ 5 | Idx1 => 1 ≤ y ≤ 5 end.
Proof.
  intros Hr. destruct (reachable_tidy s Hr) as (Hp & Hk & Hl & _).
  intros r x y Hpos. destruct (Hl r (x, y) Hpos) as [Hv Hlane].
  split; [done|]. split; [|done].
  unfold Pawn.is_escaped. destruct (_escaped (get_pawn s r)) eqn:E; [|done].
  unfold Pawn.get_position in Hpos. rewrite (Hp r E) in Hpos. done.
Qed.

Lemma reachable_pawns_keep_their_lane_witness :
  reachable before_block
  ∧ ∀ r x y,
      Pawn.get_position (get_pawn before_block r) = Some (x, y) →
      Board.is_valid_position x y = true
      ∧ Pawn.is_escaped (get_pawn before_block r) = false
      ∧ match ref_player r with Idx0 => 1 ≤ x ≤ 5 | Idx1 => 1 ≤ y ≤ 5 end.
Proof.
  assert (reachable before_block) as Hr by (exists approach; reflexivity).
  split; [exact Hr|].
  exact (reachable_pawns_keep_their_lane before_block Hr).
Defined.

(** X19.  In every state reachable from a fresh game in which the game is
    on, no winner is set, the stalemate flag is down and no player has
    seven escaped pawns. *)
Theorem reachable_playing_has_no_verdict (s : GameState) :
  reachable s →
  phase s = PLAYING →
  winner s = None ∧ stalemate s = false
  ∧ ∀ i, Player.has_won (players s i) = false.
Proof.
  intros Hr Hp. destruct (reachable_pending s Hr Hp) as [Hv Hw].
  destruct (reachable_tidy s Hr) as (_ & _ & _ & Hf).
  split; [done|]. split; [by apply Hf|].
  unfold check_victory in Hv. intros [];
    destruct (Player.has_won (players s Idx0)),
      (Player.has_won (players s Idx1)); done.
Qed.

Lemma reachable_playing_has_no_verdict_witness :
  reachable before_block
  ∧ phase before_block = PLAYING
  ∧ winner before_block = None
  ∧ stalemate before_block = false
  ∧ ∀ i, Player.has_won (players before_block i) = false.
Proof.
  assert (reachable before_block) as Hr by (exists approach; reflexivity).
  assert (phase before_block = PLAYING) as Hph by (vm_compute; reflexivity).
  split; [exact Hr|]. split; [exact Hph|].
  exact (reachable_playing_has_no_verdict before_block Hr Hph).
Defined.

Lemma board_matches_pawns_when_disciplined_witness :
  disciplined_script init approach
  ∧ board_matches_pawns (run init approach)
  ∧ (∀ r r' c,
       stands_at (run init approach) r c →
       stands_at (run init approach) r' c → r = r').
Proof.
  assert (disciplined_script init approach) as Hd
    by (vm_compute; repeat split).
  split; [exact Hd|].
  exact (board_matches_pawns_when_disciplined approach Hd).
Defined.

(** ** Pixels and cells *)

Section geometry.

Implicit Types (n d x y : Z).

Lemma round_div_nearest n d :
  0 < d → Z.abs (2 * (n - Renderer.round_div n d * d)) ≤ d.
Proof.
  intros Hd. unfold Renderer.round_div. cbv zeta.
  pose proof (Z.div_mod n d ltac:(lia)) as E.
  pose proof (Z.mod_pos_bound n d Hd) as B.
  repeat case_match; lia.
Qed.

Lemma round_div_unique n d q :
  0 < d → Z.abs (2 * (n - q * d)) < d → Renderer.round_div n d = q.
Proof.
  intros Hd Hq. unfold Renderer.round_div. cbv zeta.
  pose proof (Z.div_mod n d ltac:(lia)) as E.
  pose proof (Z.mod_pos_bound n d Hd) as B.
  assert (n / d = q ∨ n / d = q - 1) as [Hc|Hc] by nia.
  - rewrite Hc in *. repeat case_match; lia.
  - rewrite Hc in *. repeat case_match; nia.
Qed.

Lemma pixel_to_grid_position_in_bounds x y :
  185 ≤ x ≤ 615 → 85 ≤ y ≤ 515 →
  Renderer.pixel_to_grid_position (x, y)
  = Some (Renderer.round_div (x - 200) 66, Renderer.round_div (y - 100) 66)
  ∧ 0 ≤ Renderer.round_div (x - 200) 66 ≤ 6
  ∧ 0 ≤ Renderer.round_div (y - 100) 66 ≤ 6.
Proof.
  intros Hx Hy.
  pose proof (round_div_nearest (x - 200) 66 ltac:(lia)) as Nx.
  pose proof (round_div_nearest (y - 100) 66 ltac:(lia)) as Ny.
  assert (0 ≤ Renderer.round_div (x - 200) 66 ≤ 6) as Bx by lia.
  assert (0 ≤ Renderer.round_div (y - 100) 66 ≤ 6) as By by lia.
  split; [|done].
  unfold Renderer.pixel_to_grid_position.
  change Renderer.board_x with 200. change Renderer.board_y with 100.
  change Renderer.cell_size with 66. change Renderer.BOARD_SIZE with 400.
  change Renderer.PAWN_RADIUS with 15. cbv zeta.
  replace (x <? 200 - 15) with false by lia.
  replace (200 + 400 + 15 <? x) with false by lia.
  replace (y <? 100 - 15) with false by lia.
  replace (100 + 400 + 15 <? y) with false by lia.
  cbn [orb].
  replace (0 <=? Renderer.round_div (x - 200) 66) with true by lia.
  replace (Renderer.round_div (x - 200) 66 <? 7) with true by lia.
  replace (0 <=? Renderer.round_div (y - 100) 66) with true by lia.
  replace (Renderer.round_div (y - 100) 66 <? 7) with true by lia.
  done.
Qed.

Lemma pixel_to_grid_position_out_of_bounds x y :
  ¬ (185 ≤ x ≤ 615 ∧ 85 ≤ y ≤ 515) →
  Renderer.pixel_to_grid_position (x, y) = None.
Proof.
  intros H. unfold Renderer.pixel_to_grid_position.
  change Renderer.board_x with 200. change Renderer.board_y with 100.
  change Renderer.BOARD_SIZE with 400. change Renderer.PAWN_RADIUS with 15.
  destruct (x <? 200 - 15) eqn:E1; [done|].
  destruct (200 + 400 + 15 <? x) eqn:E2; [done|].
  destruct (y <? 100 - 15) eqn:E3; [done|].
  destruct (100 + 400 + 15 <? y) eqn:E4; [done|].
  lia.
Qed.

(** X21.  [pixel_to_grid_position] takes a click for a cell exactly when it
    falls on the board square widened by the pawn radius (from 185 to 615
    across and from 85 to 515 down).  The cell is then a cell of the
    grid, and its intersection is the one nearest to the click: at most
    33 pixels away across and down. *)
Theorem pixel_to_grid_position_spec x y :
  (Renderer.pixel_to_grid_position (x, y) = None
   ↔ ¬ (185 ≤ x ≤ 615 ∧ 85 ≤ y ≤ 515))
  ∧ ∀ gx gy,
      Renderer.pixel_to_grid_position (x, y) = Some (gx, gy) →
      Board.is_valid_position gx gy = true
      ∧ Z.abs (x - (Renderer.grid_to_pixel_position gx gy).1) ≤ 33
      ∧ Z.abs (y - (Renderer.grid_to_pixel_position gx gy).2) ≤ 33.
Proof.
  destruct (decide (185 ≤ x ≤ 615 ∧ 85 ≤ y ≤ 515)) as [[Hx Hy]|Hout].
  - destruct (pixel_to_grid_position_in_bounds x y Hx Hy) as (E & Bx & By).
    pose proof (round_div_nearest (x - 200) 66 ltac:(lia)) as Nx.
    pose proof (round_div_nearest (y - 100) 66 ltac:(lia)) as Ny.
    rewrite E. split; [split; [done|tauto]|].
    intros gx gy [= <- <-]. split.
    + apply is_valid_position_spec. lia.
    + unfold Renderer.grid_to_pixel_position.
      change Renderer.board_x with 200. change Renderer.board_y with 100.
      change Renderer.cell_size with 66. cbn [fst snd]. lia.
  - rewrite pixel_to_grid_position_out_of_bounds by done.
    split; [tauto|]. intros gx gy [=].
Qed.

(** X22.  The pixel that [grid_to_pixel_position] gives for a cell of the
    grid converts back to that cell, and so does every pixel within the
    pawn radius of it. *)
Theorem pixel_to_grid_position_round_trip gx gy dx dy :
  Board.is_valid_position gx gy = true →
  Z.abs dx ≤ Renderer.PAWN_RADIUS → Z.abs dy ≤ Renderer.PAWN_RADIUS →
  Renderer.pixel_to_grid_position
    ((Renderer.grid_to_pixel_position gx gy).1 + dx,
     (Renderer.grid_to_pixel_position gx gy).2 + dy)
  = Some (gx, gy).
Proof.
  intros Hv Hdx Hdy. apply is_valid_position_spec in Hv.
  unfold Renderer.grid_to_pixel_position.
  change Renderer.board_x with 200. change Renderer.board_y with 100.
  change Renderer.cell_size with 66. change Renderer.PAWN_RADIUS with 15 in *.
  cbn [fst snd].
  destruct (pixel_to_grid_position_in_bounds (200 + gx * 66 + dx)
              (100 + gy * 66 + dy)) as (E & _); [lia|lia|].
  rewrite E. f_equal. f_equal; apply round_div_unique; lia.
Qed.

Lemma pixel_to_grid_position_round_trip_witness :
  Board.is_valid_position 3 2 = true
  ∧ Z.abs (-15) ≤ Renderer.PAWN_RADIUS
  ∧ Z.abs 15 ≤ Renderer.PAWN_RADIUS
  ∧ Renderer.pixel_to_grid_position
      ((Renderer.grid_to_pixel_position 3 2).1 + -15,
       (Renderer.grid_to_pixel_position 3 2).2 + 15)
    = Some (3, 2).
Proof.
  assert (Z.abs (-15) ≤ Renderer.PAWN_RADIUS) as H1
    by (unfold Renderer.PAWN_RADIUS; lia).
  assert (Z.abs 15 ≤ Renderer.PAWN_RADIUS) as H2
    by (unfold Renderer.PAWN_RADIUS; lia).
  split; [reflexivity|]. split; [exact H1|]. split; [exact H2|].
  exact (pixel_to_grid_position_round_trip 3 2 (-15) 15 eq_refl H1 H2).
Defined.

End geometry.

(** ** Sessions of [main] *)

Section references.

Implicit Types (s : GameState) (i : PlayerIndex) (x y : Z).

Lemma vec_to_list_fin_enum {A n} (v : vec A n) :
  vec_to_list v = (λ k, v !!! k) <$> fin_enum n.
Proof.
  induction v as [|a n v IH]; [done|].
  cbn [fin_enum fmap list_fmap]. rewrite vec_to_list_cons. f_equal.
  rewrite IH, <- list_fmap_compose. done.
Qed.

Lemma find_fmap {A B} (f : B → bool) (g : A → B) (l : list A) :
  List.find f (g <$> l) = g <$> List.find (λ a, f (g a)) l.
Proof.
  induction l as [|a l IH]; [done|]. cbn. by destruct (f (g a)).
Qed.

Lemma find_filter {A} (f g : A → bool) (l : list A) :
  List.find f (filter (λ a, g a = true) l) = List.find (λ a, g a && f a) l.
Proof.
  induction l as [|a l IH]; [done|].
  rewrite filter_cons. destruct (g a) eqn:E.
  - rewrite decide_True by done. cbn. rewrite E. cbn. by destruct (f a).
  - rewrite decide_False by done. cbn. rewrite E. done.
Qed.

Lemma head_filter {A} (g : A → bool) (l : list A) :
  head (filter (λ a, g a = true) l) = List.find g l.
Proof.
  induction l as [|a l IH]; [done|].
  rewrite filter_cons. cbn. destruct (g a) eqn:E.
  - by rewrite decide_True.
  - by rewrite decide_False.
Qed.

Lemma find_fin_enum n (f : fin n → bool) :
  match List.find f (fin_enum n) with
  | Some k => f k = true ∧ ∀ j, (fin_to_nat j < fin_to_nat k)%nat → f j = false
  | None => ∀ j, f j = false
  end.
Proof.
  induction n as [|n IH].
  - cbn. intros j. inv_fin j.
  - cbn [fin_enum List.find]. destruct (f 0%fin) eqn:E0.
    + split; [done|]. intros j Hj. cbn in Hj. lia.
    + rewrite find_fmap. specialize (IH (λ a, f (FS a))).
      destruct (List.find _ (fin_enum n)) as [k|]; cbn [fmap option_fmap option_map].
      * destruct IH as [Hk Hlt]. split; [done|].
        intros j. inv_fin j; [done|]. intros j Hj. apply Hlt. cbn in Hj. lia.
      * intros j. inv_fin j; [done|]. apply IH.
Qed.

(** The pawn behind the reference is the pawn that
    [Player.get_pawn_at_position] returns. *)
Lemma get_pawn_at_position_ref s i x y :
  Player.get_pawn_at_position (players s i) x y
  = get_pawn s <$> InputHandler.get_pawn_at_position s i x y.
Proof.
  unfold Player.get_pawn_at_position, InputHandler.get_pawn_at_position,
    Player.get_pawns_on_board, Player.get_pawns.
  rewrite find_filter, vec_to_list_fin_enum, find_fmap.
  by destruct (List.find _ (fin_enum 7)).
Qed.

(** The pawn behind the reference is [get_unplaced_pawns()[0]], and there
    is none exactly when that list is empty. *)
Lemma first_unplaced_pawn_ref s i :
  head (Player.get_unplaced_pawns (players s i))
  = get_pawn s <$> InputHandler.first_unplaced_pawn s i.
Proof.
  unfold Player.get_unplaced_pawns, InputHandler.first_unplaced_pawn,
    Player.get_pawns.
  rewrite head_filter, vec_to_list_fin_enum, find_fmap.
  by destruct (List.find _ (fin_enum 7)).
Qed.

Lemma get_pawn_at_position_Some s i x y r :
  InputHandler.get_pawn_at_position s i x y = Some r →
  ref_player r = i ∧ stands_at s r (x, y).
Proof.
  unfold InputHandler.get_pawn_at_position.
  match goal with |- context [List.find ?f _] =>
    pose proof (find_fin_enum 7 f) as F; destruct (List.find f _) as [k|] end;
    [|done].
  intros [= <-]. destruct F as [F _]. cbv zeta in F.
  apply andb_true_iff in F as [F1 F2]. apply bool_decide_eq_true in F2.
  done.
Qed.

Lemma get_pawn_at_position_None s i x y :
  InputHandler.get_pawn_at_position s i x y = None →
  ∀ r, ref_player r = i → ¬ stands_at s r (x, y).
Proof.
  unfold InputHandler.get_pawn_at_position.
  match goal with |- context [List.find ?f _] =>
    pose proof (find_fin_enum 7 f) as F; destruct (List.find f _) as [k|] end;
    [done|].
  intros _ [p k] <- [H1 H2]. specialize (F k). cbv zeta in F.
  unfold get_pawn in H1, H2. cbn [ref_player ref_pawn_id] in *.
  rewrite H1, H2, bool_decide_true in F; done.
Qed.

Lemma first_unplaced_pawn_Some s i r :
  InputHandler.first_unplaced_pawn s i = Some r →
  ref_player r = i
  ∧ Pawn.is_on_board (get_pawn s r) = false
  ∧ Pawn.is_escaped (get_pawn s r) = false
  ∧ ∀ k, (fin_to_nat k < fin_to_nat (ref_pawn_id r))%nat →
         negb (Pawn.is_on_board (get_pawn s (mkPawnRef i k)))
         && negb (Pawn.is_escaped (get_pawn s (mkPawnRef i k))) = false.
Proof.
  unfold InputHandler.first_unplaced_pawn.
  match goal with |- context [List.find ?f _] =>
    pose proof (find_fin_enum 7 f) as F; destruct (List.find f _) as [k|] end;
    [|done].
  intros [= <-]. destruct F as [F Hlt]. cbv zeta in F.
  apply andb_true_iff in F as [F1 F2].
  apply negb_true_iff in F1, F2. done.
Qed.

Lemma first_unplaced_pawn_None s i :
  InputHandler.first_unplaced_pawn s i = None →
  Player.get_unplaced_pawns (players s i) = [].
Proof.
  intros H. pose proof (first_unplaced_pawn_ref s i) as E. rewrite H in E.
  by destruct (Player.get_unplaced_pawns _).
Qed.

End references.

Section session_steps.

Implicit Types (s t : GameState) (r pawn : PawnRef) (x y : Z)
  (renderer : Renderer).

Lemma check_victory_Some s w :
  check_victory s = Some w → Player.has_won (players s w) = true.
Proof.
  unfold check_victory.
  destruct (Player.has_won (players s Idx0)) eqn:E0; [by intros [= <-]|].
  destruct (Player.has_won (players s Idx1)) eqn:E1; [by intros [= <-]|done].
Qed.

Lemma session_base_ext s t :
  board t = board s → players_0 t = players_0 s → players_1 t = players_1 s →
  turn_skipped t = turn_skipped s → skipped_player_id t = skipped_player_id s →
  stalemate t = stalemate s → winner t = winner s → phase t = phase s →
  session_base s → session_base t.
Proof.
  intros Hb H0 H1 Hts Hsk Hst Hw Hph (Hc & Ts & Sk & St & Hover).
  assert (∀ i, players t i = players s i) as Hpl by (by intros []).
  split; [|split; [|split; [|split]]]; try congruence.
  - apply (consistent_ext s t); [done| |done].
    intros r. unfold get_pawn. by rewrite Hpl.
  - rewrite Hph, Hw. intros H. destruct (Hover H) as (w & ? & ?).
    exists w. by rewrite Hpl.
Qed.

Lemma session_base_set_selected_pawn sel s :
  session_base s → session_base (set_selected_pawn sel s).
Proof. by apply session_base_ext. Qed.

Lemma session_ok_deselect s :
  session_base s → session_ok (set_selected_pawn None s).
Proof.
  intros H. split; [by apply session_base_set_selected_pawn|]. by intros r.
Qed.

(** A successful action of a game that is on. *)
Lemma session_base_action s pawn p b :
  session_base s → phase s = PLAYING →
  consistent (flip_and_check (set_pawn pawn p (set_board b s))) →
  session_base (flip_and_check (set_pawn pawn p (set_board b s))).
Proof.
  intros (_ & Ts & Sk & St & _) Hph Hc.
  destruct (action_tail s pawn p b)
    as (_ & _ & _ & _ & _ & Ts' & Sk' & St' & Hw). cbv zeta in *.
  split; [done|]. split; [congruence|]. split; [congruence|].
  split; [congruence|].
  intros Hover. destruct (check_victory _) as [w|] eqn:Hv.
  - exists w. injection Hw as Hw _. split; [done|]. by apply check_victory_Some.
  - injection Hw as _ Hw. congruence.
Qed.

Lemma session_base_place_pawn s pawn x y :
  session_base s → phase s = PLAYING →
  Pawn.is_on_board (get_pawn s pawn) = false →
  session_base (place_pawn s pawn x y).2.
Proof.
  intros Hs Hph Hoff.
  pose proof (place_pawn_consistent s pawn x y (proj1 Hs) Hoff) as Hc.
  destruct (place_pawn s pawn x y).1 eqn:E.
  - destruct (place_pawn_success s pawn x y E) as (_ & _ & _ & Eq).
    rewrite Eq in *. by apply session_base_action.
  - by rewrite place_pawn_rejected.
Qed.

Lemma session_base_move_pawn s pawn x y :
  session_base s → session_base (move_pawn s pawn x y).2.
Proof.
  intros Hs.
  pose proof (move_pawn_consistent s pawn x y (proj1 Hs)) as Hc.
  destruct (move_pawn s pawn x y).1 eqn:E.
  - destruct (move_pawn_success s pawn x y E)
      as (Hph & _ & _ & fx & fy & b & _ & _ & Eq).
    rewrite Eq in *. by apply session_base_action.
  - by rewrite move_pawn_rejected.
Qed.

Lemma session_base_escape_pawn s pawn :
  session_base s → session_base (escape_pawn s pawn).2.
Proof.
  intros Hs.
  pose proof (escape_pawn_consistent s pawn (proj1 Hs)) as Hc.
  destruct (escape_pawn s pawn).1 eqn:E.
  - destruct (escape_pawn_success s pawn E)
      as (Hph & _ & x & y & _ & _ & Eq).
    rewrite Eq in *. by apply session_base_action.
  - by rewrite escape_pawn_rejected.
Qed.

Lemma session_ok_reset_game s : session_base s → session_ok (reset_game s).
Proof.
  intros (Hc & _). split; [|by rewrite reset_game_eq].
  split; [apply reset_game_consistent, Hc|].
  rewrite reset_game_eq. by repeat split.
Qed.

Lemma session_ok_init : session_ok init.
Proof.
  split; [|done]. split; [apply init_consistent|]. by repeat split.
Qed.

Lemma select_pawn_state renderer s i r :
  (InputHandler.select_pawn renderer s i r).1 = set_selected_pawn (Some r) s.
Proof. unfold InputHandler.select_pawn. cbv zeta. by case_match. Qed.

Lemma session_ok_select s x y r :
  session_ok s → phase s = PLAYING →
  InputHandler.get_pawn_at_position s (current_player_index s) x y = Some r →
  session_ok (set_selected_pawn (Some r) s).
Proof.
  intros [Hb _] Hph Hr. split; [by apply session_base_set_selected_pawn|].
  apply get_pawn_at_position_Some in Hr as [Hi [Hon _]].
  intros r' [= <-]. done.
Qed.

Lemma move_or_reselect_ok renderer x y s sel :
  session_ok s → phase s = PLAYING →
  session_ok
    (InputHandler.move_or_reselect renderer x y s (current_player_index s)
       sel).1.2.
Proof.
  intros Hs Hph. unfold InputHandler.move_or_reselect. cbv zeta.
  case_bool_decide as Hm.
  - pose proof (session_base_move_pawn s sel x y (proj1 Hs)) as Hb.
    pose proof (move_pawn_rejected s sel x y) as Hrej.
    destruct (move_pawn s sel x y) as [[] t]; cbn [fst snd] in *.
    + by apply session_ok_deselect.
    + by rewrite Hrej.
  - destruct (InputHandler.get_pawn_at_position _ _ _ _) as [r|] eqn:Hr.
    + pose proof (select_pawn_state renderer s (current_player_index s) r) as E.
      destruct (InputHandler.select_pawn _ _ _ _) as [t rd]. cbn [fst snd] in *.
      subst t. by eapply session_ok_select.
    + cbn [fst snd]. apply session_ok_deselect, Hs.
Qed.

Lemma select_or_place_ok renderer x y s :
  session_ok s → phase s = PLAYING →
  session_ok
    (InputHandler.select_or_place renderer x y s (current_player_index s)).1.2
  ∨ selected_pawn s ≠ None.
Proof.
  intros Hs Hph. destruct (selected_pawn s) as [r0|] eqn:Hsel; [by right|left].
  unfold InputHandler.select_or_place.
  destruct (InputHandler.get_pawn_at_position _ _ _ _) as [r|] eqn:Hr.
  - pose proof (select_pawn_state renderer s (current_player_index s) r) as E.
    destruct (InputHandler.select_pawn _ _ _ _) as [t rd]. cbn [fst snd] in *.
    subst t. by eapply session_ok_select.
  - destruct (Board.is_starting_position _ _ _);
      [|cbv zeta;
        destruct (InputHandler.get_pawn_at_position s (get_other_player s) x y);
        exact Hs].
    destruct (Board.is_intersection_empty _ _ _); [|exact Hs].
    destruct (InputHandler.first_unplaced_pawn _ _) as [pawn|] eqn:Hu;
      [|exact Hs].
    apply first_unplaced_pawn_Some in Hu as (_ & Hoff & _).
    pose proof (session_base_place_pawn s pawn x y (proj1 Hs) Hph Hoff) as Hb.
    pose proof (place_pawn_rejected s pawn x y) as Hrej.
    pose proof (place_pawn_success s pawn x y) as Hok.
    destruct (place_pawn s pawn x y) as [[] t]; cbn [fst snd] in *.
    + split; [done|]. intros r' Hr'. exfalso.
      destruct (Hok eq_refl) as (_ & _ & _ & ->).
      destruct (action_tail s pawn (mkPawn (Some (x, y)) false)
                  (<[(x, y):=pawn]> (board s)))
        as (_ & _ & _ & _ & Hsel' & _). cbv zeta in Hsel'. congruence.
    + by rewrite Hrej.
Qed.

Lemma handle_game_click_ok renderer x y s :
  session_ok s → phase s = PLAYING →
  session_ok (InputHandler._handle_game_click renderer x y s).1.2.
Proof.
  intros Hs Hph. unfold InputHandler._handle_game_click. cbv zeta.
  unfold get_current_player.
  destruct (selected_pawn s) as [sel|] eqn:Hsel.
  - destruct (Pawn.get_position (get_pawn s sel)) as [[cx cy]|]; [|done].
    destruct (Board.is_escape_position cx cy _ && (x =? cx) && (y =? cy)).
    + pose proof (session_base_escape_pawn s sel (proj1 Hs)) as Hb.
      pose proof (escape_pawn_rejected s sel) as Hrej.
      destruct (escape_pawn s sel) as [[] t]; cbn [fst snd] in *.
      * by apply session_ok_deselect.
      * rewrite Hrej by done. by apply move_or_reselect_ok.
    + by apply move_or_reselect_ok.
  - destruct (select_or_place_ok renderer x y s Hs Hph) as [H|H]; [done|].
    congruence.
Qed.

Lemma handle_click_ok pos s renderer :
  session_ok s → session_ok (InputHandler.handle_click pos s renderer).1.2.
Proof.
  intros Hs. unfold InputHandler.handle_click, is_game_over. cbv zeta.
  case_bool_decide as Hph.
  - destruct (_ && _); cbn [fst snd]; [|done].
    apply session_ok_reset_game, Hs.
  - assert (phase s = PLAYING) as Hp by (by destruct (phase s)).
    destruct (Renderer.pixel_to_grid_position pos) as [[x y]|].
    + by apply handle_game_click_ok.
    + cbn [fst snd]. apply session_ok_deselect, Hs.
Qed.

Lemma handle_event_ok s renderer event :
  session_ok s → session_ok (handle_event s renderer event).1.
Proof.
  intros Hs. destruct event as [pos| |]; cbn [handle_event].
  - pose proof (handle_click_ok pos s renderer Hs) as H.
    by destruct (InputHandler.handle_click pos s renderer) as [[ok t] rd].
  - cbn [fst]. apply session_ok_reset_game, Hs.
  - destruct (selected_pawn s) eqn:E; cbn [fst]; [|done].
    apply session_ok_deselect, Hs.
Qed.

Lemma session_session_ok s : session s → session_ok s.
Proof.
  induction 1 as [|s renderer event _ IH]; [apply session_ok_init|].
  by apply handle_event_ok.
Qed.

(** What [play] computes is the game state of a session. *)
Lemma session_play events : session (play events).1.
Proof.
  induction events as [|event events IH] using rev_ind; [apply session_start|].
  unfold play in *. rewrite foldl_app. cbn [foldl]. by apply session_event.
Qed.

End session_steps.

(** X23.  In a session of [main] board occupancy and pawn positions agree
    and no two pawns share a cell: the input layer only ever places a
    pawn that is not on the board. *)
Theorem session_board_matches_pawns (s : GameState) :
  session s →
  board_matches_pawns s
  ∧ (∀ r r' c, stands_at s r c → stands_at s r' c → r = r').
Proof.
  intros H. destruct (session_session_ok s H) as [(Hc & _) _].
  split; [apply Hc|]. intros r r' c. by apply consistent_no_shared_cell.
Qed.

Lemma session_board_matches_pawns_witness :
  session standstill
  ∧ board_matches_pawns standstill
  ∧ (∀ r r' c,
       stands_at standstill r c → stands_at standstill r' c → r = r').
Proof.
  assert (session standstill) as Hs by exact (session_play standstill_session).
  split; [exact Hs|]. exact (session_board_matches_pawns standstill Hs).
Defined.

(** X24.  In a session of [main] no turn is ever recorded as skipped and
    no stalemate is ever declared, since nothing calls [switch_turn]; a
    game that is over has a winner, whose seven pawns escaped. *)
Theorem session_never_skips_a_turn (s : GameState) :
  session s →
  turn_skipped s = false ∧ skipped_player_id s = None ∧ stalemate s = false
  ∧ (phase s = GAME_OVER →
     ∃ w, winner s = Some w ∧ Player.has_won (players s w) = true).
Proof.
  intros H. by destruct (session_session_ok s H) as [(_ & ? & ? & ? & ?) _].
Qed.

Lemma session_never_skips_a_turn_witness :
  session standstill
  ∧ turn_skipped standstill = false
  ∧ skipped_player_id standstill = None
  ∧ stalemate standstill = false
  ∧ (phase standstill = GAME_OVER →
     ∃ w, winner standstill = Some w
          ∧ Player.has_won (players standstill w) = true).
Proof.
  assert (session standstill) as Hs by exact (session_play standstill_session).
  split; [exact Hs|]. exact (session_never_skips_a_turn standstill Hs).
Defined.

(** X25.  In a session of [main] a selected pawn belongs to the player to
    act and stands on the board, and the game is on. *)
Theorem session_selection_is_own_pawn_on_board (s : GameState) (r : PawnRef) :
  session s →
  selected_pawn s = Some r →
  phase s = PLAYING
  ∧ ref_player r = current_player_index s
  ∧ Pawn.is_on_board (get_pawn s r) = true.
Proof.
  intros H. destruct (session_session_ok s H) as [_ Hsel]. apply Hsel.
Qed.

Lemma session_selection_is_own_pawn_on_board_witness :
  session first_selection
  ∧ selected_pawn first_selection = Some pawn_a
  ∧ phase first_selection = PLAYING
  ∧ ref_player pawn_a = current_player_index first_selection
  ∧ Pawn.is_on_board (get_pawn first_selection pawn_a) = true.
Proof.
  assert (session first_selection) as Hs
    by exact (session_play [click_cell 1 6; click_cell 6 1; click_cell 1 6]).
  assert (selected_pawn first_selection = Some pawn_a) as Hsel
    by (vm_compute; reflexivity).
  split; [exact Hs|]. split; [exact Hsel|].
  exact (session_selection_is_own_pawn_on_board first_selection pawn_a Hs Hsel).
Defined.

(** ** What a click does *)

Section accepted.

Implicit Types (s t : GameState) (r pawn : PawnRef) (x y : Z).

Lemma place_pawn_accepted s pawn x y :
  ref_player pawn = current_player_index s →
  Board.is_starting_position x y (ref_player pawn) = true →
  Board.is_intersection_empty (board s) x y = true →
  (place_pawn s pawn x y).1 = true.
Proof.
  intros Ho Hs He. unfold place_pawn, get_current_player.
  rewrite bool_decide_false by (intros H; by apply H).
  rewrite Hs. cbn [negb]. unfold Board.place_pawn.
  rewrite He, (is_intersection_empty_valid _ _ _ He). done.
Qed.

Lemma move_pawn_accepted s pawn x y fx fy :
  phase s = PLAYING →
  ref_player pawn = current_player_index s →
  _position (get_pawn s pawn) = Some (fx, fy) →
  (x, y) ∈ Pawn.get_valid_moves (ref_player pawn) (get_pawn s pawn) (board s) →
  board s !! (fx, fy) ≠ None →
  (move_pawn s pawn x y).1 = true.
Proof.
  intros Hph Ho Hp Hm Hocc.
  apply elem_of_get_valid_moves in Hm as Hm'.
  destruct Hm' as (fx' & fy' & _ & Hp' & Ha & He & _). cbn [fst snd] in He.
  rewrite Hp in Hp'. injection Hp' as <- <-.
  apply elem_of_get_adjacent_intersections in Ha as (Hv & _).
  unfold move_pawn, get_current_player, Pawn.get_position.
  rewrite bool_decide_false by (intros H; by apply H).
  rewrite bool_decide_false by (intros H; by apply H).
  rewrite Hp. rewrite bool_decide_false by (intros H; by apply H).
  unfold Board.move_pawn.
  rewrite Hv, (is_intersection_empty_valid _ _ _ He), He. cbn [negb orb].
  rewrite bool_decide_false by done. cbn [orb].
  destruct (board s !! (fx, fy)); done.
Qed.

Lemma escape_pawn_accepted s pawn x y :
  phase s = PLAYING →
  ref_player pawn = current_player_index s →
  _position (get_pawn s pawn) = Some (x, y) →
  Board.is_escape_position x y (ref_player pawn) = true →
  (escape_pawn s pawn).1 = true.
Proof.
  intros Hph Ho Hp He. unfold escape_pawn, get_current_player, Pawn.get_position.
  rewrite bool_decide_false by (intros H; by apply H).
  rewrite bool_decide_false by (intros H; by apply H).
  rewrite Hp, He. done.
Qed.

End accepted.

Section clicks.

Implicit Types (s t : GameState) (r pawn : PawnRef) (x y : Z)
  (renderer : Renderer) (pos : Z * Z).

Lemma handle_click_playing pos s renderer x y :
  phase s = PLAYING →
  Renderer.pixel_to_grid_position pos = Some (x, y) →
  InputHandler.handle_click pos s renderer
  = InputHandler._handle_game_click renderer x y s.
Proof.
  intros Hph Hg. unfold InputHandler.handle_click, is_game_over. cbv zeta.
  rewrite Hg, bool_decide_false by congruence. done.
Qed.

Lemma move_or_reselect_rejected renderer x y s i sel :
  (InputHandler.move_or_reselect renderer x y s i sel).1.1 = false →
  (InputHandler.move_or_reselect renderer x y s i sel).1.2 = s.
Proof.
  unfold InputHandler.move_or_reselect. cbv zeta. case_bool_decide.
  - pose proof (move_pawn_rejected s sel x y) as Hrej.
    destruct (move_pawn s sel x y) as [[] t]; cbn [fst snd] in *; [done|].
    intros _. by apply Hrej.
  - destruct (InputHandler.get_pawn_at_position _ _ _ _); [|done].
    by destruct (InputHandler.select_pawn _ _ _ _).
Qed.

Lemma select_or_place_rejected renderer x y s i :
  (InputHandler.select_or_place renderer x y s i).1.1 = false →
  (InputHandler.select_or_place renderer x y s i).1.2 = s.
Proof.
  unfold InputHandler.select_or_place.
  destruct (InputHandler.get_pawn_at_position s i x y);
    [by destruct (InputHandler.select_pawn _ _ _ _)|].
  destruct (Board.is_starting_position _ _ _);
    [|cbv zeta;
      by destruct (InputHandler.get_pawn_at_position s (get_other_player s) x y)].
  destruct (Board.is_intersection_empty _ _ _); [|done].
  destruct (InputHandler.first_unplaced_pawn _ _) as [pawn|]; [|done].
  pose proof (place_pawn_rejected s pawn x y) as Hrej.
  destruct (place_pawn s pawn x y) as [[] t]; cbn [fst snd] in *; [done|].
  intros _. by apply Hrej.
Qed.

Lemma handle_game_click_rejected renderer x y s :
  (InputHandler._handle_game_click renderer x y s).1.1 = false →
  (InputHandler._handle_game_click renderer x y s).1.2 = s.
Proof.
  unfold InputHandler._handle_game_click. cbv zeta.
  destruct (selected_pawn s) as [sel|]; [|apply select_or_place_rejected].
  destruct (Pawn.get_position (get_pawn s sel)) as [[cx cy]|]; [|done].
  destruct (_ && _); [|apply move_or_reselect_rejected].
  pose proof (escape_pawn_rejected s sel) as Hrej.
  destruct (escape_pawn s sel) as [[] t]; cbn [fst snd] in *; [done|].
  rewrite Hrej by done. apply move_or_reselect_rejected.
Qed.

End clicks.

(** X26.  A click that [handle_click] answers with [False] changes nothing
    of the game state, with one exception: while the game is on, a click
    off the grid clears the selection. *)
Theorem rejected_click_changes_no_game_state (pos : Z * Z) (s : GameState)
    (renderer : Renderer) :
  (InputHandler.handle_click pos s renderer).1.1 = false →
  (InputHandler.handle_click pos s renderer).1.2 =
    if bool_decide (phase s = PLAYING
                    ∧ Renderer.pixel_to_grid_position pos = None)
    then set_selected_pawn None s
    else s.
Proof.
  unfold InputHandler.handle_click, is_game_over. cbv zeta.
  case_bool_decide as Hph.
  - rewrite bool_decide_false by (intros [? _]; congruence).
    by destruct (_ && _).
  - assert (phase s = PLAYING) as Hp by (by destruct (phase s)).
    destruct (Renderer.pixel_to_grid_position pos) as [[x y]|].
    + rewrite bool_decide_false by (by intros [_ ?]).
      apply handle_game_click_rejected.
    + by rewrite bool_decide_true.
Qed.

Lemma rejected_click_changes_no_game_state_witness :
  (InputHandler.handle_click (Renderer.grid_to_pixel_position 3 3)
     init Renderer.init).1.1 = false
  ∧ (InputHandler.handle_click (Renderer.grid_to_pixel_position 3 3)
       init Renderer.init).1.2 =
      if bool_decide
           (phase init = PLAYING
            ∧ Renderer.pixel_to_grid_position
                (Renderer.grid_to_pixel_position 3 3) = None)
      then set_selected_pawn None init
      else init.
Proof.
  split; [vm_compute; reflexivity|].
  apply (rejected_click_changes_no_game_state
           (Renderer.grid_to_pixel_position 3 3) init Renderer.init).
  vm_compute. reflexivity.
Defined.

(** X27.  In a session of [main], with the game on and nothing selected, a
    click on an empty starting cell of the player to act, who has a pawn
    left to place, is answered with [True]: it places the first pawn of
    [get_unplaced_pawns()], the unplaced pawn in the lowest slot of the
    roster, on that cell and passes the turn; the notification names the
    player who is next. *)
Theorem click_places_first_unplaced_pawn (pos : Z * Z) (x y : Z)
    (s : GameState) (renderer : Renderer) :
  session s →
  phase s = PLAYING →
  selected_pawn s = None →
  Renderer.pixel_to_grid_position pos = Some (x, y) →
  Board.is_starting_position x y (current_player_index s) = true →
  Board.is_intersection_empty (board s) x y = true →
  Player.get_unplaced_pawns (players s (current_player_index s)) ≠ [] →
  ∃ pawn,
    ref_player pawn = current_player_index s
    ∧ head (Player.get_unplaced_pawns (players s (current_player_index s)))
      = Some (get_pawn s pawn)
    ∧ (∀ k, (fin_to_nat k < fin_to_nat (ref_pawn_id pawn))%nat →
         negb (Pawn.is_on_board (get_pawn s (mkPawnRef (ref_player pawn) k)))
         && negb (Pawn.is_escaped (get_pawn s (mkPawnRef (ref_player pawn) k)))
         = false)
    ∧ InputHandler.handle_click pos s renderer
      = (true, (place_pawn s pawn x y).2,
         Renderer.show_notification renderer
           ("Pawn placed. "
            +:+ InputHandler.player_label (next_index (current_player_index s))
            +:+ "'s turn"))
    ∧ get_pawn (place_pawn s pawn x y).2 pawn = mkPawn (Some (x, y)) false
    ∧ Board.get_pawn_at_intersection (board (place_pawn s pawn x y).2) x y
      = Some pawn
    ∧ current_player_index (place_pawn s pawn x y).2
      = next_index (current_player_index s)
    ∧ selected_pawn (place_pawn s pawn x y).2 = None.
Proof.
  intros Hses Hph Hsel Hg Hst He Hun.
  destruct (session_session_ok s Hses) as [(Hc & _) _].
  destruct (InputHandler.first_unplaced_pawn s (current_player_index s))
    as [pawn|] eqn:Hu;
    [|by apply first_unplaced_pawn_None in Hu].
  pose proof (first_unplaced_pawn_ref s (current_player_index s)) as Href.
  rewrite Hu in Href. cbn in Href.
  apply first_unplaced_pawn_Some in Hu as Hu'.
  destruct Hu' as (Ho & Hoff & Hne & Hlow).
  exists pawn. split; [done|]. split; [done|].
  split; [by rewrite Ho|].
  assert ((place_pawn s pawn x y).1 = true) as Hok.
  { apply place_pawn_accepted; by rewrite ?Ho. }
  destruct (place_pawn_success s pawn x y Hok) as (_ & _ & _ & Eq).
  destruct (action_tail s pawn (mkPawn (Some (x, y)) false)
              (<[(x, y) := pawn]> (board s)))
    as (Hgp & Hb & _ & Hi & Hsel' & _). cbv zeta in *.
  rewrite <- Eq in Hgp, Hb, Hi, Hsel'.
  pose proof (is_intersection_empty_valid _ _ _ He) as Hv.
  split; [|split; [done|split; [|split; [done|congruence]]]].
  - rewrite (handle_click_playing pos s renderer x y Hph Hg).
    unfold InputHandler._handle_game_click. cbv zeta. rewrite Hsel.
    unfold InputHandler.select_or_place, get_current_player.
    destruct (InputHandler.get_pawn_at_position s (current_player_index s) x y)
      as [r|] eqn:Hr.
    { exfalso. apply get_pawn_at_position_Some in Hr as [_ Hat].
      apply Hc in Hat. apply is_intersection_empty_lookup in He. congruence. }
    rewrite Hst, He, Hu.
    destruct (place_pawn s pawn x y) as [ok t]. cbn [fst snd] in *.
    subst ok. by rewrite Hi.
  - rewrite Hb, get_pawn_at_intersection_lookup by done.
    apply lookup_insert_eq.
Qed.

Lemma click_places_first_unplaced_pawn_witness :
  session init
  ∧ phase init = PLAYING
  ∧ selected_pawn init = None
  ∧ Renderer.pixel_to_grid_position (Renderer.grid_to_pixel_position 3 6)
    = Some (3, 6)
  ∧ Board.is_starting_position 3 6 (current_player_index init) = true
  ∧ Board.is_intersection_empty (board init) 3 6 = true
  ∧ Player.get_unplaced_pawns (players init (current_player_index init)) ≠ []
  ∧ ∃ pawn,
      ref_player pawn = current_player_index init
      ∧ head (Player.get_unplaced_pawns
                (players init (current_player_index init)))
        = Some (get_pawn init pawn)
      ∧ (∀ k, (fin_to_nat k < fin_to_nat (ref_pawn_id pawn))%nat →
           negb (Pawn.is_on_board
                   (get_pawn init (mkPawnRef (ref_player pawn) k)))
           && negb (Pawn.is_escaped
                      (get_pawn init (mkPawnRef (ref_player pawn) k)))
           = false)
      ∧ InputHandler.handle_click (Renderer.grid_to_pixel_position 3 6) init
          Renderer.init
        = (true, (place_pawn init pawn 3 6).2,
           Renderer.show_notification Renderer.init
             ("Pawn placed. "
              +:+ InputHandler.player_label
                    (next_index (current_player_index init))
              +:+ "'s turn"))
      ∧ get_pawn (place_pawn init pawn 3 6).2 pawn = mkPawn (Some (3, 6)) false
      ∧ Board.get_pawn_at_intersection (board (place_pawn init pawn 3 6).2) 3 6
        = Some pawn
      ∧ current_player_index (place_pawn init pawn 3 6).2
        = next_index (current_player_index init)
      ∧ selected_pawn (place_pawn init pawn 3 6).2 = None.
Proof.
  assert (Player.get_unplaced_pawns (players init (current_player_index init))
          ≠ []) as Hun by (vm_compute; discriminate).
  split; [exact session_start|]. split; [reflexivity|]. split; [reflexivity|].
  split; [vm_compute; reflexivity|]. split; [reflexivity|].
  split; [reflexivity|]. split; [exact Hun|].
  apply (click_places_first_unplaced_pawn
           (Renderer.grid_to_pixel_position 3 6) 3 6 init Renderer.init);
    [exact session_start|reflexivity|reflexivity|vm_compute; reflexivity
    |reflexivity|reflexivity|exact Hun].
Defined.

(** X28.  In a session of [main] a click on the selected pawn, when it
    stands on an escape cell of the player to act, is answered with
    [True]: the pawn leaves the board as escaped, no other pawn is
    touched, the selection is cleared and the turn passes; the
    notification left on display is the turn message. *)
Theorem second_click_escapes_selected_pawn (pos : Z * Z) (x y : Z)
    (s : GameState) (renderer : Renderer) (pawn : PawnRef) :
  session s →
  selected_pawn s = Some pawn →
  Pawn.get_position (get_pawn s pawn) = Some (x, y) →
  Board.is_escape_position x y (current_player_index s) = true →
  Renderer.pixel_to_grid_position pos = Some (x, y) →
  let s' := (InputHandler.handle_click pos s renderer).1.2 in
  (InputHandler.handle_click pos s renderer).1.1 = true
  ∧ s' = set_selected_pawn None (escape_pawn s pawn).2
  ∧ get_pawn s' pawn = mkPawn None true
  ∧ Board.is_intersection_empty (board s') x y = true
  ∧ (∀ r, r ≠ pawn → get_pawn s' r = get_pawn s r)
  ∧ current_player_index s' = next_index (current_player_index s)
  ∧ (InputHandler.handle_click pos s renderer).2
    = Renderer.show_notification renderer
        (InputHandler.player_label (next_index (current_player_index s))
         +:+ "'s turn").
Proof.
  intros Hses Hsel Hp He Hg.
  destruct (session_session_ok s Hses) as [_ Hsok].
  destruct (Hsok pawn Hsel) as (Hph & Ho & Hon).
  assert ((escape_pawn s pawn).1 = true) as Hok.
  { apply (escape_pawn_accepted s pawn x y); by rewrite ?Ho. }
  destruct (escape_pawn_success s pawn Hok)
    as (_ & _ & x' & y' & Hp' & _ & Eq).
  unfold Pawn.get_position in Hp. rewrite Hp in Hp'. injection Hp' as <- <-.
  destruct (action_tail s pawn (mkPawn None true) (delete (x, y) (board s)))
    as (Hgp & Hb & Hoth & Hi & _). cbv zeta in Hgp, Hb, Hoth, Hi.
  rewrite <- Eq in Hgp, Hb, Hoth, Hi.
  assert (InputHandler.handle_click pos s renderer
          = (true, set_selected_pawn None (escape_pawn s pawn).2,
             Renderer.show_notification renderer
               (InputHandler.player_label
                  (next_index (current_player_index s)) +:+ "'s turn")))
    as Hclick.
  { rewrite (handle_click_playing pos s renderer x y Hph Hg).
    unfold InputHandler._handle_game_click. cbv zeta.
    unfold get_current_player, Pawn.get_position. rewrite Hsel, Hp, He.
    rewrite !Z.eqb_refl. cbn [andb].
    destruct (escape_pawn s pawn) as [ok t]. cbn [fst snd] in *. subst ok.
    unfold get_current_player. simpl_fields. by rewrite Hi. }
  cbv zeta. rewrite Hclick. cbn [fst snd].
  assert (Board.is_valid_position x y = true) as Hv.
  { unfold Board.is_escape_position in He.
    destruct (Board.is_valid_position x y); [done|discriminate]. }
  split_and!; try done.
  - change (board (set_selected_pawn None (escape_pawn s pawn).2))
      with (board (escape_pawn s pawn).2).
    rewrite Hb. apply is_intersection_empty_spec. split; [done|].
    apply lookup_delete_eq.
Qed.

Lemma second_click_escapes_selected_pawn_witness :
  session exit_selection
  ∧ selected_pawn exit_selection = Some pawn_b
  ∧ Pawn.get_position (get_pawn exit_selection pawn_b) = Some (0, 1)
  ∧ Board.is_escape_position 0 1 (current_player_index exit_selection) = true
  ∧ Renderer.pixel_to_grid_position (Renderer.grid_to_pixel_position 0 1)
    = Some (0, 1)
  ∧ let click :=
      InputHandler.handle_click (Renderer.grid_to_pixel_position 0 1)
        exit_selection Renderer.init in
    click.1.1 = true
    ∧ click.1.2 = set_selected_pawn None (escape_pawn exit_selection pawn_b).2
    ∧ get_pawn click.1.2 pawn_b = mkPawn None true
    ∧ Board.is_intersection_empty (board click.1.2) 0 1 = true
    ∧ (∀ r, r ≠ pawn_b → get_pawn click.1.2 r = get_pawn exit_selection r)
    ∧ current_player_index click.1.2
      = next_index (current_player_index exit_selection)
    ∧ click.2
      = Renderer.show_notification Renderer.init
          (InputHandler.player_label
             (next_index (current_player_index exit_selection))
           +:+ "'s turn").
Proof.
  assert (session exit_selection) as Hs
    by exact (session_play (opening ++ [click_cell 0 1])).
  assert (selected_pawn exit_selection = Some pawn_b) as Hsel
    by (vm_compute; reflexivity).
  assert (Pawn.get_position (get_pawn exit_selection pawn_b) = Some (0, 1))
    as Hp by (vm_compute; reflexivity).
  assert (Board.is_escape_position 0 1 (current_player_index exit_selection)
          = true) as He by (vm_compute; reflexivity).
  assert (Renderer.pixel_to_grid_position (Renderer.grid_to_pixel_position 0 1)
          = Some (0, 1)) as Hg by (vm_compute; reflexivity).
  split; [exact Hs|]. split; [exact Hsel|]. split; [exact Hp|].
  split; [exact He|]. split; [exact Hg|].
  exact (second_click_escapes_selected_pawn
           (Renderer.grid_to_pixel_position 0 1) 0 1 exit_selection
           Renderer.init pawn_b Hs Hsel Hp He Hg).
Defined.

(** X29.  In a session of [main] a click on a cell the selected pawn can
    move to is answered with [True]: the pawn moves there, no other pawn
    is touched, the selection is cleared and the turn passes.  The pawn
    stays on the board, not escaped, also when the cell is an escape
    cell of its owner; the notification left on display is the turn
    message. *)
Theorem click_moves_selected_pawn (pos : Z * Z) (x y : Z)
    (s : GameState) (renderer : Renderer) (pawn : PawnRef) :
  session s →
  selected_pawn s = Some pawn →
  (x, y) ∈ Pawn.get_valid_moves (ref_player pawn) (get_pawn s pawn) (board s) →
  Renderer.pixel_to_grid_position pos = Some (x, y) →
  let s' := (InputHandler.handle_click pos s renderer).1.2 in
  (InputHandler.handle_click pos s renderer).1.1 = true
  ∧ s' = set_selected_pawn None (move_pawn s pawn x y).2
  ∧ get_pawn s' pawn = mkPawn (Some (x, y)) false
  ∧ Board.get_pawn_at_intersection (board s') x y = Some pawn
  ∧ (∀ r, r ≠ pawn → get_pawn s' r = get_pawn s r)
  ∧ current_player_index s' = next_index (current_player_index s)
  ∧ (InputHandler.handle_click pos s renderer).2
    = Renderer.show_notification renderer
        (InputHandler.player_label (next_index (current_player_index s))
         +:+ "'s turn").
Proof.
  intros Hses Hsel Hm Hg.
  destruct (session_session_ok s Hses) as [(Hc & _) Hsok].
  destruct (Hsok pawn Hsel) as (Hph & Ho & Hon).
  apply elem_of_get_valid_moves in Hm as Hm'.
  destruct Hm' as (fx & fy & _ & Hp & Ha & He & Hdir). cbn [fst snd] in *.
  assert (stands_at s pawn (fx, fy)) as Hat by done.
  apply Hc in Hat.
  assert ((move_pawn s pawn x y).1 = true) as Hok.
  { apply (move_pawn_accepted s pawn x y fx fy); try done. congruence. }
  destruct (move_pawn_success s pawn x y Hok)
    as (_ & _ & _ & fx' & fy' & b & Hp' & Hb & Eq).
  rewrite Hp in Hp'. injection Hp' as <- <-.
  apply board_move_pawn_true in Hb as (r0 & Hr0 & _ & ->).
  rewrite Hat in Hr0. injection Hr0 as <-.
  destruct (action_tail s pawn (mkPawn (Some (x, y)) false)
              (<[(x, y) := pawn]> (delete (fx, fy) (board s))))
    as (Hgp & Hb & Hoth & Hi & _). cbv zeta in Hgp, Hb, Hoth, Hi.
  rewrite <- Eq in Hgp, Hb, Hoth, Hi.
  assert ((x, y) ≠ (fx, fy)) as Hne.
  { intros [= -> ->]. destruct (ref_player pawn); cbn in Hdir; lia. }
  assert (InputHandler.handle_click pos s renderer
          = (true, set_selected_pawn None (move_pawn s pawn x y).2,
             Renderer.show_notification renderer
               (InputHandler.player_label
                  (next_index (current_player_index s)) +:+ "'s turn")))
    as Hclick.
  { rewrite (handle_click_playing pos s renderer x y Hph Hg).
    unfold InputHandler._handle_game_click. cbv zeta.
    unfold get_current_player, Pawn.get_position. rewrite Hsel, Hp.
    assert (Board.is_escape_position fx fy (current_player_index s)
            && (x =? fx) && (y =? fy) = false) as ->.
    { apply not_true_is_false. intros H.
      apply andb_true_iff in H as [H Hy]. apply andb_true_iff in H as [_ Hx].
      apply Hne. f_equal; lia. }
    unfold InputHandler.move_or_reselect. cbv zeta.
    rewrite bool_decide_true by done.
    destruct (move_pawn s pawn x y) as [ok t]. cbn [fst snd] in *. subst ok.
    unfold get_current_player. simpl_fields. rewrite Hi.
    by destruct (Board.is_escape_position x y (current_player_index s)). }
  cbv zeta. rewrite Hclick. cbn [fst snd].
  pose proof (is_intersection_empty_valid _ _ _ He) as Hv.
  split_and!; try done.
  change (board (set_selected_pawn None (move_pawn s pawn x y).2))
    with (board (move_pawn s pawn x y).2).
  rewrite Hb, get_pawn_at_intersection_lookup by done.
  apply lookup_insert_eq.
Qed.

Lemma click_moves_selected_pawn_witness :
  session first_selection
  ∧ selected_pawn first_selection = Some pawn_a
  ∧ (1, 5) ∈ Pawn.get_valid_moves (ref_player pawn_a)
               (get_pawn first_selection pawn_a) (board first_selection)
  ∧ Renderer.pixel_to_grid_position (Renderer.grid_to_pixel_position 1 5)
    = Some (1, 5)
  ∧ let click :=
      InputHandler.handle_click (Renderer.grid_to_pixel_position 1 5)
        first_selection Renderer.init in
    click.1.1 = true
    ∧ click.1.2 = set_selected_pawn None (move_pawn first_selection pawn_a 1 5).2
    ∧ get_pawn click.1.2 pawn_a = mkPawn (Some (1, 5)) false
    ∧ Board.get_pawn_at_intersection (board click.1.2) 1 5 = Some pawn_a
    ∧ (∀ r, r ≠ pawn_a → get_pawn click.1.2 r = get_pawn first_selection r)
    ∧ current_player_index click.1.2
      = next_index (current_player_index first_selection)
    ∧ click.2
      = Renderer.show_notification Renderer.init
          (InputHandler.player_label
             (next_index (current_player_index first_selection))
           +:+ "'s turn").
Proof.
  assert (session first_selection) as Hs
    by exact (session_play [click_cell 1 6; click_cell 6 1; click_cell 1 6]).
  assert (selected_pawn first_selection = Some pawn_a) as Hsel
    by (vm_compute; reflexivity).
  assert ((1, 5) ∈ Pawn.get_valid_moves (ref_player pawn_a)
                     (get_pawn first_selection pawn_a) (board first_selection))
    as Hm by (vm_compute; left).
  assert (Renderer.pixel_to_grid_position (Renderer.grid_to_pixel_position 1 5)
          = Some (1, 5)) as Hg by (vm_compute; reflexivity).
  split; [exact Hs|]. split; [exact Hsel|]. split; [exact Hm|].
  split; [exact Hg|].
  exact (click_moves_selected_pawn
           (Renderer.grid_to_pixel_position 1 5) 1 5 first_selection
           Renderer.init pawn_a Hs Hsel Hm Hg).
Defined.

(** ** A player who cannot act *)

(** The state at the end of [standstill_session]: player 2 is to act and
    cannot move, with five pawns on the board, two escaped and none left
    to place, while player 1 could move. *)
Example standstill_state :
  phase standstill = PLAYING
  ∧ current_player_index standstill = Idx1
  ∧ can_player_move standstill Idx1 = false
  ∧ can_player_move standstill Idx0 = true
  ∧ Player.get_unplaced_pawns (players standstill Idx1) = []
  ∧ length (Player.get_escaped_pawns (players standstill Idx1)) = 2%nat
  ∧ length (Player.get_pawns_on_board (players standstill Idx1)) = 5%nat
  ∧ selected_pawn standstill = None.
Proof. vm_compute. repeat split. Qed.

Section stuck.

Implicit Types (s t : GameState) (r pawn : PawnRef) (x y : Z)
  (renderer : Renderer) (pos : Z * Z).

Lemma get_pawn_elem_of_roster s r :
  get_pawn s r ∈ Player.get_pawns (players s (ref_player r)).
Proof. unfold get_pawn, Player.get_pawns. apply elem_of_vlookup. eauto. Qed.

Lemma cannot_move_no_valid_moves s r :
  can_player_move s (ref_player r) = false →
  Pawn.is_on_board (get_pawn s r) = true →
  Pawn.get_valid_moves (ref_player r) (get_pawn s r) (board s) = [].
Proof.
  unfold can_player_move, Player.can_move_any_pawn. intros Hc Hon.
  destruct (Pawn.get_valid_moves _ _ _) as [|c l] eqn:E; [done|].
  exfalso. apply not_true_iff_false in Hc. apply Hc.
  apply existsb_exists. exists (get_pawn s r). split; [|by rewrite E].
  apply list_elem_of_In. unfold Player.get_pawns_on_board.
  apply list_elem_of_filter. split; [done|]. apply get_pawn_elem_of_roster.
Qed.

Lemma stuck_game_click renderer x y s :
  session s → phase s = PLAYING → cannot_act s →
  ∃ sel,
    (InputHandler._handle_game_click renderer x y s).1.2
    = set_selected_pawn sel s.
Proof.
  intros Hses Hph (Hmove & Hexit & Hplace). cbv zeta in *.
  destruct (session_session_ok s Hses) as [_ Hsok].
  assert (s = set_selected_pawn (selected_pawn s) s) as Hself by (by destruct s).
  unfold InputHandler._handle_game_click. cbv zeta. unfold get_current_player.
  destruct (selected_pawn s) as [sel|] eqn:Hsel.
  - destruct (Hsok sel Hsel) as (_ & Ho & Hon).
    destruct (Pawn.get_position (get_pawn s sel)) as [[cx cy]|] eqn:Hp;
      [|by exists (Some sel)].
    rewrite (Hexit sel cx cy Ho) by done. cbn [andb].
    unfold InputHandler.move_or_reselect. cbv zeta.
    rewrite <- Ho in Hmove. rewrite (cannot_move_no_valid_moves s sel Hmove Hon).
    rewrite bool_decide_false by (by intros ?%elem_of_nil).
    destruct (InputHandler.get_pawn_at_position _ _ _ _) as [r|].
    + exists (Some r).
      pose proof (select_pawn_state renderer s (current_player_index s) r) as E.
      by destruct (InputHandler.select_pawn _ _ _ _).
    + by exists None.
  - unfold InputHandler.select_or_place.
    destruct (InputHandler.get_pawn_at_position s (current_player_index s) x y)
      as [r|].
    + exists (Some r).
      pose proof (select_pawn_state renderer s (current_player_index s) r) as E.
      by destruct (InputHandler.select_pawn _ _ _ _).
    + exists None. rewrite <- Hself.
      destruct (Board.is_starting_position _ _ _) eqn:Hst;
        [|cbv zeta;
          by destruct (InputHandler.get_pawn_at_position s
                         (get_other_player s) x y)].
      destruct (Board.is_intersection_empty _ _ _) eqn:He; [|done].
      destruct Hplace as [Hnone|Hfull]; [|by rewrite Hfull in He].
      pose proof (first_unplaced_pawn_ref s (current_player_index s)) as Href.
      rewrite Hnone in Href.
      by destruct (InputHandler.first_unplaced_pawn _ _).
Qed.

End stuck.

(** X30.  In a session of [main], when the player to act cannot act (no
    pawn of theirs can move, none stands on one of their escape cells and
    none can be placed), no click and no press of ESC changes anything
    but the selection: the turn is not passed on, and the player still
    cannot act afterwards.  Only the key R, which starts a new game, gets
    the session out of this. *)
Theorem stuck_player_keeps_the_turn (s : GameState) (renderer : Renderer)
    (event : Event) :
  session s →
  phase s = PLAYING →
  cannot_act s →
  event ≠ KeyR →
  let s' := (handle_event s renderer event).1 in
  (∃ sel, s' = set_selected_pawn sel s)
  ∧ phase s' = PLAYING
  ∧ current_player_index s' = current_player_index s
  ∧ cannot_act s'.
Proof.
  intros Hses Hph Hstuck Hev. cbv zeta.
  assert (∃ sel, (handle_event s renderer event).1 = set_selected_pawn sel s)
    as [sel Hs'].
  { destruct event as [pos| |]; [| done |].
    - cbn [handle_event].
      assert (∃ sel, (InputHandler.handle_click pos s renderer).1.2
                     = set_selected_pawn sel s) as [sel E].
      { unfold InputHandler.handle_click, is_game_over. cbv zeta.
        rewrite bool_decide_false by congruence.
        destruct (Renderer.pixel_to_grid_position pos) as [[x y]|].
        - by apply stuck_game_click.
        - by exists None. }
      exists sel.
      by destruct (InputHandler.handle_click pos s renderer) as [[ok t] rd].
    - cbn [handle_event]. destruct (selected_pawn s) eqn:E.
      + by exists None.
      + exists None. rewrite <- E. by destruct s. }
  rewrite Hs'. split; [by exists sel|]. split; [done|]. split; [done|].
  exact Hstuck.
Qed.

Lemma standstill_cannot_act : cannot_act standstill.
Proof.
  split; [vm_compute; reflexivity|]. split.
  - intros [p k] x y Ho. cbn [ref_player] in Ho.
    assert (p = Idx1) as -> by (rewrite Ho; vm_compute; reflexivity).
    clear Ho. intros [Hon Hp]. revert Hon Hp.
    inv_fin k; [|intros k; inv_fin k; [|intros k; inv_fin k;
      [|intros k; inv_fin k; [|intros k; inv_fin k; [|intros k; inv_fin k;
      [|intros k; inv_fin k; [|intros k; inv_fin k]]]]]]];
      vm_compute; try discriminate; intros _ [= <- <-]; reflexivity.
  - left. vm_compute. reflexivity.
Qed.

Lemma stuck_player_keeps_the_turn_witness :
  session standstill
  ∧ phase standstill = PLAYING
  ∧ cannot_act standstill
  ∧ click_cell 6 1 ≠ KeyR
  ∧ let s' := (handle_event standstill Renderer.init (click_cell 6 1)).1 in
    (∃ sel, s' = set_selected_pawn sel standstill)
    ∧ phase s' = PLAYING
    ∧ current_player_index s' = current_player_index standstill
    ∧ cannot_act s'.
Proof.
  assert (session standstill) as Hses by apply session_play.
  assert (phase standstill = PLAYING) as Hph by (vm_compute; reflexivity).
  assert (click_cell 6 1 ≠ KeyR) as Hev by discriminate.
  split; [exact Hses|]. split; [exact Hph|].
  split; [exact standstill_cannot_act|]. split; [exact Hev|].
  exact (stuck_player_keeps_the_turn standstill Renderer.init (click_cell 6 1)
           Hses Hph standstill_cannot_act Hev).
Defined.
